(** * plotter: domain colouring of complex functions on an RGB canvas

    A shallow embedding of [main.cpp] and of its earlier variants.  The
    repository holds three generations of the same program:

    - [Degrees]: the first translation unit of [main.cpp]; the HSV fields
      are [domain_value]s, the hue is declared over [0, 360];
    - [Normalized]: the variant whose [hsv2rgb] asserts a hue in [0, 1];
    - [Bytes] and [BytePaint]: the byte variant (second translation unit
      of [main.cpp]), with [uint8_t] HSV fields, [hsv2rgb] in integers, and
      the canvas and the pixel loop of [Normalized].

    Machine integers are [Z] with their wrap-around written out, [double]
    is IEEE 754 binary64 as specified by [SpecFloat], the pixel buffer is a
    list of bytes updated by index. *)

From Stdlib Require Import ZArith Bool Lia SpecFloat Reals Lra.
From stdpp Require Import base list.

Local Open Scope Z_scope.

(** ** Machine integers *)

Module MachineInt.

Definition int_min : Z := - 2 ^ 31.
Definition int_max : Z := 2 ^ 31 - 1.

(** The values an [int] can hold. *)
Definition is_int (z : Z) : Prop := int_min <= z <= int_max.

(** Two's complement reduction of a mathematical result to [int].
    Signed overflow is undefined in C++; the definitions take the wrapped
    value the hardware produces. *)
Definition wrap_int (z : Z) : Z := (z + 2 ^ 31) mod 2 ^ 32 - 2 ^ 31.

Definition int_mul (a b : Z) : Z := wrap_int (a * b).
Definition int_add (a b : Z) : Z := wrap_int (a + b).

(** [static_cast<size_t>] of an [int], and [size_t] arithmetic (LP64). *)
Definition to_size_t (z : Z) : Z := z mod 2 ^ 64.
Definition size_mul (a b : Z) : Z := (a * b) mod 2 ^ 64.

End MachineInt.

(** ** The canvas ([struct Canvas], [struct RGBCanvas]) *)

Module Canvas.
Import MachineInt.

Record ImageSize := { width : Z; height : Z }.

(** [ImageSize::area]: both factors are converted to [size_t] first. *)
Definition area (s : ImageSize) : Z :=
  size_mul (to_size_t (width s)) (to_size_t (height s)).

Record Point := { x : Z; y : Z }.

Record RGBColor := { red : Z; green : Z; blue : Z }.

Record Canvas := { size : ImageSize; pixels : list Z }.

(** The constructor: [pixels.resize(size.area() * 3)], then [fill] with
    [0xFF]. *)
Definition new (s : ImageSize) : Canvas :=
  {| size := s;
     pixels := replicate (Z.to_nat (size_mul (area s) 3)) 255 |}.

(** The guard of [write], written as in the source. *)
Definition in_bounds (c : Canvas) (p : Point) : bool :=
  (0 <=? x p) && (x p <? width (size c))
  && (0 <=? y p) && (y p <? height (size c)).

(** [p.y * size.width * 3 + p.x * 3], evaluated in [int]. *)
Definition pixel_index (c : Canvas) (p : Point) : Z :=
  int_add (int_mul (int_mul (y p) (width (size c))) 3) (int_mul (x p) 3).

(** [Canvas::write].  The subscript of [pixels] is a [size_t]; a
    subscript that leaves the buffer is undefined behaviour and is
    reported as [None]. *)
Definition write (c : Canvas) (p : Point) (color : RGBColor)
  : option Canvas :=
  if negb (in_bounds c p) then Some c
  else
    let i := to_size_t (pixel_index c p) in
    if i + 2 <? Z.of_nat (length (pixels c)) then
      let n := Z.to_nat i in
      Some {| size := size c;
              pixels := <[(n + 2)%nat := blue color]>
                          (<[(n + 1)%nat := green color]>
                             (<[n := red color]> (pixels c))) |}
    else None.

(** The byte offset the specification gives to pixel [(x, y)]. *)
Definition offset (c : Canvas) (p : Point) : Z :=
  (y p * width (size c) + x p) * 3.

(** A canvas whose buffer has the length its size announces. *)
Definition well_formed (c : Canvas) : Prop :=
  is_int (width (size c)) /\ is_int (height (size c))
  /\ Z.of_nat (length (pixels c)) = width (size c) * height (size c) * 3.

(** The frame of a three-byte store at index [n]: the bytes of [color]
    in the order red, green, blue, every other byte and the length kept. *)
Definition stored (n : nat) (color : RGBColor) (old new : list Z) : Prop :=
  length new = length old
  /\ new !! n = Some (red color)
  /\ new !! (n + 1)%nat = Some (green color)
  /\ new !! (n + 2)%nat = Some (blue color)
  /\ forall j : nat, j <> n -> j <> (n + 1)%nat -> j <> (n + 2)%nat ->
                     new !! j = old !! j.

(** A canvas that a sequence of writes has reached from [c0]: same size,
    same buffer length. *)
Definition reached (c0 : Canvas) (acc : option Canvas) : Prop :=
  exists c, acc = Some c /\ size c = size c0
            /\ length (pixels c) = length (pixels c0).

End Canvas.

(** ** IEEE 754 binary64 ([double]) *)

Module IEEE.
Import MachineInt.

Definition prec : Z := 53.
Definition emax : Z := 1024.

Definition double := spec_float.

Definition dadd : double -> double -> double := SFadd prec emax.
Definition dsub : double -> double -> double := SFsub prec emax.
Definition dmul : double -> double -> double := SFmul prec emax.
Definition ddiv : double -> double -> double := SFdiv prec emax.
Definition dsqrt : double -> double := SFsqrt prec emax.
Definition dopp : double -> double := SFopp.
Definition dabs : double -> double := SFabs.
Definition deq : double -> double -> bool := SFeqb.
Definition dlt : double -> double -> bool := SFltb.
Definition dle : double -> double -> bool := SFleb.

Definition isnan (d : double) : bool :=
  match d with S754_nan => true | _ => false end.
Definition isinf (d : double) : bool :=
  match d with S754_infinity _ => true | _ => false end.
Definition isfinite (d : double) : bool := negb (isnan d || isinf d).

(** Conversion of an integer to [double], rounding to nearest even. *)
Definition of_int (z : Z) : double := binary_normalize prec emax z 0 false.

(** The integer a finite [double] truncates to, toward zero. *)
Definition Ztrunc (d : double) : option Z :=
  match d with
  | S754_zero _ => Some 0
  | S754_finite s m e => Some (cond_Zopp s (Z.shiftl (Zpos m) e))
  | _ => None
  end.

(** [trunc] and [floor] of <cmath>: the sign of a zero result is the sign
    of the argument, NaN and the infinities are returned as they are. *)
Definition trunc (d : double) : double :=
  match d with
  | S754_finite s m e =>
      if 0 <=? e then d
      else binary_normalize prec emax (cond_Zopp s (Z.shiftl (Zpos m) e)) 0 s
  | _ => d
  end.

Definition floor (d : double) : double :=
  match d with
  | S754_finite s m e =>
      if 0 <=? e then d
      else binary_normalize prec emax (Z.shiftl (cond_Zopp s (Zpos m)) e) 0 s
  | _ => d
  end.

(** [static_cast<int>] of a [double].  The conversion is undefined in
    C++ when the truncated value does not fit; the definition gives what
    x86-64 compilers produce ([cvttsd2si]: the integer indefinite value
    [INT_MIN]).  [static_cast<unsigned char>] goes through the same
    instruction and keeps the low byte. *)
Definition int_of_double (d : double) : Z :=
  match Ztrunc d with
  | Some z => if (int_min <=? z) && (z <=? int_max) then z else int_min
  | None => int_min
  end.

Definition uchar_of_double (d : double) : Z := int_of_double d mod 256.

(** [std::clamp(v, lo, hi)]: [(v < lo) ? lo : (hi < v) ? hi : v]. *)
Definition clamp (v lo hi : double) : double :=
  if dlt v lo then lo else if dlt hi v then hi else v.

(** Literals of the sources. *)
Definition d0 : double := S754_zero false.
Definition d0_1 : double := S754_finite false 0x1999999999999A (-56).
Definition d0_5 : double := S754_finite false 0x10000000000000 (-53).
Definition d1 : double := of_int 1.
Definition d2 : double := of_int 2.
Definition d60 : double := of_int 60.
Definition d180 : double := of_int 180.
Definition d255 : double := of_int 255.
Definition d360 : double := of_int 360.
(** [M_PI] = 3.14159265358979323846, i.e. 0x400921FB54442D18. *)
Definition M_PI : double := S754_finite false 0x1921FB54442D18 (-51).

(** [std::complex<double>] *)
Record complex := { re : double; im : double }.

(** [operator*(const double&, const complex<double>&)] scales both
    parts. *)
Definition cscale (a : double) (z : complex) : complex :=
  {| re := dmul a (re z); im := dmul a (im z) |}.

(** The imaginary unit literal [1i]. *)
Definition c_i : complex := {| re := d0; im := d1 |}.

(** The functions of <cmath> and <complex> that the sampler calls and
    that IEEE 754 does not define; they are taken as they come. *)
Record libm := {
  sin : double -> double;
  pow : double -> double -> double;
  atan2 : double -> double -> double;
  cexp : complex -> complex;
  cabs : complex -> double
}.

(** A first-order stand-in for these functions ([sin x] is [x], [exp c] is
    [1 + c], [abs c] the root of the squares), exact on the special values
    of Annex F that the examples below rely on: [sin] of a zero, of an
    infinity or of NaN, [pow] of a negative finite base or of NaN to the
    power 0.1, [atan2] of a zero over a zero or a positive number and of
    NaN, [exp] of 0.  It instantiates the general statements at concrete
    samples. *)
Definition first_order : libm :=
  {| sin := fun a => if isinf a then S754_nan else a;
     pow := fun b _ =>
              match b with S754_finite true _ _ => S754_nan | _ => b end;
     atan2 := fun b _ => b;
     cexp := fun c => {| re := dadd d1 (re c); im := im c |};
     cabs := fun c =>
               dsqrt (dadd (dmul (re c) (re c)) (dmul (im c) (im c))) |}.

(** The nearest integer of [255 * v] for the exact product (ties away
    from zero): the [round(v * 255)] of the specification. *)
Definition round_255 (v : double) : option Z :=
  match v with
  | S754_zero _ => Some 0
  | S754_finite s m e =>
      Some (cond_Zopp s ((Z.shiftl (255 * Zpos m) (e + 1) + 1) / 2))
  | _ => None
  end.

(** [f(z) = 1 / conj(z)], that is [z / |z|^2], a function with a pole at
    0, where both parts of its value are 0 / 0. *)
Definition inv_conj (c : complex) : complex :=
  let n := dadd (dmul (re c) (re c)) (dmul (im c) (im c)) in
  {| re := ddiv (re c) n; im := ddiv (im c) n |}.

(** [f(z) = -z], a function to sample in examples. *)
Definition minus_z (c : complex) : complex := cscale (of_int (-1)) c.

End IEEE.

(** ** Real values of [double]s and the specification of rounding *)

Module Real754.
Import IEEE.

(** Powers of two and the real number a mantissa and an exponent stand
    for. *)
Definition bpow (e : Z) : R := powerRZ 2 e.

Definition F2R (m e : Z) : R := (IZR m * bpow e)%R.

(** The exponent binary64 gives to a number of [e] binary digits. *)
Definition fexp64 (e : Z) : Z := fexp prec emax e.

(** A mantissa and an exponent as rounding leaves them: canonical, or the
    zero mantissa at the least exponent. *)
Definition grid (m e : Z) : Prop :=
  0 <= m /\ e = fexp64 (Zdigits2 m + e).

(** The position of a real within the unit interval that starts at the
    mantissa of a shift record, as its round and sticky bits tell it. *)
Definition inbetween (x : R) (mrs : shr_record) : Prop :=
  match shr_r mrs, shr_s mrs with
  | false, false => x = IZR (shr_m mrs)
  | false, true => (IZR (shr_m mrs) < x < IZR (shr_m mrs) + / 2)%R
  | true, false => x = (IZR (shr_m mrs) + / 2)%R
  | true, true => (IZR (shr_m mrs) + / 2 < x < IZR (shr_m mrs) + 1)%R
  end.

(** The float the last match of [binary_round_aux] builds. *)
Definition SF_of_grid (s : bool) (m e : Z) : spec_float :=
  match m with
  | 0 => S754_zero s
  | Zpos p => if e <=? emax - prec then S754_finite s p e else S754_infinity s
  | Zneg _ => S754_nan
  end.

(** [z] is a rounding of the magnitude [X] with sign [s]: a number of the
    grid, monotone against every canonical number: one that bounds [X]
    bounds [z] on the same side. *)
Definition rounded (s : bool) (X : R) (z : spec_float) : Prop :=
  exists m3 e3,
    z = SF_of_grid s m3 e3
    /\ grid m3 e3
    /\ forall mb eb, 0 < mb -> eb = fexp64 (Zdigits2 mb + eb) ->
         ((X <= F2R mb eb)%R -> (F2R m3 e3 <= F2R mb eb)%R)
         /\ ((F2R mb eb <= X)%R -> (F2R mb eb <= F2R m3 e3)%R).

(** The magnitude and the value of a float; zeros, infinities and NaN
    count as 0. *)
Definition SFmag (z : spec_float) : R :=
  match z with S754_finite _ m e => F2R (Zpos m) e | _ => 0%R end.

Definition SF2R (z : spec_float) : R :=
  match z with
  | S754_finite s m e => F2R (cond_Zopp s (Zpos m)) e
  | _ => 0%R
  end.

(** A float that is +0 or positive, finite and at most [B]. *)
Definition nonneg_le (B : R) (d : double) : Prop :=
  d = S754_zero false
  \/ exists m e, d = S754_finite false m e
                 /\ SpecFloat.bounded prec emax m e = true
                 /\ (F2R (Zpos m) e <= B)%R.

End Real754.

(** ** The sampler: the closures shared by [color] and [paint_complex] *)

Module Sampler.
Import IEEE.

Section WithFunction.
Context (L : libm) (f : complex -> complex).

Definition threshold : double := d0_1.

(** [r(x, y) = sqrt(x * x + y * y)] *)
Definition r (x y : double) : double := dsqrt (dadd (dmul x x) (dmul y y)).

(** [theta(x, y) = atan2(y, x)] *)
Definition theta (x y : double) : double := atan2 L y x.

(** [z(x, y) = r(x, y) * exp(theta(x, y) * 1i)] *)
Definition z (x y : double) : complex :=
  cscale (r x y) (cexp L (cscale (theta x y) c_i)).

(** [0.5 + 0.5 * (abs(f(z)) - floor(abs(f(z))))] *)
Definition sawtooth (m : double) : double :=
  dadd d0_5 (dmul d0_5 (dsub m (floor m))).

Definition magnitude_shading (x y : double) : double :=
  sawtooth (cabs L (f (z x y))).

Definition real_f (c : complex) : double := re (f c).
Definition imaginary_f (c : complex) : double := im (f c).

(** The product [gridlines] names [value]: the absolute value is taken
    after [pow] in the first factor and before it in the second. *)
Definition gridlines_value (x y : double) : double :=
  dmul (dabs (pow L (sin L (dmul (real_f (z x y)) M_PI)) threshold))
       (pow L (dabs (sin L (dmul (imaginary_f (z x y)) M_PI))) threshold).

(** The same product with both absolute values taken before [pow], the
    way the specification writes the gridlines term. *)
Definition gridlines_formula (x y : double) : double :=
  dmul (pow L (dabs (sin L (dmul (real_f (z x y)) M_PI))) threshold)
       (pow L (dabs (sin L (dmul (imaginary_f (z x y)) M_PI))) threshold).

(** What Annex F fixes for [pow] at the exponent 0.1: a negative finite
    base gives NaN; for every other base the result has no sign and is the
    result for the absolute value of the base. *)
Definition pow_annex_f : Prop :=
  (forall m e, isnan (pow L (S754_finite true m e) threshold) = true)
  /\ (forall b, (forall m e, b <> S754_finite true m e) ->
                dabs (pow L b threshold) = pow L (dabs b) threshold).

(** [gridlines] of [main.cpp] and of the normalized variant. *)
Definition gridlines (x y : double) : double :=
  let value := gridlines_value x y in
  if isnan (dabs value) || isinf (dabs value) then d1 else value.

(** The fraction of a turn both variants of [angle] start from:
    [(M_PI + atan2(-y, -x)) / (2 * M_PI)]. *)
Definition turn (x y : double) : double :=
  ddiv (dadd M_PI (atan2 L (dopp y) (dopp x))) (dmul d2 M_PI).

End WithFunction.

End Sampler.

(** ** The [switch] over the sector index in [hsv2rgb] *)

Module Switch.

Inductive arm := Case0 | Case1 | Case2 | Case3 | Case4 | Default.

(** The label [switch (i)] jumps to. *)
Definition switch (i : Z) : arm :=
  match i with
  | 0 => Case0
  | 1 => Case1
  | 2 => Case2
  | 3 => Case3
  | 4 => Case4
  | _ => Default
  end.

End Switch.

(** ** [main.cpp]: HSV fields are [domain_value]s, hue in degrees *)

Module Degrees.
Import MachineInt IEEE Canvas Sampler Switch.

(** [degree<double>] and [norm<double>]: construction and assignment
    clamp to the declared domain. *)
Definition degree (v : double) : double := clamp v d0 d360.
Definition norm (v : double) : double := clamp v d0 d1.

Record HSVColor := { hue : double; saturation : double; value : double }.

(** Aggregate initialization of [HSVColor] from three [double]s. *)
Definition mkHSV (h s v : double) : HSVColor :=
  {| hue := degree h; saturation := norm s; value := norm v |}.

(** The hue after [if (hsv.hue() == 360) hsv.hue = 0; else
    hsv.hue = hsv.hue() / 60;]. *)
Definition sector_hue (h : double) : double :=
  if deq h d360 then degree d0 else degree (ddiv h d60).

(** [static_cast<int>(trunc(hsv.hue()))] *)
Definition sector (h : double) : Z := int_of_double (trunc (sector_hue h)).

Definition channels (hsv : HSVColor) : double * double * double :=
  let v := value hsv in
  let s := saturation hsv in
  if deq s d0 then (v, v, v)
  else
    let h := sector_hue (hue hsv) in
    let i := sector (hue hsv) in
    let f := dsub h (of_int i) in
    let p := dmul v (dsub d1 s) in
    let q := dmul v (dsub d1 (dmul s f)) in
    let t := dmul v (dsub d1 (dmul s (dsub d1 f))) in
    match switch i with
    | Case0 => (v, t, p)
    | Case1 => (q, v, p)
    | Case2 => (p, v, t)
    | Case3 => (p, q, v)
    | Case4 => (t, p, v)
    | Default => (v, p, q)
    end.

Definition hsv2rgb (hsv : HSVColor) : RGBColor :=
  let '(r, g, b) := channels hsv in
  {| red := uchar_of_double (dmul r d255);
     green := uchar_of_double (dmul g d255);
     blue := uchar_of_double (dmul b d255) |}.

Section WithFunction.
Context (L : libm) (f : complex -> complex).

(** [angle]: the fraction of a turn, named [angleRadians], times
    [180.0 / M_PI]. *)
Definition angle (x y : double) : double :=
  let angleRadians := turn L x y in
  dmul angleRadians (ddiv d180 M_PI).

(** The [HSVColor] that [color] hands to [hsv2rgb]. *)
Definition color_hsv (x y : double) : HSVColor :=
  mkHSV (angle (real_f f (z L x y)) (imaginary_f f (z L x y)))
        (magnitude_shading L f x y)
        (gridlines L f x y).

Definition color (x y : double) : RGBColor := hsv2rgb (color_hsv x y).

(** The plane coordinate of a pixel column or row:
    [((double(px) / w) - 0.5) * xExtent] with [xExtent = xRange * 2]. *)
Definition plane_coord (n : Z) (range : double) (px : Z) : double :=
  let w := of_int n in
  let extent := dmul range d2 in
  dmul (dsub (ddiv (of_int px) w) d0_5) extent.

(** [paint_complex]: rows outside, columns inside; every pixel is
    written through [Canvas::write]. *)
Definition paint_row (xRange : double) (yf : double) (py : Z)
    (c : Canvas) : option Canvas :=
  foldl (fun acc px =>
           acc ≫= fun c' =>
             write c' {| x := px; y := py |}
                   (color (plane_coord (width (size c)) xRange px) yf))
        (Some c) (seqZ 0 (width (size c))).

Definition paint_complex (c : Canvas) (xRange yRange : double)
    : option Canvas :=
  foldl (fun acc py =>
           acc ≫= fun c' =>
             paint_row xRange
                       (plane_coord (height (size c)) yRange py) py c')
        (Some c) (seqZ 0 (height (size c))).

End WithFunction.

End Degrees.

(** ** The normalized variant: plain [double] fields, hue in [0, 1] *)

Module Normalized.
Import MachineInt IEEE Canvas Sampler Switch.

Record HSVColor := { hue : double; saturation : double; value : double }.

(** The three [assert]s that open [hsv2rgb]. *)
Definition asserts (hsv : HSVColor) : bool :=
  dle d0 (hue hsv) && dle (hue hsv) d1
  && dle d0 (saturation hsv) && dle (saturation hsv) d1
  && dle d0 (value hsv) && dle (value hsv) d1.

Definition sector_hue (h : double) : double :=
  if deq h d360 then d0 else ddiv h d60.

Definition sector (h : double) : Z := int_of_double (trunc (sector_hue h)).

Definition channels (hsv : HSVColor) : double * double * double :=
  let v := value hsv in
  let s := saturation hsv in
  if deq s d0 then (v, v, v)
  else
    let h := sector_hue (hue hsv) in
    let i := sector (hue hsv) in
    let f := dsub h (of_int i) in
    let p := dmul v (dsub d1 s) in
    let q := dmul v (dsub d1 (dmul s f)) in
    let t := dmul v (dsub d1 (dmul s (dsub d1 f))) in
    match switch i with
    | Case0 => (v, t, p)
    | Case1 => (q, v, p)
    | Case2 => (p, v, t)
    | Case3 => (p, q, v)
    | Case4 => (t, p, v)
    | Default => (v, p, q)
    end.

(** [hsv2rgb]; [None] is the abort of a failed [assert]. *)
Definition hsv2rgb (hsv : HSVColor) : option RGBColor :=
  if asserts hsv then
    let '(r, g, b) := channels hsv in
    Some {| red := uchar_of_double (dmul r d255);
            green := uchar_of_double (dmul g d255);
            blue := uchar_of_double (dmul b d255) |}
  else None.

Section WithFunction.
Context (L : libm) (f : complex -> complex).

(** [angle] returns the fraction of a turn as it is. *)
Definition angle (x y : double) : double := turn L x y.

Definition color_hsv (x y : double) : HSVColor :=
  {| hue := angle (real_f f (z L x y)) (imaginary_f f (z L x y));
     saturation := magnitude_shading L f x y;
     value := gridlines L f x y |}.

Definition color (x y : double) : option RGBColor :=
  hsv2rgb (color_hsv x y).

(** [((double(px) / w) - 0.5) * xRange]: the range is used as it is. *)
Definition plane_coord (n : Z) (range : double) (px : Z) : double :=
  let w := of_int n in
  dmul (dsub (ddiv (of_int px) w) d0_5) range.

Definition paint_row (xRange : double) (yf : double) (py : Z)
    (c : Canvas) : option Canvas :=
  foldl (fun acc px =>
           acc ≫= fun c' =>
             color (plane_coord (width (size c)) xRange px) yf ≫= fun col =>
               write c' {| x := px; y := py |} col)
        (Some c) (seqZ 0 (width (size c))).

Definition paint_complex (c : Canvas) (xRange yRange : double)
    : option Canvas :=
  foldl (fun acc py =>
           acc ≫= fun c' =>
             paint_row xRange
                       (plane_coord (height (size c)) yRange py) py c')
        (Some c) (seqZ 0 (height (size c))).

End WithFunction.

End Normalized.

(** ** What the pixels of a canvas show *)

Module Pixels.
Import MachineInt Canvas.

(** Pixel [p] of the canvas shows [color]: its three bytes stand at the
    offset of the pixel, red first. *)
Definition holds (c : Canvas) (p : Point) (color : RGBColor) : Prop :=
  pixels c !! Z.to_nat (offset c p) = Some (red color)
  /\ pixels c !! (Z.to_nat (offset c p) + 1)%nat = Some (green color)
  /\ pixels c !! (Z.to_nat (offset c p) + 2)%nat = Some (blue color).

(** A well-formed canvas of at most [INT_MAX] bytes: the subscripts of
    [write] do not overflow. *)
Definition fits_int (c : Canvas) : Prop :=
  well_formed c /\ width (size c) * height (size c) * 3 <= int_max.

End Pixels.

(** ** The byte variant: HSV fields are [uint8_t], [hsv2rgb] in integers *)

Module Bytes.
Import MachineInt IEEE Canvas Sampler Switch.

(** The values a [uint8_t] holds, and the conversion of an [int] to
    [unsigned char]. *)
Definition is_byte (z : Z) : Prop := 0 <= z <= 255.
Definition to_uchar (z : Z) : Z := z mod 256.

Record HSVColor := { hue : Z; saturation : Z; value : Z }.

Definition byte_color (hsv : HSVColor) : Prop :=
  is_byte (hue hsv) /\ is_byte (saturation hsv) /\ is_byte (value hsv).

(** The locals of [hsv2rgb].  The operands are promoted to [int]; each
    assignment converts the [int] result to [unsigned char]. *)
Definition region (hsv : HSVColor) : Z := to_uchar (hue hsv ÷ 43).

Definition remainder (hsv : HSVColor) : Z :=
  to_uchar (int_mul (hue hsv - int_mul (region hsv) 43) 6).

Definition p (hsv : HSVColor) : Z :=
  to_uchar (Z.shiftr (int_mul (value hsv) (255 - saturation hsv)) 8).

Definition q (hsv : HSVColor) : Z :=
  to_uchar
    (Z.shiftr
       (int_mul (value hsv)
                (255 - Z.shiftr (int_mul (saturation hsv) (remainder hsv)) 8))
       8).

Definition t (hsv : HSVColor) : Z :=
  to_uchar
    (Z.shiftr
       (int_mul (value hsv)
                (255 - Z.shiftr (int_mul (saturation hsv)
                                         (255 - remainder hsv)) 8))
       8).

Definition hsv2rgb (hsv : HSVColor) : RGBColor :=
  let v := value hsv in
  if saturation hsv =? 0 then {| red := v; green := v; blue := v |}
  else
    match switch (region hsv) with
    | Case0 => {| red := v; green := t hsv; blue := p hsv |}
    | Case1 => {| red := q hsv; green := v; blue := p hsv |}
    | Case2 => {| red := p hsv; green := v; blue := t hsv |}
    | Case3 => {| red := p hsv; green := q hsv; blue := v |}
    | Case4 => {| red := t hsv; green := p hsv; blue := v |}
    | Default => {| red := v; green := p hsv; blue := q hsv |}
    end.

End Bytes.

(** ** [domain_value<T, Min, Max>] at [T = double] *)

Module DomainValue.
Import IEEE.

Section Domain.
Context (Min Max : double).

(** [clamped]: [std::clamp(v, Min, Max)]. *)
Definition clamped (v : double) : double := clamp v Min Max.

(** The converting constructor and [operator=(T)] store [clamped(v)]. *)
Definition make (v : double) : double := clamped v.

(** The stored value is in the domain. *)
Definition in_domain (v : double) : bool := dle Min v && dle v Max.

(** [operator+], [operator-], [operator*] and [operator/]: the result of
    the operation on the stored values, through the constructor.
    [operator%] has no instance at [double]. *)
Definition add (a b : double) : double := make (dadd a b).
Definition sub (a b : double) : double := make (dsub a b).
Definition mul (a b : double) : double := make (dmul a b).
Definition div (a b : double) : double := make (ddiv a b).

End Domain.

End DomainValue.

(** ** Channels and casts of the floating-point [hsv2rgb] *)

Module Channels.
Import IEEE Real754.

(** A zero of either sign, or a positive float of at most 1. *)
Definition unit (d : double) : Prop :=
  (exists b, d = S754_zero b) \/ nonneg_le 1 d.

(** [static_cast<unsigned char>(d)] is defined: [d] truncates to an
    integer that an [unsigned char] holds, and the cast returns it. *)
Definition cast_defined (d : double) : Prop :=
  exists k, Ztrunc d = Some k /\ 0 <= k <= 255 /\ uchar_of_double d = k.

(** A property of the three channels [r], [g] and [b]. *)
Definition all3 (P : double -> Prop) (c : double * double * double) : Prop :=
  P (fst (fst c)) /\ P (snd (fst c)) /\ P (snd c).

(** The fields of the normalized [HSVColor] in the [HSVColor] of
    [main.cpp]. *)
Definition to_degrees (hsv : Normalized.HSVColor) : Degrees.HSVColor :=
  {| Degrees.hue := Normalized.hue hsv;
     Degrees.saturation := Normalized.saturation hsv;
     Degrees.value := Normalized.value hsv |}.

End Channels.

(** ** The byte variant: [color] and [paint_complex] *)

Module BytePaint.
Import MachineInt IEEE Canvas Sampler Bytes.

(** The operand of the cast in [(uint8_t) clamp(v * 255.0, 0.0, 255.0)],
    and the byte the cast gives. *)
Definition byte_arg (v : double) : double := clamp (dmul v d255) d0 d255.
Definition to_byte (v : double) : Z := uchar_of_double (byte_arg v).

Section WithFunction.
Context (L : libm) (f : complex -> complex).

(** [gridlines] of the byte variant returns the product as it is. *)
Definition gridlines (x y : double) : double := gridlines_value L f x y.

Definition angle (x y : double) : double := turn L x y.

Definition color_hsv (x y : double) : HSVColor :=
  {| hue := to_byte (angle (real_f f (z L x y)) (imaginary_f f (z L x y)));
     saturation := to_byte (magnitude_shading L f x y);
     value := to_byte (gridlines x y) |}.

Definition color (x y : double) : RGBColor := hsv2rgb (color_hsv x y).

(** [((double(px) / w) - 0.5) * xRange] *)
Definition plane_coord (n : Z) (range : double) (px : Z) : double :=
  let w := of_int n in
  dmul (dsub (ddiv (of_int px) w) d0_5) range.

Definition paint_row (xRange : double) (yf : double) (py : Z)
    (c : Canvas) : option Canvas :=
  foldl (fun acc px =>
           acc ≫= fun c' =>
             write c' {| x := px; y := py |}
                   (color (plane_coord (width (size c)) xRange px) yf))
        (Some c) (seqZ 0 (width (size c))).

Definition paint_complex (c : Canvas) (xRange yRange : double)
    : option Canvas :=
  foldl (fun acc py =>
           acc ≫= fun c' =>
             paint_row xRange
                       (plane_coord (height (size c)) yRange py) py c')
        (Some c) (seqZ 0 (height (size c))).

End WithFunction.

End BytePaint.

(** * Properties *)

(** ** Machine integers *)

Module MachineIntFacts.
Import MachineInt.

Lemma wrap_int_id z : is_int z -> wrap_int z = z.
Proof.
  unfold is_int, int_min, int_max, wrap_int. intros Hz.
  rewrite Z.mod_small; lia.
Qed.

Lemma to_size_t_id z : 0 <= z < 2 ^ 64 -> to_size_t z = z.
Proof. intros Hz. unfold to_size_t. now rewrite Z.mod_small. Qed.

Lemma size_mul_id a b : 0 <= a * b < 2 ^ 64 -> size_mul a b = a * b.
Proof. intros Hz. unfold size_mul. now rewrite Z.mod_small. Qed.

End MachineIntFacts.

(** ** The canvas *)

Module CanvasFacts.
Import MachineInt MachineIntFacts Canvas.

Lemma in_bounds_spec c p :
  in_bounds c p = true
  <-> 0 <= x p < width (size c) /\ 0 <= y p < height (size c).
Proof. unfold in_bounds. rewrite !andb_true_iff. lia. Qed.

(** The buffer of a fresh canvas, for sizes an [int] can hold. *)
Lemma new_length s :
  is_int (width s) -> is_int (height s) -> 0 < width s -> 0 < height s ->
  Z.of_nat (length (pixels (new s))) = width s * height s * 3.
Proof.
  unfold is_int, int_min, int_max. intros Hw Hh Hw0 Hh0.
  unfold new, area; cbn [pixels]. rewrite length_replicate.
  assert (0 <= width s * height s <= (2 ^ 31 - 1) * (2 ^ 31 - 1)) by nia.
  rewrite !to_size_t_id by lia.
  rewrite (size_mul_id (width s)) by lia.
  rewrite size_mul_id by lia. lia.
Qed.

(** Without overflow of the [int] subscript, it is the offset of the
    pixel. *)
Lemma pixel_index_offset c p :
  is_int (width (size c)) ->
  in_bounds c p = true ->
  width (size c) * height (size c) * 3 <= int_max ->
  pixel_index c p = offset c p /\ 0 <= offset c p
  /\ offset c p + 2 < width (size c) * height (size c) * 3.
Proof.
  rewrite in_bounds_spec. unfold is_int, int_min, int_max.
  intros Hw [Hx Hy] Hsz. unfold pixel_index, offset, int_add, int_mul.
  assert (Hyw : 0 <= y p * width (size c)
                <= (height (size c) - 1) * width (size c)) by nia.
  rewrite (wrap_int_id (y p * _)) by (unfold is_int, int_min, int_max; nia).
  rewrite (wrap_int_id (y p * _ * 3)) by (unfold is_int, int_min, int_max; nia).
  rewrite (wrap_int_id (x p * 3)) by (unfold is_int, int_min, int_max; nia).
  rewrite wrap_int_id by (unfold is_int, int_min, int_max; nia).
  nia.
Qed.

Lemma insert3_stored (l : list Z) n color :
  (n + 2 < length l)%nat ->
  stored n color l
    (<[(n + 2)%nat := blue color]>
       (<[(n + 1)%nat := green color]> (<[n := red color]> l))).
Proof.
  intros Hn. unfold stored. rewrite !length_insert.
  split; [reflexivity|].
  split.
  { rewrite !list_lookup_insert_ne by lia.
    apply list_lookup_insert_eq. lia. }
  split.
  { rewrite list_lookup_insert_ne by lia.
    apply list_lookup_insert_eq. rewrite length_insert. lia. }
  split.
  { apply list_lookup_insert_eq. rewrite !length_insert. lia. }
  intros j H0 H1 H2. now rewrite !list_lookup_insert_ne by lia.
Qed.

(** [write] on canvases whose byte count fits an [int]. *)
Lemma write_in_bounds c p color :
  well_formed c ->
  in_bounds c p = true ->
  width (size c) * height (size c) * 3 <= int_max ->
  exists c',
    write c p color = Some c' /\ size c' = size c
    /\ stored (Z.to_nat (offset c p)) color (pixels c) (pixels c').
Proof.
  intros (Hw & Hh & Hlen) Hin Hsz.
  destruct (pixel_index_offset c p Hw Hin Hsz) as (Hidx & Hlo & Hhi).
  unfold write. rewrite Hin; cbn [negb]. rewrite Hidx.
  rewrite to_size_t_id by (unfold int_max in Hsz; lia).
  rewrite Hlen.
  destruct (Z.ltb_spec (offset c p + 2) (width (size c) * height (size c) * 3))
    as [_|Hge]; [|lia].
  eexists. split; [reflexivity|]. split; [reflexivity|].
  cbn [pixels]. apply insert3_stored. lia.
Qed.

(** The subscript of the first pixel of the last row of a 30000 x 30000
    canvas. *)
Lemma pixel_index_overflow c :
  size c = {| width := 30000; height := 30000 |} ->
  pixel_index c {| x := 0; y := 29999 |} = -1595057296.
Proof. intros Hs. unfold pixel_index. rewrite Hs. reflexivity. Qed.

Lemma write_undefined c color :
  size c = {| width := 30000; height := 30000 |} ->
  Z.of_nat (length (pixels c)) < 2 ^ 63 ->
  write c {| x := 0; y := 29999 |} color = None.
Proof.
  intros Hs Hlen. unfold write.
  replace (in_bounds c {| x := 0; y := 29999 |}) with true
    by (unfold in_bounds; rewrite Hs; reflexivity).
  cbn [negb]. rewrite (pixel_index_overflow c Hs).
  change (to_size_t (-1595057296)) with 18446744072114494320.
  destruct (Z.ltb_spec (18446744072114494320 + 2)
              (Z.of_nat (length (pixels c)))) as [Hlt|_]; [lia|reflexivity].
Qed.

(** C3, on a canvas of 30000 x 30000 pixels: the subscript
    [p.y * size.width * 3 + p.x * 3] is computed in [int], 29999 * 30000 * 3
    does not fit, and the write to the in-bounds pixel (0, 29999) leaves
    the buffer instead of storing three bytes at offset 2699910000. *)
Theorem write_large_canvas color :
  let c := new {| width := 30000; height := 30000 |} in
  let p := {| x := 0; y := 29999 |} in
  in_bounds c p = true
  /\ offset c p = 2699910000
  /\ Z.of_nat (length (pixels c)) = 2700000000
  /\ write c p color = None.
Proof.
  intros c p.
  assert (Hlen : Z.of_nat (length (pixels c)) = 2700000000).
  { unfold c. rewrite new_length; cbn [width height];
      unfold is_int, int_min, int_max; lia. }
  split; [reflexivity|]. split; [reflexivity|]. split; [exact Hlen|].
  apply write_undefined; [reflexivity|lia].
Qed.

(** C4: a write outside the canvas returns at the guard: no error, and
    the canvas, with every byte of its buffer, is the one given. *)
Theorem write_out_of_bounds c p color :
  x p < 0 \/ width (size c) <= x p \/ y p < 0 \/ height (size c) <= y p ->
  write c p color = Some c.
Proof.
  intros Hout. unfold write.
  destruct (in_bounds c p) eqn:Hin; [|reflexivity].
  apply in_bounds_spec in Hin. lia.
Qed.

Lemma write_out_of_bounds_witness :
  write (new {| width := 2; height := 2 |}) {| x := 2; y := 0 |}
        {| red := 1; green := 2; blue := 3 |}
  = Some (new {| width := 2; height := 2 |}).
Proof.
  apply write_out_of_bounds. cbn. lia.
Defined.

(** C5: a canvas constructed for a size with positive width and height
    owns a buffer of exactly [W * H * 3] bytes, each of them 255. *)
Theorem new_canvas_white s :
  is_int (width s) -> is_int (height s) -> 0 < width s -> 0 < height s ->
  size (new s) = s
  /\ Z.of_nat (length (pixels (new s))) = width s * height s * 3
  /\ Forall (fun b => b = 255) (pixels (new s)).
Proof.
  intros Hw Hh Hw0 Hh0. split; [reflexivity|].
  split; [now apply new_length|].
  unfold new; cbn [pixels]. apply Forall_replicate. reflexivity.
Qed.

Lemma new_canvas_white_witness :
  size (new {| width := 3; height := 2 |}) = {| width := 3; height := 2 |}
  /\ Z.of_nat (length (pixels (new {| width := 3; height := 2 |}))) = 3 * 2 * 3
  /\ Forall (fun b => b = 255) (pixels (new {| width := 3; height := 2 |})).
Proof.
  apply (new_canvas_white {| width := 3; height := 2 |});
    unfold is_int, int_min, int_max; cbn; lia.
Defined.

End CanvasFacts.

(** ** The pixel loop of [main.cpp] *)

Module PaintFacts.
Import MachineInt IEEE Canvas CanvasFacts.

Lemma write_reached c0 c p color :
  well_formed c0 ->
  width (size c0) * height (size c0) * 3 <= int_max ->
  size c = size c0 -> length (pixels c) = length (pixels c0) ->
  0 <= x p < width (size c0) -> 0 <= y p < height (size c0) ->
  reached c0 (write c p color).
Proof.
  intros (Hw & Hh & Hlen) Hsz Hs Hl Hx Hy.
  destruct (write_in_bounds c p color) as (c' & Hwr & Hs' & Hst).
  - unfold well_formed. rewrite Hs, Hl. auto.
  - apply in_bounds_spec. rewrite Hs. auto.
  - rewrite Hs. exact Hsz.
  - exists c'. split; [exact Hwr|]. split; [congruence|].
    destruct Hst as [Hst _]. congruence.
Qed.

Section Completes.
Context (L : libm) (f : complex -> complex).

Lemma paint_row_reached c0 xRange yf py c :
  well_formed c0 ->
  width (size c0) * height (size c0) * 3 <= int_max ->
  0 <= py < height (size c0) ->
  size c = size c0 -> length (pixels c) = length (pixels c0) ->
  reached c0 (Degrees.paint_row L f xRange yf py c).
Proof.
  intros Hwf Hsz Hpy Hs Hl. unfold Degrees.paint_row. rewrite Hs.
  assert (Hacc : reached c0 (Some c)) by (now exists c).
  assert (Hin : forall px, px ∈ seqZ 0 (width (size c0)) ->
                           0 <= px < width (size c0)).
  { intros px Hpx. apply elem_of_seqZ in Hpx. lia. }
  revert Hacc Hin. generalize (Some c). clear c Hs Hl.
  induction (seqZ 0 (width (size c0))) as [|px l IH]; intros acc Hacc Hin.
  - exact Hacc.
  - cbn [foldl]. apply IH.
    + destruct Hacc as (c & -> & Hs & Hl). cbn.
      apply write_reached; cbn [x y]; try assumption.
      apply Hin. left.
    + intros px' Hpx'. apply Hin. now right.
Qed.

Lemma paint_complex_reached c xRange yRange :
  well_formed c ->
  width (size c) * height (size c) * 3 <= int_max ->
  reached c (Degrees.paint_complex L f c xRange yRange).
Proof.
  intros Hwf Hsz. unfold Degrees.paint_complex.
  assert (Hacc : reached c (Some c)) by (now exists c).
  assert (Hin : forall py, py ∈ seqZ 0 (height (size c)) ->
                           0 <= py < height (size c)).
  { intros py Hpy. apply elem_of_seqZ in Hpy. lia. }
  revert Hacc Hin. generalize (Some c).
  induction (seqZ 0 (height (size c))) as [|py l IH]; intros acc Hacc Hin.
  - exact Hacc.
  - cbn [foldl]. apply IH.
    + destruct Hacc as (c' & -> & Hs & Hl). cbn.
      apply paint_row_reached; try assumption. apply Hin. left.
    + intros py' Hpy'. apply Hin. now right.
Qed.

End Completes.

End PaintFacts.

(** ** Rounding to nearest in binary64

    The operations of [SpecFloat] round the exact result to the grid of
    binary64 and are monotone against representable bounds. *)

Module Real754Facts.
Import IEEE Real754.

Lemma bpow_pos e : (0 < bpow e)%R.
Proof. unfold bpow. apply powerRZ_lt. lra. Qed.

Lemma bpow_add a b : bpow (a + b) = (bpow a * bpow b)%R.
Proof. unfold bpow. apply powerRZ_add. lra. Qed.

Lemma bpow_0 : bpow 0 = 1%R.
Proof. reflexivity. Qed.

Lemma bpow_1 : bpow 1 = 2%R.
Proof. unfold bpow. simpl. lra. Qed.

Lemma bpow_IZR k : 0 <= k -> bpow k = IZR (2 ^ k).
Proof.
  intros Hk. unfold bpow.
  rewrite <- (Z2Nat.id k Hk) at 1. rewrite <- pow_powerRZ.
  rewrite <- (Z2Nat.id k Hk) at 2. rewrite <- Zpower_nat_Z.
  induction (Z.to_nat k) as [|n IH].
  - reflexivity.
  - rewrite Zpower_nat_succ_r, mult_IZR, <- IH. simpl. lra.
Qed.

Lemma bpow_le a b : a <= b -> (bpow a <= bpow b)%R.
Proof.
  intros Hab. replace b with (a + (b - a)) by lia.
  rewrite bpow_add, (bpow_IZR (b - a)) by lia.
  assert (1 <= 2 ^ (b - a)) by (pose proof (Z.pow_pos_nonneg 2 (b - a)); lia).
  apply IZR_le in H. pose proof (bpow_pos a). nra.
Qed.

Lemma bpow_lt a b : a < b -> (bpow a < bpow b)%R.
Proof.
  intros Hab. replace b with (a + (b - a)) by lia.
  rewrite bpow_add, (bpow_IZR (b - a)) by lia.
  assert (2 <= 2 ^ (b - a)).
  { replace (b - a) with (1 + (b - a - 1)) by lia.
    rewrite Z.pow_add_r by lia.
    pose proof (Z.pow_pos_nonneg 2 (b - a - 1)). lia. }
  apply IZR_le in H. pose proof (bpow_pos a). nra.
Qed.

Lemma fexp64_eq e : fexp64 e = Z.max (e - 53) (-1074).
Proof. reflexivity. Qed.

Lemma digits2_pos_bounds p :
  2 ^ (Zpos (digits2_pos p) - 1) <= Zpos p < 2 ^ Zpos (digits2_pos p).
Proof.
  induction p as [p IH|p IH|]; cbn [digits2_pos].
  - rewrite Pos2Z.inj_succ. replace (Z.succ (Zpos (digits2_pos p)) - 1)
      with (Z.succ (Zpos (digits2_pos p) - 1)) by lia.
    rewrite !Z.pow_succ_r by lia. lia.
  - rewrite Pos2Z.inj_succ. replace (Z.succ (Zpos (digits2_pos p)) - 1)
      with (Z.succ (Zpos (digits2_pos p) - 1)) by lia.
    rewrite !Z.pow_succ_r by lia. lia.
  - cbn. lia.
Qed.

Lemma Zdigits2_pos_bounds m :
  0 < m -> 0 < Zdigits2 m /\ 2 ^ (Zdigits2 m - 1) <= m < 2 ^ Zdigits2 m.
Proof.
  destruct m as [|p|p]; try lia. intros _. cbn [Zdigits2].
  split; [lia|apply digits2_pos_bounds].
Qed.

Lemma Zdigits2_unique m k :
  0 < k -> 2 ^ (k - 1) <= m < 2 ^ k -> Zdigits2 m = k.
Proof.
  intros Hk Hm.
  assert (Hm0 : 0 < m) by (pose proof (Z.pow_pos_nonneg 2 (k - 1)); lia).
  destruct (Zdigits2_pos_bounds m Hm0) as [Hd Hb].
  destruct (Z.lt_trichotomy (Zdigits2 m) k) as [Hlt|[Heq|Hgt]]; [|exact Heq|].
  - pose proof (Z.pow_le_mono_r 2 (Zdigits2 m) (k - 1)). lia.
  - pose proof (Z.pow_le_mono_r 2 k (Zdigits2 m - 1)). lia.
Qed.

Lemma Zdigits2_nonneg m : 0 <= m -> 0 <= Zdigits2 m.
Proof. destruct m; cbn; lia. Qed.

(** Real bounds of a positive mantissa at an exponent. *)
Lemma F2R_digits m e :
  0 < m ->
  (bpow (Zdigits2 m - 1 + e) <= F2R m e < bpow (Zdigits2 m + e))%R.
Proof.
  intros Hm. destruct (Zdigits2_pos_bounds m Hm) as [Hd [Hlo Hhi]].
  unfold F2R. rewrite !bpow_add.
  rewrite (bpow_IZR (Zdigits2 m - 1)), (bpow_IZR (Zdigits2 m)) by lia.
  apply IZR_le in Hlo. apply IZR_lt in Hhi.
  pose proof (bpow_pos e). split; nra.
Qed.

Lemma F2R_scale m e k : 0 <= k -> F2R m (e + k) = F2R (m * 2 ^ k) e.
Proof.
  intros Hk. unfold F2R. rewrite mult_IZR, <- bpow_IZR by lia.
  rewrite Z.add_comm, bpow_add. lra.
Qed.

Lemma F2R_le m1 m2 e : m1 <= m2 -> (F2R m1 e <= F2R m2 e)%R.
Proof.
  intros H. apply IZR_le in H. unfold F2R. pose proof (bpow_pos e). nra.
Qed.

Lemma F2R_lt_inv m1 m2 e : (F2R m1 e < F2R m2 e)%R -> m1 < m2.
Proof.
  intros H. apply lt_IZR. unfold F2R in H. pose proof (bpow_pos e). nra.
Qed.

Lemma F2R_le_inv m1 m2 e : (F2R m1 e <= F2R m2 e)%R -> m1 <= m2.
Proof.
  intros H. apply le_IZR. unfold F2R in H. pose proof (bpow_pos e). nra.
Qed.

(** No canonical number lies strictly between two neighbours of the
    grid. *)
Lemma grid_gap m e mb eb :
  grid m e -> 0 < mb -> eb = fexp64 (Zdigits2 mb + eb) ->
  (F2R mb eb <= F2R m e)%R \/ (F2R (m + 1) e <= F2R mb eb)%R.
Proof.
  intros [Hm He] Hmb Heb.
  destruct (Z_le_gt_dec e eb) as [Hle|Hgt].
  - replace eb with (e + (eb - e)) by lia. rewrite F2R_scale by lia.
    destruct (Z_le_gt_dec (mb * 2 ^ (eb - e)) m) as [H|H].
    + left. now apply F2R_le.
    + right. apply F2R_le. lia.
  - left. rewrite fexp64_eq in He, Heb.
    assert (Hm0 : 0 < m).
    { destruct (Z.eq_dec m 0) as [->|]; [|lia]. cbn [Zdigits2] in He. lia. }
    destruct (F2R_digits m e Hm0) as [Hlo _].
    destruct (F2R_digits mb eb Hmb) as [_ Hhi].
    assert (Hd : Zdigits2 mb + eb <= Zdigits2 m - 1 + e) by lia.
    apply bpow_le in Hd. lra.
Qed.

Lemma inbetween_bounds x mrs :
  inbetween x mrs -> (IZR (shr_m mrs) <= x < IZR (shr_m mrs) + 1)%R.
Proof. unfold inbetween. destruct (shr_r mrs), (shr_s mrs); lra. Qed.

Lemma inbetween_exact m : inbetween (IZR m) (shr_record_of_loc m loc_Exact).
Proof. reflexivity. Qed.

Lemma shr_1_inbetween x mrs :
  0 <= shr_m mrs -> inbetween x mrs ->
  inbetween (x / 2) (shr_1 mrs) /\ 0 <= shr_m (shr_1 mrs).
Proof.
  destruct mrs as [m r s]. cbn [shr_m]. intros Hm.
  destruct m as [|p|p]; [| |lia].
  - unfold inbetween; destruct r, s; cbn; intros H; split; try lia; lra.
  - destruct p as [p|p|]; unfold inbetween; cbn [shr_1 shr_m shr_r shr_s orb].
    + rewrite (Pos2Z.inj_xI p), plus_IZR, mult_IZR.
      destruct r, s; cbn [orb]; intros H; split; try lia; lra.
    + rewrite (Pos2Z.inj_xO p), mult_IZR.
      destruct r, s; cbn [orb]; intros H; split; try lia; lra.
    + destruct r, s; cbn [orb]; intros H; split; try lia; lra.
Qed.

Lemma iter_shr_1_inbetween p : forall x mrs,
  0 <= shr_m mrs -> inbetween x mrs ->
  inbetween (x * bpow (- Zpos p)) (SpecFloat.iter_pos shr_1 p mrs)
  /\ 0 <= shr_m (SpecFloat.iter_pos shr_1 p mrs).
Proof.
  induction p as [p IH|p IH|]; intros x mrs Hm Hx; cbn [SpecFloat.iter_pos].
  - destruct (shr_1_inbetween x mrs Hm Hx) as [H1 Hm1].
    destruct (IH _ _ Hm1 H1) as [H2 Hm2].
    destruct (IH _ _ Hm2 H2) as [H3 Hm3].
    split; [|exact Hm3].
    replace (x * bpow (- Zpos p~1))%R
      with (x / 2 * bpow (- Zpos p) * bpow (- Zpos p))%R; [exact H3|].
    replace (- Zpos p~1) with (- Zpos p + - Zpos p + -1) by lia.
    rewrite !bpow_add. change (bpow (-1)) with (/ (2 * 1))%R. lra.
  - destruct (IH _ _ Hm Hx) as [H2 Hm2].
    destruct (IH _ _ Hm2 H2) as [H3 Hm3].
    split; [|exact Hm3].
    replace (x * bpow (- Zpos p~0))%R
      with (x * bpow (- Zpos p) * bpow (- Zpos p))%R; [exact H3|].
    replace (- Zpos p~0) with (- Zpos p + - Zpos p) by lia.
    rewrite !bpow_add. lra.
  - destruct (shr_1_inbetween x mrs Hm Hx) as [H1 Hm1].
    split; [|exact Hm1].
    replace (x * bpow (- (1)))%R with (x / 2)%R; [exact H1|].
    change (bpow (- (1))) with (/ (2 * 1))%R. lra.
Qed.

(** [shr] by a shift that is not negative. *)
Lemma shr_inbetween x mrs e n :
  0 <= n -> 0 <= shr_m mrs -> inbetween x mrs ->
  snd (shr mrs e n) = e + n
  /\ inbetween (x * bpow (- n)) (fst (shr mrs e n))
  /\ 0 <= shr_m (fst (shr mrs e n)).
Proof.
  intros Hn Hm Hx. destruct n as [|p|p]; [| |lia]; cbn [shr fst snd].
  - split; [lia|]. split; [|exact Hm].
    change (bpow (- 0)) with 1%R. now rewrite Rmult_1_r.
  - split; [reflexivity|]. now apply iter_shr_1_inbetween.
Qed.

Lemma shr_m_of_loc m l : shr_m (shr_record_of_loc m l) = m.
Proof. destruct l as [|[]]; reflexivity. Qed.

(** Dropping the low bits that the format does not keep leaves a mantissa
    on the grid. *)
Lemma shift_grid m e n m' :
  0 <= m -> n = fexp64 (Zdigits2 m + e) - e -> 0 <= n -> 0 <= m' ->
  m' * 2 ^ n <= m < (m' + 1) * 2 ^ n ->
  grid m' (e + n).
Proof.
  intros Hm Hn Hn0 Hm' Hdiv. rewrite fexp64_eq in Hn.
  pose proof (Z.pow_pos_nonneg 2 n ltac:(lia) Hn0) as Hpn.
  split; [exact Hm'|]. rewrite fexp64_eq.
  destruct (Z.eq_dec m 0) as [->|Hm0].
  - assert (m' = 0) by nia. subst m'. cbn [Zdigits2] in *. lia.
  - destruct (Zdigits2_pos_bounds m ltac:(lia)) as [Hd [Hlo Hhi]].
    destruct (Z_lt_le_dec n (Zdigits2 m)) as [Hlt|Hge].
    + assert (Hm'd : Zdigits2 m' = Zdigits2 m - n).
      { apply Zdigits2_unique; [lia|].
        assert (E1 : 2 ^ Zdigits2 m = 2 ^ (Zdigits2 m - n) * 2 ^ n)
          by (rewrite <- Z.pow_add_r by lia; f_equal; lia).
        assert (E2 : 2 ^ (Zdigits2 m - 1)
                     = 2 ^ (Zdigits2 m - n - 1) * 2 ^ n)
          by (rewrite <- Z.pow_add_r by lia; f_equal; lia).
        split; nia. }
      rewrite Hm'd. lia.
    + pose proof (Z.pow_le_mono_r 2 (Zdigits2 m) n ltac:(lia) Hge).
      assert (m' = 0) by nia. subst m'. cbn [Zdigits2]. lia.
Qed.

Lemma shr_fexp_grid m e l x :
  0 <= m -> e <= fexp64 (Zdigits2 m + e) ->
  inbetween x (shr_record_of_loc m l) ->
  let r := shr_fexp prec emax m e l in
  snd r = fexp64 (Zdigits2 m + e)
  /\ inbetween (x * bpow (e - snd r)) (fst r)
  /\ grid (shr_m (fst r)) (snd r).
Proof.
  intros Hm He Hx r. subst r. unfold shr_fexp. fold (fexp64 (Zdigits2 m + e)).
  set (n := fexp64 (Zdigits2 m + e) - e).
  assert (Hn : 0 <= n) by (unfold n; lia).
  destruct (shr_inbetween x (shr_record_of_loc m l) e n Hn
              ltac:(rewrite shr_m_of_loc; exact Hm) Hx) as (He' & Hin & Hm').
  rewrite He'. split; [unfold n; lia|].
  replace (e - (e + n)) with (- n) by lia. split; [exact Hin|].
  apply (shift_grid m e n); try assumption; [reflexivity|].
  apply inbetween_bounds in Hx. rewrite shr_m_of_loc in Hx.
  apply inbetween_bounds in Hin.
  set (m' := shr_m (fst (shr (shr_record_of_loc m l) e n))) in *.
  assert (Hb : (bpow (- n) * IZR (2 ^ n) = 1)%R).
  { rewrite <- bpow_IZR by lia. rewrite <- bpow_add.
    replace (- n + n) with 0 by lia. reflexivity. }
  assert (Hp : (0 < IZR (2 ^ n))%R)
    by (apply IZR_lt, Z.pow_pos_nonneg; lia).
  assert (Hxy : x = (x * bpow (- n) * IZR (2 ^ n))%R)
    by (rewrite Rmult_assoc, Hb; lra).
  assert (H1 : (IZR m' * IZR (2 ^ n) <= x)%R).
  { rewrite Hxy. apply Rmult_le_compat_r; lra. }
  assert (H2 : (x < (IZR m' + 1) * IZR (2 ^ n))%R).
  { rewrite Hxy at 1. apply Rmult_lt_compat_r; lra. }
  split.
  - apply Z.lt_succ_r, lt_IZR. unfold Z.succ. rewrite mult_IZR, plus_IZR. lra.
  - apply lt_IZR. rewrite mult_IZR, plus_IZR. lra.
Qed.

Lemma round_nearest_even_bounds mrs y :
  inbetween y mrs ->
  shr_m mrs <= round_nearest_even (shr_m mrs) (loc_of_shr_record mrs)
            <= shr_m mrs + 1
  /\ (y = IZR (shr_m mrs) ->
      round_nearest_even (shr_m mrs) (loc_of_shr_record mrs) = shr_m mrs).
Proof.
  destruct mrs as [m r s]. unfold inbetween. cbn [shr_m shr_r shr_s].
  destruct r, s; cbn [loc_of_shr_record round_nearest_even]; intros Hy.
  - split; [lia|]. lra.
  - split; [destruct (Z.even m); lia|]. lra.
  - split; [lia|]. reflexivity.
  - split; [lia|]. reflexivity.
Qed.

(** The second shift of [binary_round_aux]: a rounded mantissa of the grid
    stays where it is, or is the power of two that opens the next binade
    and is halved exactly. *)
Lemma shr_fexp_rounded m e m' :
  grid m e -> m' = m \/ m' = m + 1 ->
  exists m3 e3,
    shr_fexp prec emax m' e loc_Exact
    = ({| shr_m := m3; shr_r := false; shr_s := false |}, e3)
    /\ grid m3 e3 /\ F2R m3 e3 = F2R m' e.
Proof.
  intros [Hm He] Hm'. unfold shr_fexp. fold (fexp64 (Zdigits2 m' + e)).
  cbn [shr_record_of_loc].
  assert (Hm'0 : 0 <= m') by lia.
  assert (Hsame : fexp64 (Zdigits2 m' + e) - e = 0 ->
    exists m3 e3,
      shr {| shr_m := m'; shr_r := false; shr_s := false |} e
          (fexp64 (Zdigits2 m' + e) - e)
      = ({| shr_m := m3; shr_r := false; shr_s := false |}, e3)
      /\ grid m3 e3 /\ F2R m3 e3 = F2R m' e).
  { intros Hn. rewrite Hn. exists m', e. cbn [shr]. split; [reflexivity|].
    split; [|reflexivity]. split; lia. }
  destruct Hm' as [->| ->]; [apply Hsame; lia|].
  destruct (Z.eq_dec m 0) as [->|Hm0].
  { apply Hsame. change (Zdigits2 (0 + 1)) with 1.
    change (Zdigits2 0) with 0 in He. rewrite fexp64_eq in He |- *. lia. }
  destruct (Zdigits2_pos_bounds m ltac:(lia)) as [Hd [Hlo Hhi]].
  destruct (Z.eq_dec (m + 1) (2 ^ Zdigits2 m)) as [Htop|Hin].
  - assert (Hd1 : Zdigits2 (m + 1) = Zdigits2 m + 1).
    { apply Zdigits2_unique; [lia|].
      replace (Zdigits2 m + 1 - 1) with (Zdigits2 m) by lia.
      rewrite Z.pow_add_r by lia. lia. }
    rewrite fexp64_eq in He.
    destruct (Z.eq_dec (fexp64 (Zdigits2 (m + 1) + e) - e) 0) as [H0|H1].
    { now apply Hsame. }
    assert (Hn : fexp64 (Zdigits2 (m + 1) + e) - e = 1)
      by (rewrite fexp64_eq, Hd1 in *; lia).
    rewrite Hn. cbn [shr SpecFloat.iter_pos].
    assert (Hhalf : m + 1 = 2 * 2 ^ (Zdigits2 m - 1)).
    { rewrite Htop. rewrite <- Z.pow_succ_r by lia. f_equal. lia. }
    pose proof (Z.pow_pos_nonneg 2 (Zdigits2 m - 1) ltac:(lia) ltac:(lia)) as Hk.
    destruct (2 ^ (Zdigits2 m - 1)) as [|q|q] eqn:Hq; [lia| |lia].
    rewrite Hhalf. cbn [Z.mul Pos.mul shr_1 orb].
    exists (Zpos q), (e + 1). split; [reflexivity|].
    assert (Hdq : Zdigits2 (Zpos q) = Zdigits2 m).
    { apply Zdigits2_unique; [lia|]. rewrite <- Hq.
      split; [lia|]. apply Z.pow_lt_mono_r; lia. }
    split.
    + split; [lia|]. rewrite Hdq. rewrite fexp64_eq, Hd1 in Hn.
      rewrite fexp64_eq. lia.
    + rewrite F2R_scale by lia. f_equal. lia.
  - apply Hsame.
    assert (Hd1 : Zdigits2 (m + 1) = Zdigits2 m)
      by (apply Zdigits2_unique; lia).
    rewrite Hd1. lia.
Qed.

(** [binary_round_aux] rounds the number its mantissa, exponent and
    location stand for. *)
Theorem binary_round_aux_correct sx m e l x :
  0 <= m -> e <= fexp64 (Zdigits2 m + e) ->
  inbetween x (shr_record_of_loc m l) ->
  rounded sx (x * bpow e) (binary_round_aux prec emax sx m e l).
Proof.
  intros Hm He Hx.
  pose proof (shr_fexp_grid m e l x Hm He Hx) as H1. cbv zeta in H1.
  unfold binary_round_aux.
  destruct (shr_fexp prec emax m e l) as [mrs1 e1]. cbn [fst snd] in H1.
  destruct H1 as (He1 & Hin1 & Hg1).
  destruct (round_nearest_even_bounds mrs1 _ Hin1) as [Hr Hex].
  set (m2 := round_nearest_even (shr_m mrs1) (loc_of_shr_record mrs1)) in *.
  destruct (shr_fexp_rounded (shr_m mrs1) e1 m2 Hg1) as (m3 & e3 & E2 & Hg3 & Hv).
  { destruct (Z.eq_dec m2 (shr_m mrs1)); [left; assumption|right].
    destruct (Z.even (shr_m mrs1)); lia. }
  rewrite E2. cbn [shr_m]. exists m3, e3.
  split; [reflexivity|]. split; [exact Hg3|].
  intros mb eb Hmb Heb. rewrite Hv.
  assert (HX : (x * bpow e = x * bpow (e - e1) * bpow e1)%R).
  { rewrite Rmult_assoc, <- bpow_add. do 2 f_equal. lia. }
  rewrite HX. apply inbetween_bounds in Hin1.
  pose proof (bpow_pos e1) as Hp.
  assert (Hlow : (F2R (shr_m mrs1) e1 <= x * bpow (e - e1) * bpow e1)%R)
    by (unfold F2R; nra).
  assert (Hupp : (x * bpow (e - e1) * bpow e1 < F2R (shr_m mrs1 + 1) e1)%R)
    by (unfold F2R; rewrite plus_IZR; nra).
  destruct (grid_gap _ _ mb eb Hg1 Hmb Heb) as [Hb|Hb]; split; intros HB.
  - assert (Heq : (x * bpow (e - e1))%R = IZR (shr_m mrs1))
      by (unfold F2R in *; nra).
    rewrite (Hex Heq). lra.
  - pose proof (F2R_le (shr_m mrs1) m2 e1 ltac:(lia)). lra.
  - pose proof (F2R_le m2 (shr_m mrs1 + 1) e1 ltac:(lia)). lra.
  - lra.
Qed.

(** Canonical numbers are ordered by their exponents first. *)
Lemma canonical_exp_lt m1 e1 m2 e2 :
  0 < m1 -> 0 < m2 ->
  e1 = fexp64 (Zdigits2 m1 + e1) -> e2 = fexp64 (Zdigits2 m2 + e2) ->
  e1 < e2 -> (F2R m1 e1 < F2R m2 e2)%R.
Proof.
  intros Hm1 Hm2 He1 He2 Hlt. rewrite fexp64_eq in He1, He2.
  destruct (F2R_digits m1 e1 Hm1) as [_ H1].
  destruct (F2R_digits m2 e2 Hm2) as [H2 _].
  assert (Hd : Zdigits2 m1 + e1 <= Zdigits2 m2 - 1 + e2) by lia.
  apply bpow_le in Hd. lra.
Qed.

Lemma canonical_le_exp m1 e1 m2 e2 :
  0 < m1 -> 0 < m2 ->
  e1 = fexp64 (Zdigits2 m1 + e1) -> e2 = fexp64 (Zdigits2 m2 + e2) ->
  (F2R m1 e1 <= F2R m2 e2)%R -> e1 <= e2.
Proof.
  intros Hm1 Hm2 He1 He2 Hle.
  destruct (Z_le_gt_dec e1 e2) as [H|H]; [exact H|].
  pose proof (canonical_exp_lt m2 e2 m1 e1 Hm2 Hm1 He2 He1 ltac:(lia)). lra.
Qed.

Lemma bounded_spec m e :
  SpecFloat.bounded prec emax m e = true
  <-> e = fexp64 (Zdigits2 (Zpos m) + e) /\ e <= 971.
Proof.
  unfold SpecFloat.bounded, canonical_mantissa. fold (fexp64 (Zpos (digits2_pos m) + e)).
  cbn [Zdigits2]. rewrite andb_true_iff, Z.eqb_eq, Z.leb_le.
  change (emax - prec) with 971. intuition lia.
Qed.

Lemma SF_of_grid_valid s m e :
  grid m e -> valid_binary prec emax (SF_of_grid s m e) = true.
Proof.
  intros [Hm He]. destruct m as [|p|p]; [reflexivity| |lia].
  unfold SF_of_grid. change (emax - prec) with 971.
  destruct (Z.leb_spec e 971); [|reflexivity].
  cbn [valid_binary]. apply bounded_spec. split; assumption.
Qed.

(** A rounded number below a representable one is no infinity. *)
Lemma SF_of_grid_finite s m e mb eb :
  grid m e -> SpecFloat.bounded prec emax mb eb = true ->
  (F2R m e <= F2R (Zpos mb) eb)%R ->
  SF_of_grid s m e
  = match m with Zpos p => S754_finite s p e | _ => S754_zero s end.
Proof.
  intros [Hm He] Hb Hle. apply bounded_spec in Hb. destruct Hb as [Heb Hmax].
  destruct m as [|p|p]; [reflexivity| |lia].
  unfold SF_of_grid. change (emax - prec) with 971.
  pose proof (canonical_le_exp (Zpos p) e (Zpos mb) eb ltac:(lia) ltac:(lia)
                He Heb Hle).
  destruct (Z.leb_spec e 971); [reflexivity|lia].
Qed.

(** *** [shl_align] and [binary_round] *)

Lemma iter_xO m d : Zpos (Pos.iter xO m d) = Zpos m * 2 ^ Zpos d.
Proof.
  induction d as [|d IH] using Pos.peano_ind.
  - cbn. lia.
  - rewrite Pos.iter_succ, Pos2Z.inj_xO, IH, Pos2Z.inj_succ,
      Z.pow_succ_r by lia. lia.
Qed.

Lemma Zdigits2_shift m k :
  0 < m -> 0 <= k -> Zdigits2 (m * 2 ^ k) = Zdigits2 m + k.
Proof.
  intros Hm Hk. destruct (Zdigits2_pos_bounds m Hm) as [Hd [Hlo Hhi]].
  pose proof (Z.pow_pos_nonneg 2 k ltac:(lia) Hk).
  apply Zdigits2_unique; [lia|].
  replace (Zdigits2 m + k - 1) with (Zdigits2 m - 1 + k) by lia.
  rewrite !Z.pow_add_r by lia. nia.
Qed.

Lemma shl_align_spec m e e' :
  let r := shl_align m e e' in
  F2R (Zpos (fst r)) (snd r) = F2R (Zpos m) e
  /\ snd r = Z.min e e'
  /\ Zdigits2 (Zpos (fst r)) + snd r = Zdigits2 (Zpos m) + e
  /\ Zpos (fst r) = Zpos m * 2 ^ (e - snd r).
Proof.
  unfold shl_align. destruct (e' - e) as [|d|d] eqn:Hd; cbn [fst snd].
  - repeat split; try lia. replace (e - e) with 0 by lia. lia.
  - repeat split; try lia. replace (e - e) with 0 by lia. lia.
  - assert (He : e = e' + Zpos d) by lia.
    rewrite iter_xO. replace (e - e') with (Zpos d) by lia.
    split; [|split; [lia|split; [|reflexivity]]].
    + rewrite He. now rewrite F2R_scale by lia.
    + rewrite Zdigits2_shift by lia. lia.
Qed.

Theorem binary_round_correct sx m e :
  rounded sx (F2R (Zpos m) e) (binary_round prec emax sx m e).
Proof.
  unfold binary_round. fold (fexp64 (Zpos (digits2_pos m) + e)).
  pose proof (shl_align_spec m e (fexp64 (Zpos (digits2_pos m) + e))) as H.
  cbv zeta in H.
  destruct (shl_align m e (fexp64 (Zpos (digits2_pos m) + e))) as [mz ez].
  cbn [fst snd] in H. destruct H as (Hv & He & Hd & _).
  destruct (binary_round_aux_correct sx (Zpos mz) ez loc_Exact (IZR (Zpos mz)))
    as (m3 & e3 & E & Hg & Hb).
  - lia.
  - rewrite Hd. cbn [Zdigits2]. lia.
  - apply inbetween_exact.
  - exists m3, e3. split; [exact E|]. split; [exact Hg|].
    intros mb eb Hmb Heb. rewrite <- Hv. exact (Hb mb eb Hmb Heb).
Qed.

(** *** Multiplication *)

Lemma Zdigits2_mul a b :
  0 < a -> 0 < b -> Zdigits2 a + Zdigits2 b - 1 <= Zdigits2 (a * b).
Proof.
  intros Ha Hb.
  destruct (Zdigits2_pos_bounds a Ha) as [Hda [Hla _]].
  destruct (Zdigits2_pos_bounds b Hb) as [Hdb [Hlb _]].
  destruct (Zdigits2_pos_bounds (a * b) ltac:(nia)) as [Hdab [_ Hhab]].
  destruct (Z_le_gt_dec (Zdigits2 a + Zdigits2 b - 1) (Zdigits2 (a * b)))
    as [H|H]; [exact H|].
  pose proof (Z.pow_le_mono_r 2 (Zdigits2 (a * b))
                (Zdigits2 a - 1 + (Zdigits2 b - 1)) ltac:(lia) ltac:(lia)) as Hp.
  rewrite Z.pow_add_r in Hp by lia. nia.
Qed.

Theorem SFmul_correct sx mx ex sy my ey :
  SpecFloat.bounded prec emax mx ex = true ->
  SpecFloat.bounded prec emax my ey = true ->
  rounded (xorb sx sy) (F2R (Zpos mx) ex * F2R (Zpos my) ey)
          (SFmul prec emax (S754_finite sx mx ex) (S754_finite sy my ey)).
Proof.
  intros Hx Hy. apply bounded_spec in Hx, Hy.
  destruct Hx as [Hex _], Hy as [Hey _]. cbn [SFmul].
  destruct (binary_round_aux_correct (xorb sx sy) (Zpos (mx * my)) (ex + ey)
              loc_Exact (IZR (Zpos (mx * my)))) as (m3 & e3 & E & Hg & Hb).
  - lia.
  - pose proof (Zdigits2_mul (Zpos mx) (Zpos my) ltac:(lia) ltac:(lia)) as Hd.
    rewrite <- Pos2Z.inj_mul in Hd.
    destruct (Zdigits2_pos_bounds (Zpos mx) ltac:(lia)) as [Hdx _].
    destruct (Zdigits2_pos_bounds (Zpos my) ltac:(lia)) as [Hdy _].
    rewrite fexp64_eq in *. lia.
  - apply inbetween_exact.
  - exists m3, e3. split; [exact E|]. split; [exact Hg|].
    intros mb eb Hmb Heb.
    replace (F2R (Zpos mx) ex * F2R (Zpos my) ey)%R
      with (IZR (Zpos (mx * my)) * bpow (ex + ey))%R; [exact (Hb mb eb Hmb Heb)|].
    unfold F2R. rewrite Pos2Z.inj_mul, mult_IZR, bpow_add. ring.
Qed.

(** *** Division *)

Lemma new_location_eq m2 r :
  new_location m2 r
  = if r =? 0 then loc_Exact
    else if Z.even m2 then loc_Inexact (2 * r ?= m2)
         else loc_Inexact (match 2 * r + 1 ?= m2 with Gt => Gt | _ => Lt end).
Proof.
  unfold new_location, new_location_even, new_location_odd.
  destruct (Z.even m2); reflexivity.
Qed.

Lemma new_location_inbetween m2 r q :
  0 < m2 -> 0 <= r < m2 ->
  inbetween (IZR q + IZR r / IZR m2)
            (shr_record_of_loc q (new_location m2 r)).
Proof.
  intros Hm2 Hr.
  assert (HM : (0 < IZR m2)%R) by (now apply IZR_lt).
  set (t := (IZR r / IZR m2)%R).
  assert (Ht : (t * IZR m2 = IZR r)%R) by (unfold t; field; lra).
  clearbody t.
  assert (Hr0 : (0 <= IZR r)%R) by (apply IZR_le; lia).
  assert (Hr1 : (IZR r < IZR m2)%R) by (apply IZR_lt; lia).
  rewrite new_location_eq.
  destruct (Z.eqb_spec r 0) as [Hz|Hnz].
  { assert (t = 0%R) by (subst r; nra).
    unfold inbetween; cbn; lra. }
  assert (Hr2 : (1 <= IZR r)%R) by (apply IZR_le; lia).
  destruct (Z.even m2) eqn:Hev.
  - destruct (Z.compare_spec (2 * r) m2) as [H|H|H];
      unfold inbetween; cbn [shr_record_of_loc shr_m shr_r shr_s].
    + apply (f_equal IZR) in H. rewrite mult_IZR in H.
      assert (t = / 2)%R by (apply (Rmult_eq_reg_r (IZR m2)); lra).
      lra.
    + apply IZR_lt in H. rewrite mult_IZR in H. nra.
    + apply IZR_lt in H. rewrite mult_IZR in H. nra.
  - assert (Hodd : m2 <> 2 * r).
    { intros ->. rewrite Z.even_mul in Hev. discriminate. }
    destruct (Z.compare_spec (2 * r + 1) m2) as [H|H|H];
      unfold inbetween; cbn [shr_record_of_loc shr_m shr_r shr_s].
    + assert (H' : 2 * r < m2) by lia.
      apply IZR_lt in H'. rewrite mult_IZR in H'. nra.
    + assert (H' : 2 * r < m2) by lia.
      apply IZR_lt in H'. rewrite mult_IZR in H'. nra.
    + assert (H' : m2 < 2 * r) by lia.
      apply IZR_lt in H'. rewrite mult_IZR in H'. nra.
Qed.

Lemma Zdigits2_ge q k : 0 <= k -> 2 ^ k <= q -> k + 1 <= Zdigits2 q.
Proof.
  intros Hk Hq. pose proof (Z.pow_pos_nonneg 2 k ltac:(lia) Hk).
  destruct (Zdigits2_pos_bounds q ltac:(lia)) as [Hd [_ Hhi]].
  destruct (Z_le_gt_dec (k + 1) (Zdigits2 q)) as [H'|H']; [exact H'|].
  pose proof (Z.pow_le_mono_r 2 (Zdigits2 q) k ltac:(lia) ltac:(lia)). lia.
Qed.

Theorem SFdiv_correct sx mx ex sy my ey :
  rounded (xorb sx sy) (F2R (Zpos mx) ex / F2R (Zpos my) ey)
          (SFdiv prec emax (S754_finite sx mx ex) (S754_finite sy my ey)).
Proof.
  cbn [SFdiv]. unfold SFdiv_core_binary.
  fold (fexp64 (Zdigits2 (Zpos mx) + ex - (Zdigits2 (Zpos my) + ey))).
  set (D := Zdigits2 (Zpos mx) + ex - (Zdigits2 (Zpos my) + ey)).
  set (e' := Z.min (fexp64 D) (ex - ey)).
  set (s := ex - ey - e').
  assert (Hs : 0 <= s) by (unfold s, e'; lia).
  set (m' := match s with
             | 0 => Zpos mx | Zpos _ => Z.shiftl (Zpos mx) s | Zneg _ => 0
             end).
  assert (Hm' : m' = Zpos mx * 2 ^ s).
  { unfold m'. destruct s as [|p|p]; [lia| |lia].
    now rewrite Z.shiftl_mul_pow2 by lia. }
  pose proof (Z.pow_pos_nonneg 2 s ltac:(lia) Hs) as Hps.
  pose proof (Z_div_mod m' (Zpos my) ltac:(lia)) as Hdm.
  destruct (Z.div_eucl m' (Zpos my)) as [q r]. destruct Hdm as [Hqr Hr].
  assert (Hq : 0 <= q) by nia.
  destruct (binary_round_aux_correct (xorb sx sy) q e'
              (new_location (Zpos my) r) (IZR q + IZR r / IZR (Zpos my)))
    as (m3 & e3 & E & Hg & Hb).
  - exact Hq.
  - assert (HD : D <= Zdigits2 q + e').
    { destruct (Z_le_gt_dec (D - e') 0) as [H0|H0].
      - pose proof (Zdigits2_nonneg q Hq). lia.
      - destruct (Zdigits2_pos_bounds (Zpos mx) ltac:(lia)) as [Hdx [Hlx _]].
        destruct (Zdigits2_pos_bounds (Zpos my) ltac:(lia)) as [Hdy [_ Hhy]].
        assert (Hk : D - e' - 1 = Zdigits2 (Zpos mx) - 1 + s - Zdigits2 (Zpos my))
          by (unfold D, s; lia).
        assert (Hpow : 2 ^ (Zdigits2 (Zpos mx) - 1) * 2 ^ s
                       = 2 ^ (D - e' - 1) * 2 ^ Zdigits2 (Zpos my)).
        { rewrite <- !Z.pow_add_r by lia. f_equal. lia. }
        pose proof (Z.pow_pos_nonneg 2 (D - e' - 1) ltac:(lia) ltac:(lia)).
        assert (Hql : 2 ^ (D - e' - 1) <= q) by nia.
        pose proof (Zdigits2_ge q (D - e' - 1) ltac:(lia) Hql). lia. }
    rewrite fexp64_eq. unfold e' at 1. rewrite fexp64_eq. lia.
  - apply new_location_inbetween; lia.
  - exists m3, e3. split; [exact E|]. split; [exact Hg|].
    intros mb eb Hmb Heb.
    replace (F2R (Zpos mx) ex / F2R (Zpos my) ey)%R
      with ((IZR q + IZR r / IZR (Zpos my)) * bpow e')%R;
      [exact (Hb mb eb Hmb Heb)|].
    assert (HM : (0 < IZR (Zpos my))%R) by (apply IZR_lt; lia).
    replace (IZR q + IZR r / IZR (Zpos my))%R
      with (IZR m' / IZR (Zpos my))%R
      by (rewrite Hqr, plus_IZR, mult_IZR; field; lra).
    rewrite Hm', mult_IZR, <- bpow_IZR by lia. unfold F2R.
    assert (Hex : bpow ex = (bpow s * bpow e' * bpow ey)%R)
      by (rewrite <- !bpow_add; f_equal; unfold s; lia).
    rewrite Hex. pose proof (bpow_pos ey). field. lra.
Qed.

(** *** Values of floats, consequences of a rounding *)

Lemma F2R_pos m e : 0 < m -> (0 < F2R m e)%R.
Proof.
  intros H. apply IZR_lt in H. unfold F2R. pose proof (bpow_pos e). nra.
Qed.

Lemma F2R_opp m e : F2R (- m) e = (- F2R m e)%R.
Proof. unfold F2R. rewrite opp_IZR. ring. Qed.

Lemma F2R_add a b e : F2R (a + b) e = (F2R a e + F2R b e)%R.
Proof. unfold F2R. rewrite plus_IZR. ring. Qed.

Lemma F2R_0 e : F2R 0 e = 0%R.
Proof. unfold F2R. ring. Qed.

Lemma rounded_zero s : rounded s 0 (S754_zero s).
Proof.
  exists 0, (-1074). split; [reflexivity|]. split; [split; [lia|reflexivity]|].
  intros mb eb Hmb _. pose proof (F2R_pos mb eb Hmb). rewrite F2R_0.
  split; lra.
Qed.

(** A rounding bounded from above is a zero or a finite number, valid and
    under the bound. *)
Lemma rounded_upper s X z mb eb :
  rounded s X z -> SpecFloat.bounded prec emax mb eb = true ->
  (X <= F2R (Zpos mb) eb)%R ->
  valid_binary prec emax z = true
  /\ (z = S754_zero s \/ exists m e, z = S754_finite s m e)
  /\ (SFmag z <= F2R (Zpos mb) eb)%R.
Proof.
  intros (m3 & e3 & -> & Hg & Hb) Hbd HX.
  pose proof (proj1 (bounded_spec mb eb) Hbd) as [Heb _].
  pose proof (proj1 (Hb (Zpos mb) eb ltac:(lia) Heb) HX) as Hle.
  split; [now apply SF_of_grid_valid|].
  rewrite (SF_of_grid_finite s m3 e3 mb eb Hg Hbd Hle).
  destruct Hg as [Hm3 _]. destruct m3 as [|p|p]; [| |lia].
  - split; [now left|]. cbn [SFmag].
    pose proof (F2R_pos (Zpos mb) eb ltac:(lia)). lra.
  - split; [right; now exists p, e3|]. exact Hle.
Qed.

(** A rounding bounded from below by a positive number is no zero. *)
Lemma rounded_lower s X z mb eb :
  rounded s X z -> SpecFloat.bounded prec emax mb eb = true ->
  (F2R (Zpos mb) eb <= X)%R ->
  z = S754_infinity s
  \/ exists m e, z = S754_finite s m e
                 /\ (F2R (Zpos mb) eb <= F2R (Zpos m) e)%R.
Proof.
  intros (m3 & e3 & -> & Hg & Hb) Hbd HX.
  pose proof (proj1 (bounded_spec mb eb) Hbd) as [Heb _].
  pose proof (proj2 (Hb (Zpos mb) eb ltac:(lia) Heb) HX) as Hle.
  pose proof (F2R_pos (Zpos mb) eb ltac:(lia)) as Hpos.
  destruct Hg as [Hm3 _]. destruct m3 as [|p|p]; [| |lia].
  - rewrite F2R_0 in Hle. lra.
  - unfold SF_of_grid. destruct (e3 <=? emax - prec); [right|now left].
    now exists p, e3.
Qed.

(** Canonical representations are unique. *)
Lemma canonical_unique m1 e1 m2 e2 :
  SpecFloat.bounded prec emax m1 e1 = true ->
  SpecFloat.bounded prec emax m2 e2 = true ->
  F2R (Zpos m1) e1 = F2R (Zpos m2) e2 -> m1 = m2 /\ e1 = e2.
Proof.
  intros H1 H2 Hv. apply bounded_spec in H1, H2.
  destruct H1 as [H1 _], H2 as [H2 _].
  assert (He : e1 = e2).
  { pose proof (canonical_le_exp (Zpos m1) e1 (Zpos m2) e2 ltac:(lia)
                  ltac:(lia) H1 H2 ltac:(lra)).
    pose proof (canonical_le_exp (Zpos m2) e2 (Zpos m1) e1 ltac:(lia)
                  ltac:(lia) H2 H1 ltac:(lra)). lia. }
  split; [|exact He]. subst e2.
  pose proof (F2R_le_inv (Zpos m1) (Zpos m2) e1 ltac:(lra)).
  pose proof (F2R_le_inv (Zpos m2) (Zpos m1) e1 ltac:(lra)). lia.
Qed.

(** The rounding of a representable number is that number. *)
Lemma rounded_exact s z mb eb :
  rounded s (F2R (Zpos mb) eb) z ->
  SpecFloat.bounded prec emax mb eb = true ->
  z = S754_finite s mb eb.
Proof.
  intros Hr Hbd.
  destruct (rounded_upper s _ z mb eb Hr Hbd (Rle_refl _)) as (Hv & Hs & Hu).
  destruct (rounded_lower s _ z mb eb Hr Hbd (Rle_refl _))
    as [->|(m & e & -> & Hl)].
  - destruct Hs as [Hs|(m & e & Hs)]; discriminate Hs.
  - cbn [SFmag] in Hu. cbn [valid_binary] in Hv.
    destruct (canonical_unique m e mb eb Hv Hbd ltac:(lra)) as [-> ->].
    reflexivity.
Qed.

(** *** [binary_normalize], addition and subtraction *)

Lemma binary_normalize_nonneg S e :
  0 <= S -> rounded false (F2R S e) (binary_normalize prec emax S e false).
Proof.
  intros HS. destruct S as [|p|p]; [| |lia]; cbn [binary_normalize].
  - rewrite F2R_0. apply rounded_zero.
  - apply binary_round_correct.
Qed.

Lemma binary_normalize_neg S e sz :
  S < 0 -> rounded true (F2R (- S) e) (binary_normalize prec emax S e sz).
Proof.
  intros HS. destruct S as [|p|p]; [lia|lia|]; cbn [binary_normalize Z.opp].
  apply binary_round_correct.
Qed.

Lemma shl_align_value s m e ez :
  ez <= e ->
  F2R (cond_Zopp s (Zpos (fst (shl_align m e ez)))) ez
  = SF2R (S754_finite s m e).
Proof.
  intros Hle. pose proof (shl_align_spec m e ez) as H. cbv zeta in H.
  destruct H as (Hv & He & _). cbn [SF2R].
  replace (snd (shl_align m e ez)) with ez in Hv by lia.
  destruct s; cbn [cond_Zopp]; rewrite ?F2R_opp, Hv; reflexivity.
Qed.

Lemma SFadd_finite sx mx ex sy my ey :
  exists S,
    SFadd prec emax (S754_finite sx mx ex) (S754_finite sy my ey)
    = binary_normalize prec emax S (Z.min ex ey) false
    /\ F2R S (Z.min ex ey)
       = (SF2R (S754_finite sx mx ex) + SF2R (S754_finite sy my ey))%R.
Proof.
  eexists. split; [reflexivity|].
  rewrite F2R_add, !shl_align_value by lia. reflexivity.
Qed.

Lemma SFsub_finite sx mx ex sy my ey :
  exists S,
    SFsub prec emax (S754_finite sx mx ex) (S754_finite sy my ey)
    = binary_normalize prec emax S (Z.min ex ey) false
    /\ F2R S (Z.min ex ey)
       = (SF2R (S754_finite sx mx ex) - SF2R (S754_finite sy my ey))%R.
Proof.
  eexists. split; [reflexivity|].
  unfold Z.sub at 1. rewrite F2R_add, F2R_opp, !shl_align_value by lia.
  reflexivity.
Qed.

(** *** Comparison of positive finite numbers *)

Lemma SFcompare_pos_eq m1 e1 m2 e2 :
  SFcompare (S754_finite false m1 e1) (S754_finite false m2 e2)
  = Some (match e1 ?= e2 with
          | Lt => Lt
          | Gt => Gt
          | Eq => (Zpos m1 ?= Zpos m2)
          end).
Proof. reflexivity. Qed.

Lemma SFcompare_pos_spec m1 e1 m2 e2 :
  SpecFloat.bounded prec emax m1 e1 = true ->
  SpecFloat.bounded prec emax m2 e2 = true ->
  match SFcompare (S754_finite false m1 e1) (S754_finite false m2 e2) with
  | Some Lt => (F2R (Zpos m1) e1 < F2R (Zpos m2) e2)%R
  | Some Eq => m1 = m2 /\ e1 = e2
  | Some Gt => (F2R (Zpos m2) e2 < F2R (Zpos m1) e1)%R
  | None => False
  end.
Proof.
  intros H1 H2. apply bounded_spec in H1, H2.
  destruct H1 as [H1 _], H2 as [H2 _]. rewrite SFcompare_pos_eq.
  destruct (Z.compare_spec e1 e2) as [He|He|He].
  - subst e2. pose proof (bpow_pos e1) as Hp.
    destruct (Z.compare_spec (Zpos m1) (Zpos m2)) as [Hm|Hm|Hm].
    + split; [congruence|reflexivity].
    + apply IZR_lt in Hm. unfold F2R. nra.
    + apply IZR_lt in Hm. unfold F2R. nra.
  - apply canonical_exp_lt; try assumption; lia.
  - apply canonical_exp_lt; try assumption; lia.
Qed.

Lemma SFleb_pos m1 e1 m2 e2 :
  SpecFloat.bounded prec emax m1 e1 = true ->
  SpecFloat.bounded prec emax m2 e2 = true ->
  SFleb (S754_finite false m1 e1) (S754_finite false m2 e2) = true
  <-> (F2R (Zpos m1) e1 <= F2R (Zpos m2) e2)%R.
Proof.
  intros H1 H2. pose proof (SFcompare_pos_spec m1 e1 m2 e2 H1 H2) as H.
  unfold SFleb.
  destruct (SFcompare (S754_finite false m1 e1) (S754_finite false m2 e2))
    as [[]|]; [| | |contradiction].
  - destruct H as [-> ->]. split; [lra|reflexivity].
  - split; [lra|reflexivity].
  - split; [discriminate|lra].
Qed.

Lemma SFltb_pos m1 e1 m2 e2 :
  SpecFloat.bounded prec emax m1 e1 = true ->
  SpecFloat.bounded prec emax m2 e2 = true ->
  SFltb (S754_finite false m1 e1) (S754_finite false m2 e2) = true
  <-> (F2R (Zpos m1) e1 < F2R (Zpos m2) e2)%R.
Proof.
  intros H1 H2. pose proof (SFcompare_pos_spec m1 e1 m2 e2 H1 H2) as H.
  unfold SFltb.
  destruct (SFcompare (S754_finite false m1 e1) (S754_finite false m2 e2))
    as [[]|]; [| | |contradiction].
  - destruct H as [-> ->]. split; [discriminate|lra].
  - split; [lra|reflexivity].
  - split; [discriminate|lra].
Qed.

Lemma SFeqb_pos m1 e1 m2 e2 :
  SpecFloat.bounded prec emax m1 e1 = true ->
  SpecFloat.bounded prec emax m2 e2 = true ->
  SFeqb (S754_finite false m1 e1) (S754_finite false m2 e2) = true
  <-> m1 = m2 /\ e1 = e2.
Proof.
  intros H1 H2. pose proof (SFcompare_pos_spec m1 e1 m2 e2 H1 H2) as H.
  unfold SFeqb.
  destruct (SFcompare (S754_finite false m1 e1) (S754_finite false m2 e2))
    as [[]|]; [| | |contradiction].
  - split; [intros _; exact H|reflexivity].
  - split; [discriminate|]. intros [-> ->]. lra.
  - split; [discriminate|]. intros [-> ->]. lra.
Qed.

(** *** Integer parts *)

Lemma shiftl_bounds m e :
  (IZR (Z.shiftl m e) <= F2R m e < IZR (Z.shiftl m e) + 1)%R.
Proof.
  destruct (Z_le_gt_dec 0 e) as [He|He].
  - rewrite Z.shiftl_mul_pow2 by lia.
    unfold F2R. rewrite mult_IZR, <- bpow_IZR by lia. lra.
  - rewrite Z.shiftl_div_pow2 by lia.
    pose proof (Z.pow_pos_nonneg 2 (- e) ltac:(lia) ltac:(lia)) as Hp.
    pose proof (Z_div_mod_eq_full m (2 ^ (- e))) as Hdm.
    pose proof (Z.mod_pos_bound m (2 ^ (- e)) Hp) as Hr.
    assert (Hb : (bpow e * IZR (2 ^ (- e)) = 1)%R).
    { rewrite <- bpow_IZR by lia. rewrite <- bpow_add.
      replace (e + - e) with 0 by lia. reflexivity. }
    set (k := m / 2 ^ (- e)) in *. set (r := m mod 2 ^ (- e)) in *.
    assert (Hm : IZR m = (IZR (2 ^ (- e)) * IZR k + IZR r)%R)
      by (rewrite <- mult_IZR, <- plus_IZR; now f_equal).
    assert (Hr0 : (0 <= IZR r)%R) by (apply IZR_le; lia).
    assert (Hr1 : (IZR r < IZR (2 ^ (- e)))%R) by (apply IZR_lt; lia).
    unfold F2R. rewrite Hm. pose proof (bpow_pos e) as Hbp.
    replace ((IZR (2 ^ (- e)) * IZR k + IZR r) * bpow e)%R
      with (IZR k * (bpow e * IZR (2 ^ (- e))) + IZR r * bpow e)%R by ring.
    rewrite Hb.
    assert (IZR r * bpow e < bpow e * IZR (2 ^ (- e)))%R by nra.
    assert (0 <= IZR r * bpow e)%R by nra.
    lra.
Qed.

(** *** The constants of the sources and their values *)

Lemma d360_eq : d360 = S754_finite false 6333186975989760 (-44).
Proof. reflexivity. Qed.
Lemma d60_eq : d60 = S754_finite false 8444249301319680 (-47).
Proof. reflexivity. Qed.
Lemma d255_eq : d255 = S754_finite false 8972014882652160 (-45).
Proof. reflexivity. Qed.
Lemma d1_eq : d1 = S754_finite false 4503599627370496 (-52).
Proof. reflexivity. Qed.

Lemma F2R_d60 : F2R 8444249301319680 (-47) = 60%R.
Proof. unfold F2R, bpow. simpl. lra. Qed.
Lemma F2R_d360 : F2R 6333186975989760 (-44) = 360%R.
Proof. unfold F2R, bpow. simpl. lra. Qed.

Lemma F2R_d255 : F2R 8972014882652160 (-45) = 255%R.
Proof. unfold F2R, bpow. simpl. lra. Qed.

Lemma F2R_pred360 : F2R 6333186975989759 (-44) = (360 - / 17592186044416)%R.
Proof. unfold F2R, bpow. simpl. lra. Qed.
Lemma F2R_pred6 : F2R 6755399441055743 (-50) = (6 - / 1125899906842624)%R.
Proof. unfold F2R, bpow. simpl. lra. Qed.

(** *** Integers as floats, [floor] *)

Lemma Zdigits2_le_prec m e :
  SpecFloat.bounded prec emax m e = true -> Zdigits2 (Zpos m) <= 53.
Proof. intros H. apply bounded_spec in H. rewrite fexp64_eq in H. lia. Qed.

(** An integer of at most 53 bits converts to the float of that value. *)
Lemma binary_round_int s k :
  0 < k < 2 ^ 53 ->
  exists m e,
    binary_round prec emax s (Z.to_pos k) 0 = S754_finite s m e
    /\ SpecFloat.bounded prec emax m e = true
    /\ F2R (Zpos m) e = IZR k.
Proof.
  intros Hk. destruct (Zdigits2_pos_bounds k ltac:(lia)) as [Hd [Hlo Hhi]].
  assert (Hd53 : Zdigits2 k <= 53).
  { destruct (Z_le_gt_dec (Zdigits2 k) 53) as [H|H]; [exact H|].
    pose proof (Z.pow_le_mono_r 2 53 (Zdigits2 k - 1) ltac:(lia) ltac:(lia)).
    lia. }
  set (j := 53 - Zdigits2 k).
  pose proof (Z.pow_pos_nonneg 2 j ltac:(lia) ltac:(unfold j; lia)) as Hj.
  exists (Z.to_pos (k * 2 ^ j)), (- j).
  assert (Hpos : Zpos (Z.to_pos (k * 2 ^ j)) = k * 2 ^ j)
    by (apply Z2Pos.id; nia).
  assert (Hb : SpecFloat.bounded prec emax (Z.to_pos (k * 2 ^ j)) (- j) = true).
  { apply bounded_spec. rewrite Hpos, Zdigits2_shift by (unfold j; lia).
    rewrite fexp64_eq. unfold j. lia. }
  assert (Hv : F2R (Zpos (Z.to_pos (k * 2 ^ j))) (- j) = IZR k).
  { rewrite Hpos, <- F2R_scale by (unfold j; lia).
    replace (- j + j) with 0 by lia. unfold F2R. rewrite bpow_0. ring. }
  split; [|split; [exact Hb|exact Hv]].
  apply rounded_exact; [|exact Hb].
  rewrite Hv. replace (IZR k) with (F2R (Zpos (Z.to_pos k)) 0).
  - apply binary_round_correct.
  - rewrite Z2Pos.id by lia. unfold F2R. rewrite bpow_0. ring.
Qed.

(** [floor] of a finite float with a fractional part: a float of the
    integer below it. *)
Lemma floor_value s m e :
  SpecFloat.bounded prec emax m e = true -> e < 0 ->
  let k := Z.shiftl (cond_Zopp s (Zpos m)) e in
  (IZR k <= SF2R (S754_finite s m e) < IZR k + 1)%R
  /\ ((k = 0 /\ s = false /\ floor (S754_finite s m e) = S754_zero false)
      \/ exists sk mk ek,
           floor (S754_finite s m e) = S754_finite sk mk ek
           /\ SF2R (S754_finite sk mk ek) = IZR k).
Proof.
  intros Hb He k. pose proof (Zdigits2_le_prec m e Hb) as Hd.
  destruct (Zdigits2_pos_bounds (Zpos m) ltac:(lia)) as [_ [_ Hhi]].
  pose proof (Z.pow_le_mono_r 2 (Zdigits2 (Zpos m)) 53 ltac:(lia) Hd) as H53.
  pose proof (shiftl_bounds (cond_Zopp s (Zpos m)) e) as Hk. fold k in Hk.
  split; [exact Hk|].
  assert (Hkm : - Zpos m <= k <= Zpos m).
  { unfold k. rewrite Z.shiftl_div_pow2 by lia.
    pose proof (Z.pow_pos_nonneg 2 (- e) ltac:(lia) ltac:(lia)) as Hp.
    assert (2 <= 2 ^ (- e)).
    { replace (- e) with (1 + (- e - 1)) by lia. rewrite Z.pow_add_r by lia.
      pose proof (Z.pow_pos_nonneg 2 (- e - 1) ltac:(lia) ltac:(lia)). lia. }
    destruct s; cbn [cond_Zopp].
    - split.
      + apply Z.div_le_lower_bound; nia.
      + pose proof (Z.div_lt_upper_bound (- Zpos m) (2 ^ (- e)) 0 Hp ltac:(lia)).
        lia.
    - split.
      + pose proof (Z.div_pos (Zpos m) (2 ^ (- e)) ltac:(lia) Hp). lia.
      + apply Z.div_le_upper_bound; nia. }
  unfold floor. replace (0 <=? e) with false by (symmetry; apply Z.leb_gt; lia).
  fold k. destruct (Z.lt_trichotomy k 0) as [Hneg|[Hz|Hpos]].
  - right. destruct k as [|p|p] eqn:Ek; [lia|lia|]. cbn [binary_normalize].
    destruct (binary_round_int true (Zpos p) ltac:(lia)) as (mk & ek & E & _ & Hv).
    cbn [Z.to_pos] in E. exists true, mk, ek. split; [exact E|].
    cbn [SF2R cond_Zopp]. rewrite F2R_opp, Hv.
    change (Zneg p) with (- Zpos p). now rewrite opp_IZR.
  - left. rewrite Hz. cbn [binary_normalize]. split; [reflexivity|].
    destruct s; [|split; reflexivity]. exfalso.
    cbn [SF2R cond_Zopp] in Hk. rewrite F2R_opp, Hz in Hk.
    pose proof (F2R_pos (Zpos m) e ltac:(lia)). lra.
  - right. destruct k as [|p|p] eqn:Ek; [lia| |lia]. cbn [binary_normalize].
    destruct (binary_round_int false (Zpos p) ltac:(lia)) as (mk & ek & E & _ & Hv).
    cbn [Z.to_pos] in E. exists false, mk, ek. split; [exact E|exact Hv].
Qed.

Lemma F2R_one : F2R 4503599627370496 (-52) = 1%R.
Proof. unfold F2R, bpow. simpl. lra. Qed.
Lemma F2R_half : F2R 4503599627370496 (-53) = (/ 2)%R.
Proof. unfold F2R, bpow. simpl. lra. Qed.

Lemma F2R_nonneg_inv S e : (0 <= F2R S e)%R -> 0 <= S.
Proof. intros H. apply (F2R_le_inv 0 S e). now rewrite F2R_0. Qed.

Lemma rounded_nonneg_le X z mb eb :
  rounded false X z -> SpecFloat.bounded prec emax mb eb = true ->
  (X <= F2R (Zpos mb) eb)%R -> nonneg_le (F2R (Zpos mb) eb) z.
Proof.
  intros Hr Hb HX.
  destruct (rounded_upper false X z mb eb Hr Hb HX) as (Hv & [->|(m & e & ->)] & Hu).
  - now left.
  - right. exists m, e. repeat split; assumption.
Qed.

End Real754Facts.

(** ** The sampler *)

Module SamplerFacts.
Import IEEE Real754 Real754Facts Sampler.

Lemma isnan_dabs d : isnan (dabs d) = isnan d.
Proof. now destruct d. Qed.

Lemma isinf_dabs d : isinf (dabs d) = isinf d.
Proof. now destruct d. Qed.

Lemma clamp_one : clamp d1 d0 d1 = d1.
Proof. reflexivity. Qed.

Section WithFunction.
Context (L : libm) (f : complex -> complex).

Lemma gridlines_guard x y :
  gridlines L f x y
  = if isnan (gridlines_value L f x y) || isinf (gridlines_value L f x y)
    then d1 else gridlines_value L f x y.
Proof. unfold gridlines. now rewrite isnan_dabs, isinf_dabs. Qed.

(** Whatever the sample, [gridlines] returns a finite number. *)
Lemma gridlines_finite x y : isfinite (gridlines L f x y) = true.
Proof.
  rewrite gridlines_guard. unfold isfinite.
  destruct (isnan (gridlines_value L f x y)
            || isinf (gridlines_value L f x y)) eqn:Hv; [reflexivity|].
  now rewrite Hv.
Qed.

(** With such a [pow], the product of the source is the formula of the
    specification or is NaN, so that a NaN or infinite formula gives 1.0
    as well. *)
Lemma gridlines_formula_degenerate x y :
  pow_annex_f L ->
  isnan (gridlines_formula L f x y) || isinf (gridlines_formula L f x y)
  = true ->
  gridlines L f x y = d1.
Proof.
  intros [Hneg Habs] Hv. rewrite gridlines_guard.
  unfold gridlines_formula in Hv. unfold gridlines_value.
  destruct (sin L (dmul (real_f f (z L x y)) M_PI)) as [s|s| |s m e] eqn:Hs.
  - rewrite Habs by discriminate. now rewrite Hv.
  - rewrite Habs by discriminate. now rewrite Hv.
  - rewrite Habs by discriminate. now rewrite Hv.
  - destruct s.
    + specialize (Hneg m e).
      destruct (pow L (S754_finite true m e) threshold); try discriminate.
      reflexivity.
    + rewrite Habs by discriminate. now rewrite Hv.
Qed.

(** When the product of the two gridline factors is NaN or infinite, as
    the source computes it or, with the [pow] of Annex F, as the formula
    with both absolute values inside writes it, [gridlines] returns 1.0,
    and 1.0 is the value component of the HSV colour that [color] builds
    for that sample, in [main.cpp] (through the clamp of [norm]) as in the
    normalized variant.  In the normalized variant a NaN hue of the same
    sample fails the first assertion of [hsv2rgb]. *)
Lemma gridlines_substitution x y :
  isnan (gridlines_value L f x y) || isinf (gridlines_value L f x y) = true
  \/ (pow_annex_f L
      /\ isnan (gridlines_formula L f x y) || isinf (gridlines_formula L f x y)
         = true) ->
  gridlines L f x y = d1
  /\ Degrees.value (Degrees.color_hsv L f x y) = d1
  /\ Normalized.value (Normalized.color_hsv L f x y) = d1
  /\ (isnan (Normalized.hue (Normalized.color_hsv L f x y)) = true ->
      Normalized.color L f x y = None).
Proof.
  intros Hv.
  assert (Hg : gridlines L f x y = d1).
  { destruct Hv as [Hv|[Hpow Hv]].
    - now rewrite gridlines_guard, Hv.
    - now apply gridlines_formula_degenerate. }
  split; [exact Hg|]. split; [|split].
  - unfold Degrees.color_hsv, Degrees.mkHSV, Degrees.norm.
    cbn [Degrees.value]. rewrite Hg. exact clamp_one.
  - unfold Normalized.color_hsv. cbn [Normalized.value]. exact Hg.
  - unfold Normalized.color, Normalized.hsv2rgb, Normalized.asserts.
    destruct (Normalized.hue (Normalized.color_hsv L f x y));
      try discriminate. reflexivity.
Qed.

End WithFunction.

Lemma first_order_pow : pow_annex_f first_order.
Proof.
  split; [reflexivity|]. intros b Hb. cbn [pow first_order].
  destruct b as [s|s| |s m e]; try reflexivity.
  destruct s; [now destruct (Hb m e)|reflexivity].
Qed.

(** C1, at the pole of [inv_conj] ([f(z) = 1 / conj(z)] at [z = 0],
    where both parts of [f(z)] are NaN): the gridline product is NaN, as
    the source computes it and as the formula of the claim writes it.
    [gridlines] of the normalized variant returns 1.0 and 1.0 is the value
    component, but the hue of the same sample is NaN and is handed on as
    it is: the first assertion of [hsv2rgb] fails, and the render of a
    2 x 2 canvas, whose pixel (1, 1) is that sample, is aborted.
    [main.cpp] substitutes 1.0 as well and, clamping where the normalized
    variant asserts, renders the same canvas to the end.  The byte variant
    has no guard: the NaN product is the operand of the cast to [uint8_t],
    and the value byte is 0 where 1.0 gives 255. *)
Theorem degenerate_sample_aborts :
  isnan (gridlines_value first_order inv_conj d0 d0) = true
  /\ isnan (gridlines_formula first_order inv_conj d0 d0) = true
  /\ gridlines first_order inv_conj d0 d0 = d1
  /\ Normalized.value (Normalized.color_hsv first_order inv_conj d0 d0) = d1
  /\ isnan (Normalized.hue (Normalized.color_hsv first_order inv_conj d0 d0))
     = true
  /\ Normalized.color first_order inv_conj d0 d0 = None
  /\ Normalized.plane_coord 2 d1 1 = d0
  /\ Normalized.paint_complex first_order inv_conj
       (Canvas.new {| Canvas.width := 2; Canvas.height := 2 |}) d1 d1 = None
  /\ Degrees.value (Degrees.color_hsv first_order inv_conj d0 d0) = d1
  /\ Degrees.plane_coord 2 d1 1 = d0
  /\ Degrees.paint_complex first_order inv_conj
       (Canvas.new {| Canvas.width := 2; Canvas.height := 2 |}) d1 d1 <> None
  /\ BytePaint.gridlines first_order inv_conj d0 d0 = S754_nan
  /\ BytePaint.byte_arg (BytePaint.gridlines first_order inv_conj d0 d0)
     = S754_nan
  /\ Bytes.value (BytePaint.color_hsv first_order inv_conj d0 d0) = 0
  /\ BytePaint.to_byte d1 = 255.
Proof. vm_compute. repeat split. discriminate. Qed.

(** C2, at [w = -1 + 0i], half a turn: the normalized variant hands the
    fraction 0.5 to the conversion, but [main.cpp], whose hue is declared
    over [0, 360], multiplies the fraction by [180.0 / M_PI] and hands
    over 28.6478897565411614 where the scaling by 360 gives 180. *)
Theorem angle_half_turn (L : libm) :
  atan2 L (dopp d0) (dopp (of_int (-1))) = S754_zero true ->
  Normalized.angle L (of_int (-1)) d0 = d0_5
  /\ Degrees.angle L (of_int (-1)) d0
     = S754_finite false 0x1CA5DC1A63C1F8 (-48)
  /\ Degrees.degree (Degrees.angle L (of_int (-1)) d0)
     = S754_finite false 0x1CA5DC1A63C1F8 (-48)
  /\ dmul d0_5 d360 = d180.
Proof.
  intros Hatan.
  assert (Hturn : turn L (of_int (-1)) d0 = d0_5).
  { unfold turn. rewrite Hatan. vm_compute. reflexivity. }
  split; [exact Hturn|]. split; [|split].
  - unfold Degrees.angle. rewrite Hturn. vm_compute. reflexivity.
  - unfold Degrees.angle. rewrite Hturn. vm_compute. reflexivity.
  - vm_compute. reflexivity.
Qed.

Lemma angle_half_turn_witness :
  Normalized.angle first_order (of_int (-1)) d0 = d0_5
  /\ Degrees.angle first_order (of_int (-1)) d0
     = S754_finite false 0x1CA5DC1A63C1F8 (-48)
  /\ Degrees.degree (Degrees.angle first_order (of_int (-1)) d0)
     = S754_finite false 0x1CA5DC1A63C1F8 (-48)
  /\ dmul d0_5 d360 = d180.
Proof. apply (angle_half_turn first_order). reflexivity. Defined.

(** C8, with the canvas and the range of the normalized variant's
    [main] (400 columns, [xRange = 4.0]): the left edge maps to -2.0 and
    the right edge to 2.0, half the range announced as "from minus N to
    plus N"; [main.cpp] doubles its range of 2 and reaches -2.0 and 2.0,
    the range itself. *)
Theorem plane_coord_edges :
  Normalized.plane_coord 400 (of_int 4) 0 = of_int (-2)
  /\ Normalized.plane_coord 400 (of_int 4) 400 = of_int 2
  /\ Degrees.plane_coord 400 (of_int 2) 0 = of_int (-2)
  /\ Degrees.plane_coord 400 (of_int 2) 400 = of_int 2.
Proof. vm_compute. repeat split. Qed.

(** *** The saturation *)

(** The fractional part [m - floor(m)] is +0 or a positive float of at
    most 1. *)
Lemma frac_range m :
  valid_binary prec emax m = true -> isfinite m = true ->
  nonneg_le 1 (dsub m (floor m)).
Proof.
  intros Hv Hf. destruct m as [s|s| |s mx e]; try discriminate.
  - left. destruct s; reflexivity.
  - cbn [valid_binary] in Hv. rewrite <- F2R_one.
    destruct (Z_le_gt_dec 0 e) as [He|He].
    + unfold floor. replace (0 <=? e) with true by (symmetry; apply Z.leb_le; lia).
      destruct (SFsub_finite s mx e s mx e) as (S & E & HS).
      unfold dsub. rewrite E.
      apply (rounded_nonneg_le (F2R S (Z.min e e))); [|reflexivity|].
      * apply binary_normalize_nonneg, (F2R_nonneg_inv S (Z.min e e)). lra.
      * rewrite F2R_one. lra.
    + destruct (floor_value s mx e Hv ltac:(lia))
        as [Hk [(Hk0 & -> & ->)|(sk & mk & ek & -> & Hfl)]].
      * right. exists mx, e. split; [reflexivity|]. split; [exact Hv|].
        rewrite Hk0 in Hk. cbn [SF2R cond_Zopp] in Hk. rewrite F2R_one. lra.
      * destruct (SFsub_finite s mx e sk mk ek) as (S & E & HS).
        unfold dsub. rewrite E. rewrite Hfl in HS.
        apply (rounded_nonneg_le (F2R S (Z.min e ek))); [|reflexivity|].
        -- apply binary_normalize_nonneg, (F2R_nonneg_inv S (Z.min e ek)). lra.
        -- rewrite F2R_one. lra.
Qed.

Lemma half_range d :
  nonneg_le 1 d -> nonneg_le (/ 2) (dmul d0_5 d).
Proof.
  intros [->|(m & e & -> & Hb & Hle)]; [now left|].
  rewrite <- F2R_half.
  apply (rounded_nonneg_le (F2R 4503599627370496 (-53) * F2R (Zpos m) e));
    [|reflexivity|].
  - exact (SFmul_correct false 4503599627370496 (-53) false m e eq_refl Hb).
  - pose proof (F2R_pos (Zpos m) e ltac:(lia)). rewrite F2R_half. lra.
Qed.

Lemma half_plus_range p :
  nonneg_le (/ 2) p ->
  exists m e,
    dadd d0_5 p = S754_finite false m e
    /\ SpecFloat.bounded prec emax m e = true
    /\ (/ 2 <= F2R (Zpos m) e <= 1)%R.
Proof.
  intros [->|(mp & ep & -> & Hb & Hle)].
  - exists 4503599627370496%positive, (-53). split; [reflexivity|].
    split; [reflexivity|]. rewrite F2R_half. lra.
  - destruct (SFadd_finite false 4503599627370496 (-53) false mp ep)
      as (S & E & HS).
    cbn [SF2R cond_Zopp] in HS. rewrite F2R_half in HS.
    pose proof (F2R_pos (Zpos mp) ep ltac:(lia)) as Hp.
    assert (Hr : rounded false (F2R S (Z.min (-53) ep)) (dadd d0_5 (S754_finite false mp ep))).
    { unfold dadd, d0_5. rewrite E.
      apply binary_normalize_nonneg, (F2R_nonneg_inv S (Z.min (-53) ep)). lra. }
    destruct (rounded_upper false _ _ 4503599627370496 (-52) Hr eq_refl)
      as (Hv & Hs & Hu); [rewrite F2R_one; lra|].
    destruct (rounded_lower false _ _ 4503599627370496 (-53) Hr eq_refl)
      as [Hinf|(m & e & Hz & Hl)]; [rewrite F2R_half; lra| |].
    + rewrite Hinf in Hs. destruct Hs as [Hs|(m & e & Hs)]; discriminate Hs.
    + exists m, e. rewrite Hz in Hv, Hu. cbn [SFmag] in Hu.
      rewrite F2R_one in Hu. rewrite F2R_half in Hl.
      split; [exact Hz|]. split; [exact Hv|]. lra.
Qed.

(** The sawtooth of a finite magnitude is a float of [0.5, 1]. *)
Lemma sawtooth_range m :
  valid_binary prec emax m = true -> isfinite m = true ->
  exists mr er,
    sawtooth m = S754_finite false mr er
    /\ SpecFloat.bounded prec emax mr er = true
    /\ (/ 2 <= F2R (Zpos mr) er <= 1)%R.
Proof.
  intros Hv Hf. unfold sawtooth.
  apply half_plus_range, half_range, frac_range; assumption.
Qed.

Lemma norm_unit m e :
  SpecFloat.bounded prec emax m e = true -> (F2R (Zpos m) e <= 1)%R ->
  Degrees.norm (S754_finite false m e) = S754_finite false m e.
Proof.
  intros Hb Hle. unfold Degrees.norm, clamp.
  change (dlt (S754_finite false m e) d0) with false. cbv iota.
  rewrite d1_eq.
  destruct (dlt (S754_finite false 4503599627370496 (-52))
              (S754_finite false m e)) eqn:Hlt; [|reflexivity].
  apply SFltb_pos in Hlt; [|reflexivity|exact Hb]. rewrite F2R_one in Hlt. lra.
Qed.

Section WithFunction.
Context (L : libm) (f : complex -> complex).

(** C9: when the magnitude [abs(f(z))] is a finite number, the saturation
    [0.5 + 0.5 * (m - floor(m))] lies in [0.5, 1]; [norm] stores it as it
    is, and in both variants it differs from 0, so that [hsv2rgb] does not
    take its achromatic branch. *)
Theorem saturation_range x y :
  valid_binary prec emax (cabs L (f (z L x y))) = true ->
  isfinite (cabs L (f (z L x y))) = true ->
  dle d0_5 (magnitude_shading L f x y) = true
  /\ dle (magnitude_shading L f x y) d1 = true
  /\ Degrees.saturation (Degrees.color_hsv L f x y)
     = magnitude_shading L f x y
  /\ deq (Degrees.saturation (Degrees.color_hsv L f x y)) d0 = false
  /\ deq (Normalized.saturation (Normalized.color_hsv L f x y)) d0 = false.
Proof.
  intros Hv Hf.
  unfold Degrees.color_hsv, Degrees.mkHSV, Normalized.color_hsv.
  cbn [Degrees.saturation Normalized.saturation]. unfold magnitude_shading.
  destruct (sawtooth_range _ Hv Hf) as (mr & er & -> & Hb & Hlo & Hhi).
  rewrite (norm_unit mr er Hb Hhi).
  split; [|split; [|repeat split]].
  - apply SFleb_pos; [reflexivity|exact Hb|]. now rewrite F2R_half.
  - rewrite d1_eq. apply SFleb_pos; [exact Hb|reflexivity|].
    now rewrite F2R_one.
Qed.

End WithFunction.

(** The sample (1.5, 0) of [minus_z]: magnitude 1.5, saturation 0.75. *)
Lemma saturation_range_witness :
  dle d0_5 (magnitude_shading first_order minus_z (ddiv (of_int 3) d2) d0) = true
  /\ dle (magnitude_shading first_order minus_z (ddiv (of_int 3) d2) d0) d1 = true
  /\ Degrees.saturation (Degrees.color_hsv first_order minus_z (ddiv (of_int 3) d2) d0)
     = magnitude_shading first_order minus_z (ddiv (of_int 3) d2) d0
  /\ deq (Degrees.saturation (Degrees.color_hsv first_order minus_z (ddiv (of_int 3) d2) d0)) d0
     = false
  /\ deq (Normalized.saturation (Normalized.color_hsv first_order minus_z (ddiv (of_int 3) d2) d0))
         d0 = false.
Proof.
  apply (saturation_range first_order minus_z (ddiv (of_int 3) d2) d0); vm_compute; reflexivity.
Defined.

End SamplerFacts.


(** ** The colour conversion *)

Module ColorFacts.
Import MachineInt IEEE Canvas Real754 Real754Facts Switch.

(** *** The wraparound of the hue *)

(** Both hues reach the sector computation as +0. *)
Lemma sector_hue_360 : Degrees.sector_hue d360 = d0.
Proof. reflexivity. Qed.

Lemma sector_hue_0 : Degrees.sector_hue d0 = d0.
Proof. reflexivity. Qed.

(** C7: [hsv2rgb] gives hue 360 the colour of hue 0, whatever the
    saturation and the value. *)
Theorem hsv2rgb_hue_360 (s v : double) :
  Degrees.hsv2rgb {| Degrees.hue := d360; Degrees.saturation := s;
                     Degrees.value := v |}
  = Degrees.hsv2rgb {| Degrees.hue := d0; Degrees.saturation := s;
                       Degrees.value := v |}.
Proof.
  unfold Degrees.hsv2rgb, Degrees.channels.
  cbn [Degrees.hue Degrees.saturation Degrees.value].
  now rewrite sector_hue_360, sector_hue_0.
Qed.

(** *** The achromatic branch *)

(** C6 as stated fails at value 0.125: 0.125 * 255 = 31.875 rounds to 32,
    and the conversion stores 31 in each channel. *)
Lemma achromatic_not_rounded :
  deq d0 d0 = true
  /\ dle d0 (ddiv d1 (of_int 8)) = true /\ dle (ddiv d1 (of_int 8)) d1 = true
  /\ round_255 (ddiv d1 (of_int 8)) = Some 32
  /\ Degrees.hsv2rgb {| Degrees.hue := d0; Degrees.saturation := d0;
                        Degrees.value := ddiv d1 (of_int 8) |}
     = {| red := 31; green := 31; blue := 31 |}
  /\ Degrees.hsv2rgb {| Degrees.hue := d0; Degrees.saturation := d0;
                        Degrees.value := ddiv d1 (of_int 8) |}
     <> {| red := 32; green := 32; blue := 32 |}
  /\ Normalized.hsv2rgb {| Normalized.hue := d0; Normalized.saturation := d0;
                           Normalized.value := ddiv d1 (of_int 8) |}
     = Some {| red := 31; green := 31; blue := 31 |}.
Proof. vm_compute. repeat split; discriminate. Qed.

(** The conversion to [unsigned char] of a float between +0 and 255. *)
Lemma uchar_of_small p :
  nonneg_le 255 p ->
  exists c, Ztrunc p = Some c /\ 0 <= c <= 255 /\ uchar_of_double p = c.
Proof.
  intros [->|(m & e & -> & Hb & Hle)].
  - exists 0. repeat split; lia.
  - pose proof (shiftl_bounds (Zpos m) e) as [Hlo Hhi].
    pose proof (proj2 (Z.shiftl_nonneg (Zpos m) e) ltac:(lia)) as Hk0.
    assert (Hk : Z.shiftl (Zpos m) e <= 255) by (apply le_IZR; lra).
    exists (Z.shiftl (Zpos m) e). split; [reflexivity|]. split; [lia|].
    unfold uchar_of_double, int_of_double, Ztrunc. cbn [cond_Zopp].
    replace ((int_min <=? Z.shiftl (Zpos m) e) && (Z.shiftl (Zpos m) e <=? int_max))
      with true.
    + apply Z.mod_small. lia.
    + symmetry. apply andb_true_iff. unfold int_min, int_max.
      split; apply Z.leb_le; lia.
Qed.

(** A value in [0, 1] times 255.0 is between +0 and 255, or -0. *)
Lemma value_times_255 v :
  valid_binary prec emax v = true -> dle d0 v = true -> dle v d1 = true ->
  v = S754_zero true \/ nonneg_le 255 (dmul v d255).
Proof.
  intros Hv H0 H1. destruct v as [s|s| |s m e].
  - destruct s; [now left|right; now left].
  - destruct s; discriminate.
  - discriminate.
  - destruct s; [discriminate|]. right. cbn [valid_binary] in Hv.
    rewrite d1_eq in H1. apply SFleb_pos in H1; [|exact Hv|reflexivity].
    rewrite F2R_one in H1. rewrite d255_eq, <- F2R_d255.
    apply (rounded_nonneg_le (F2R (Zpos m) e * F2R 8972014882652160 (-45)));
      [|reflexivity|].
    + exact (SFmul_correct false m e false 8972014882652160 (-45) Hv eq_refl).
    + pose proof (F2R_pos (Zpos m) e ltac:(lia)). rewrite F2R_d255. nra.
Qed.

Lemma deq_zero s : deq s d0 = true -> exists b, s = S754_zero b.
Proof.
  destruct s as [b|b| |b m e]; try discriminate.
  - intros _. now exists b.
  - destruct b; discriminate.
  - destruct b; discriminate.
Qed.

(** C6, amended: with saturation 0 and a value [v] of [0, 1] the three
    channels are equal to [v * 255.0] truncated toward zero, a byte; in
    the normalized variant for the hues that pass its assertions. *)
Theorem achromatic_truncated h s v :
  valid_binary prec emax v = true ->
  deq s d0 = true -> dle d0 v = true -> dle v d1 = true ->
  exists c,
    Ztrunc (dmul v d255) = Some c /\ 0 <= c <= 255
    /\ Degrees.hsv2rgb {| Degrees.hue := h; Degrees.saturation := s;
                          Degrees.value := v |}
       = {| red := c; green := c; blue := c |}
    /\ (dle d0 h = true -> dle h d1 = true ->
        Normalized.hsv2rgb {| Normalized.hue := h; Normalized.saturation := s;
                              Normalized.value := v |}
        = Some {| red := c; green := c; blue := c |}).
Proof.
  intros Hv Hs H0 H1.
  assert (Hc : exists c, Ztrunc (dmul v d255) = Some c /\ 0 <= c <= 255
                         /\ uchar_of_double (dmul v d255) = c).
  { destruct (value_times_255 v Hv H0 H1) as [->|Hp].
    - exists 0. repeat split; lia.
    - now apply uchar_of_small. }
  destruct Hc as (c & Hc & Hr & Hu). exists c.
  split; [exact Hc|]. split; [exact Hr|]. split.
  - unfold Degrees.hsv2rgb, Degrees.channels.
    cbn [Degrees.saturation Degrees.value]. rewrite Hs, Hu. reflexivity.
  - intros Hh0 Hh1. unfold Normalized.hsv2rgb, Normalized.asserts, Normalized.channels.
    cbn [Normalized.hue Normalized.saturation Normalized.value].
    rewrite Hh0, Hh1, H0, H1, Hs, Hu.
    destruct (deq_zero s Hs) as [b ->]. destruct b; reflexivity.
Qed.

Lemma achromatic_truncated_witness :
  exists c,
    Ztrunc (dmul (ddiv d1 (of_int 8)) d255) = Some c /\ 0 <= c <= 255
    /\ Degrees.hsv2rgb {| Degrees.hue := d0; Degrees.saturation := d0;
                          Degrees.value := ddiv d1 (of_int 8) |}
       = {| red := c; green := c; blue := c |}
    /\ (dle d0 d0 = true -> dle d0 d1 = true ->
        Normalized.hsv2rgb {| Normalized.hue := d0; Normalized.saturation := d0;
                              Normalized.value := ddiv d1 (of_int 8) |}
        = Some {| red := c; green := c; blue := c |}).
Proof.
  apply (achromatic_truncated d0 d0 (ddiv d1 (of_int 8))); reflexivity.
Defined.

(** *** The sector index *)

Lemma int_of_double_small k :
  0 <= k <= 5 -> int_of_double (binary_normalize prec emax k 0 false) = k.
Proof.
  intros Hk.
  assert (H : k = 0 \/ k = 1 \/ k = 2 \/ k = 3 \/ k = 4 \/ k = 5) by lia.
  destruct H as [->|[->|[->|[->|[->| ->]]]]]; reflexivity.
Qed.

(** The integer part of a float that is a zero or positive and below 6. *)
Lemma sector_of_small q :
  (exists b, q = S754_zero b) \/ nonneg_le (6 - / 1125899906842624) q ->
  0 <= int_of_double (trunc q) <= 5.
Proof.
  intros [[b ->]|[->|(m & e & -> & Hb & Hle)]];
    [change (int_of_double (trunc (S754_zero b))) with 0; lia
    |change (int_of_double (trunc (S754_zero false))) with 0; lia|].
  pose proof (shiftl_bounds (Zpos m) e) as [Hlo Hhi].
  pose proof (proj2 (Z.shiftl_nonneg (Zpos m) e) ltac:(lia)) as Hk0.
  assert (Hk5 : Z.shiftl (Zpos m) e <= 5).
  { apply Z.lt_succ_r, lt_IZR. change (Z.succ 5) with 6. lra. }
  unfold trunc. destruct (0 <=? e).
  - unfold int_of_double, Ztrunc. cbn [cond_Zopp].
    replace ((int_min <=? Z.shiftl (Zpos m) e) && (Z.shiftl (Zpos m) e <=? int_max))
      with true; [lia|].
    symmetry. apply andb_true_iff. unfold int_min, int_max.
    split; apply Z.leb_le; lia.
  - cbn [cond_Zopp]. rewrite int_of_double_small; lia.
Qed.

(** [degree] keeps such a float. *)
Lemma degree_small q :
  (exists b, q = S754_zero b) \/ nonneg_le (6 - / 1125899906842624) q ->
  Degrees.degree q = q.
Proof.
  intros [[b ->]|[->|(m & e & -> & Hb & Hle)]];
    [destruct b; reflexivity|reflexivity|].
  unfold Degrees.degree, clamp. change (dlt (S754_finite false m e) d0) with false.
  cbv iota. rewrite d360_eq.
  destruct (dlt (S754_finite false 6333186975989760 (-44)) (S754_finite false m e)) eqn:Hlt;
    [|reflexivity].
  apply SFltb_pos in Hlt; [|reflexivity|exact Hb]. rewrite F2R_d360 in Hlt. lra.
Qed.

(** A hue of [0, 360] is 360 or divides by 60 to a float below 6. *)
Lemma hue_quotient h :
  valid_binary prec emax h = true ->
  dle d0 h = true -> dle h d360 = true ->
  deq h d360 = true
  \/ (deq h d360 = false
      /\ ((exists b, ddiv h d60 = S754_zero b)
          \/ nonneg_le (6 - / 1125899906842624) (ddiv h d60))).
Proof.
  intros Hv H0 H360. destruct h as [s|s| |s m e].
  - right. split; [reflexivity|]. left. now exists (xorb s false).
  - destruct s; discriminate.
  - discriminate.
  - destruct s; [discriminate|]. cbn [valid_binary] in Hv.
    rewrite d360_eq in *.
    pose proof (SFcompare_pos_spec m e 6333186975989760 (-44) Hv eq_refl) as Hc.
    unfold deq, SFeqb. unfold dle, SFleb in H360.
    destruct (SFcompare (S754_finite false m e)
                (S754_finite false 6333186975989760 (-44))) as [[]|];
      [now left| |discriminate|discriminate].
    right. split; [reflexivity|]. right.
    rewrite F2R_d360 in Hc. rewrite <- F2R_pred6.
    apply (rounded_nonneg_le (F2R (Zpos m) e / F2R 8444249301319680 (-47)));
      [|reflexivity|].
    + exact (SFdiv_correct false m e false 8444249301319680 (-47)).
    + rewrite F2R_d60, F2R_pred6.
      destruct (grid_gap 6333186975989759 (-44) (Zpos m) e) as [Hg|Hg].
      * split; [lia|reflexivity].
      * lia.
      * apply bounded_spec in Hv. tauto.
      * rewrite F2R_pred360 in Hg. lra.
      * change (6333186975989759 + 1) with 6333186975989760 in Hg.
        rewrite F2R_d360 in Hg. lra.
Qed.

Lemma switch_default i : 0 <= i <= 5 -> switch i = Default <-> i = 5.
Proof.
  intros Hi.
  assert (H : i = 0 \/ i = 1 \/ i = 2 \/ i = 3 \/ i = 4 \/ i = 5) by lia.
  destruct H as [->|[->|[->|[->|[->| ->]]]]]; cbn; split; congruence || lia.
Qed.

(** C10: for a hue of [0, 360] the sector index is one of 0, ..., 5, in
    [main.cpp] (where the quotient goes through the clamp of [degree]) as
    in the normalized variant's arithmetic, and the [default] label of the
    [switch] is reached exactly for index 5. *)
Theorem sector_range h :
  valid_binary prec emax h = true ->
  dle d0 h = true -> dle h d360 = true ->
  0 <= Degrees.sector h <= 5
  /\ (switch (Degrees.sector h) = Default <-> Degrees.sector h = 5)
  /\ Normalized.sector h = Degrees.sector h.
Proof.
  intros Hv H0 H360.
  assert (Hs : 0 <= Degrees.sector h <= 5
               /\ Normalized.sector h = Degrees.sector h).
  { unfold Degrees.sector, Normalized.sector, Degrees.sector_hue,
      Normalized.sector_hue.
    destruct (hue_quotient h Hv H0 H360) as [->|[-> Hq]].
    - split; [|reflexivity].
      change (int_of_double (trunc (Degrees.degree d0))) with 0. lia.
    - rewrite (degree_small _ Hq). split; [|reflexivity].
      now apply sector_of_small. }
  destruct Hs as [Hr Hn]. split; [exact Hr|]. split; [|exact Hn].
  now apply switch_default.
Qed.

Lemma sector_range_witness :
  0 <= Degrees.sector (of_int 359) <= 5
  /\ (switch (Degrees.sector (of_int 359)) = Default
      <-> Degrees.sector (of_int 359) = 5)
  /\ Normalized.sector (of_int 359) = Degrees.sector (of_int 359).
Proof. apply (sector_range (of_int 359)); reflexivity. Defined.

End ColorFacts.

(** ** Pixels, rows and whole canvases *)

Module PixelFacts.
Import MachineInt MachineIntFacts Canvas CanvasFacts Pixels.

(** Whatever the canvas and the point, a write that returns keeps the
    size and the length of the buffer. *)
Lemma write_shape c p color c' :
  write c p color = Some c' ->
  size c' = size c /\ length (pixels c') = length (pixels c).
Proof.
  unfold write. destruct (negb (in_bounds c p)).
  - intros [= <-]. now split.
  - destruct (_ <? _); [|discriminate]. intros [= <-]. cbn [size pixels].
    now rewrite !length_insert.
Qed.

Lemma fits_int_shape c c' :
  fits_int c -> size c' = size c -> length (pixels c') = length (pixels c) ->
  fits_int c'.
Proof.
  intros [(Hw & Hh & Hl) Hsz] Hs Hlen. unfold fits_int, well_formed.
  rewrite Hs, Hlen. auto.
Qed.

(** Two pixels of a canvas have offsets three bytes apart at least. *)
Lemma offset_apart c p q :
  in_bounds c p = true -> in_bounds c q = true -> p <> q ->
  offset c p + 3 <= offset c q \/ offset c q + 3 <= offset c p.
Proof.
  rewrite !in_bounds_spec. intros [Hpx Hpy] [Hqx Hqy] Hne. unfold offset.
  assert (Hd : x p <> x q \/ y p <> y q).
  { destruct p as [px py], q as [qx qy]. cbn in *.
    destruct (Z.eq_dec px qx), (Z.eq_dec py qy); subst; tauto. }
  destruct (Z.lt_trichotomy (y p) (y q)) as [Hlt|[Heq|Hgt]].
  - left. assert ((y p + 1) * width (size c) <= y q * width (size c)) by nia.
    lia.
  - rewrite Heq. lia.
  - right. assert ((y q + 1) * width (size c) <= y p * width (size c)) by nia.
    lia.
Qed.

Lemma offset_nonneg c p : in_bounds c p = true -> 0 <= offset c p.
Proof. rewrite in_bounds_spec. unfold offset. nia. Qed.

(** The effect of an in-bounds write on what the pixels show. *)
Lemma write_holds c p color :
  fits_int c -> in_bounds c p = true ->
  exists c',
    write c p color = Some c' /\ size c' = size c
    /\ length (pixels c') = length (pixels c)
    /\ holds c' p color
    /\ forall q col, in_bounds c q = true -> q <> p ->
                     holds c q col -> holds c' q col.
Proof.
  intros [Hwf Hsz] Hin.
  destruct (write_in_bounds c p color Hwf Hin Hsz) as (c' & Hw & Hs & Hst).
  exists c'. split; [exact Hw|]. split; [exact Hs|].
  destruct Hst as (Hlen & Hr & Hg & Hb & Hframe).
  split; [exact Hlen|]. split.
  - unfold holds, offset. rewrite Hs. exact (conj Hr (conj Hg Hb)).
  - intros q col Hq Hne (H0 & H1 & H2).
    pose proof (offset_apart c p q Hin Hq ltac:(congruence)) as Hap.
    pose proof (offset_nonneg c p Hin). pose proof (offset_nonneg c q Hq).
    unfold holds. replace (offset c' q) with (offset c q)
      by (unfold offset; now rewrite Hs).
    rewrite !Hframe by lia. auto.
Qed.


Lemma write_in_bounds_none_q c p color :
  in_bounds c p = false -> write c p color = Some c.
Proof. intros Hp. unfold write. now rewrite Hp. Qed.

(** X1: on a canvas whose byte count fits an [int], a write to a pixel of
    the canvas returns; afterwards the pixel shows the colour written and
    every other pixel shows what it showed before. *)
Theorem write_stores_pixel c p color :
  fits_int c -> in_bounds c p = true ->
  exists c',
    write c p color = Some c' /\ size c' = size c
    /\ length (pixels c') = length (pixels c)
    /\ holds c' p color
    /\ forall q col, in_bounds c q = true -> q <> p ->
                     holds c q col -> holds c' q col.
Proof. apply write_holds. Qed.

Lemma fits_int_new_2x2 : fits_int (new {| width := 2; height := 2 |}).
Proof.
  unfold fits_int, well_formed, is_int, int_min, int_max.
  cbn [size new width height]. repeat split; try lia; reflexivity.
Qed.

Lemma write_stores_pixel_witness :
  exists c',
    write (new {| width := 2; height := 2 |}) {| x := 1; y := 1 |}
          {| red := 1; green := 2; blue := 3 |} = Some c'
    /\ size c' = size (new {| width := 2; height := 2 |})
    /\ length (pixels c')
       = length (pixels (new {| width := 2; height := 2 |}))
    /\ holds c' {| x := 1; y := 1 |} {| red := 1; green := 2; blue := 3 |}
    /\ forall q col,
         in_bounds (new {| width := 2; height := 2 |}) q = true ->
         q <> {| x := 1; y := 1 |} ->
         holds (new {| width := 2; height := 2 |}) q col -> holds c' q col.
Proof.
  apply (write_stores_pixel (new {| width := 2; height := 2 |})).
  - exact fits_int_new_2x2.
  - reflexivity.
Defined.

Lemma in_bounds_same_size c c' p :
  size c' = size c -> in_bounds c' p = in_bounds c p.
Proof. intros Hs. unfold in_bounds. now rewrite Hs. Qed.

Lemma insert3_twice (l : list Z) n a b :
  <[(n + 2)%nat := blue b]>
    (<[(n + 1)%nat := green b]>
       (<[n := red b]>
          (<[(n + 2)%nat := blue a]>
             (<[(n + 1)%nat := green a]> (<[n := red a]> l)))))
  = <[(n + 2)%nat := blue b]>
      (<[(n + 1)%nat := green b]> (<[n := red b]> l)).
Proof.
  rewrite (list_insert_insert_ne _ n (n + 2)) by lia.
  rewrite (list_insert_insert_ne _ n (n + 1)) by lia.
  rewrite list_insert_insert_eq.
  rewrite (list_insert_insert_ne _ (n + 1) (n + 2)) by lia.
  now rewrite !list_insert_insert_eq.
Qed.

(** X2: whatever the canvas and the point, a second write to the pixel of
    a write that returned has the result of the second write alone: the
    first colour leaves no trace. *)
Theorem write_overwrites c p a b c1 :
  write c p a = Some c1 -> write c1 p b = write c p b.
Proof.
  unfold write. destruct (in_bounds c p) eqn:Hin; cbn [negb].
  - destruct (_ <? _) eqn:Hlt; [|discriminate]. intros [= <-].
    unfold in_bounds, pixel_index. cbn [size pixels].
    fold (in_bounds c p). rewrite Hin. cbn [negb].
    fold (pixel_index c p). rewrite !length_insert, Hlt.
    now rewrite insert3_twice.
  - intros [= <-]. now rewrite Hin.
Qed.

Lemma write_overwrites_witness :
  write {| size := {| width := 2; height := 2 |};
           pixels := [255; 255; 255; 255; 255; 255; 255; 255; 255; 1; 2; 3] |}
        {| x := 1; y := 1 |} {| red := 4; green := 5; blue := 6 |}
  = write (new {| width := 2; height := 2 |})
          {| x := 1; y := 1 |} {| red := 4; green := 5; blue := 6 |}.
Proof.
  apply (write_overwrites (new {| width := 2; height := 2 |})
           {| x := 1; y := 1 |} {| red := 1; green := 2; blue := 3 |}).
  reflexivity.
Defined.

Lemma stored_lookup n color old new j :
  stored n color old new ->
  new !! j = if decide (j = n) then Some (red color)
             else if decide (j = (n + 1)%nat) then Some (green color)
             else if decide (j = (n + 2)%nat) then Some (blue color)
             else old !! j.
Proof.
  intros (_ & Hr & Hg & Hb & Hf).
  repeat (destruct (decide _) as [->|?]; [assumption|]). now apply Hf.
Qed.

(** X3: on a canvas whose byte count fits an [int], writes to two
    different points commute. *)
Theorem write_commute c p q a b :
  fits_int c -> p <> q ->
  write c p a ≫= (fun c' => write c' q b)
  = write c q b ≫= (fun c' => write c' p a).
Proof.
  intros Hfit Hne.
  destruct (in_bounds c p) eqn:Hp; destruct (in_bounds c q) eqn:Hq.
  - destruct Hfit as [Hwf Hsz].
    destruct (write_in_bounds c p a Hwf Hp Hsz) as (cp & Hwp & Hsp & Hstp).
    destruct (write_in_bounds c q b Hwf Hq Hsz) as (cq & Hwq & Hsq & Hstq).
    assert (Hfp : fits_int cp).
    { apply (fits_int_shape c); [now split|exact Hsp|apply Hstp]. }
    assert (Hfq : fits_int cq).
    { apply (fits_int_shape c); [now split|exact Hsq|apply Hstq]. }
    destruct (write_in_bounds cp q b (proj1 Hfp)
                ltac:(now rewrite (in_bounds_same_size c cp q Hsp))
                (proj2 Hfp)) as (cpq & Hwpq & Hspq & Hstpq).
    destruct (write_in_bounds cq p a (proj1 Hfq)
                ltac:(now rewrite (in_bounds_same_size c cq p Hsq))
                (proj2 Hfq)) as (cqp & Hwqp & Hsqp & Hstqp).
    rewrite Hwp, Hwq. cbn [mbind option_bind]. rewrite Hwpq, Hwqp.
    f_equal.
    replace (offset cp q) with (offset c q) in Hstpq
      by (unfold offset; now rewrite Hsp).
    replace (offset cq p) with (offset c p) in Hstqp
      by (unfold offset; now rewrite Hsq).
    pose proof (offset_apart c p q Hp Hq Hne) as Hap.
    pose proof (offset_nonneg c p Hp). pose proof (offset_nonneg c q Hq).
    destruct cpq as [s1 l1], cqp as [s2 l2]. cbn [size pixels] in *.
    f_equal; [congruence|].
    apply list_eq. intros j.
    rewrite (stored_lookup _ _ _ _ j Hstpq), (stored_lookup _ _ _ _ j Hstqp).
    rewrite (stored_lookup _ _ _ _ j Hstp), (stored_lookup _ _ _ _ j Hstq).
    repeat (destruct (decide _) as [?|?]; try lia); reflexivity.
  - rewrite (write_in_bounds_none_q c q b Hq). cbn [mbind option_bind].
    destruct (write c p a) as [cp|] eqn:Hw; cbn [mbind option_bind];
      [|reflexivity].
    apply write_in_bounds_none_q.
    now rewrite (in_bounds_same_size c cp q (proj1 (write_shape _ _ _ _ Hw))).
  - rewrite (write_in_bounds_none_q c p a Hp). cbn [mbind option_bind].
    destruct (write c q b) as [cq|] eqn:Hw; cbn [mbind option_bind];
      [|reflexivity].
    symmetry. apply write_in_bounds_none_q.
    now rewrite (in_bounds_same_size c cq p (proj1 (write_shape _ _ _ _ Hw))).
  - rewrite (write_in_bounds_none_q c p a Hp), (write_in_bounds_none_q c q b Hq).
    cbn [mbind option_bind].
    now rewrite (write_in_bounds_none_q c p a Hp), (write_in_bounds_none_q c q b Hq).
Qed.

Lemma write_commute_witness :
  write (new {| width := 2; height := 2 |}) {| x := 0; y := 1 |}
        {| red := 1; green := 2; blue := 3 |}
    ≫= (fun c' => write c' {| x := 1; y := 0 |}
                        {| red := 4; green := 5; blue := 6 |})
  = write (new {| width := 2; height := 2 |}) {| x := 1; y := 0 |}
          {| red := 4; green := 5; blue := 6 |}
      ≫= (fun c' => write c' {| x := 0; y := 1 |}
                          {| red := 1; green := 2; blue := 3 |}).
Proof.
  apply (write_commute (new {| width := 2; height := 2 |})).
  - exact fits_int_new_2x2.
  - discriminate.
Defined.

(** X4: for dimensions an [int] holds, [area] is the product of width and
    height exactly when that product is not negative; a negative product
    (one dimension negative, the other positive) gives an area of more
    than [2 ^ 63]. *)
Theorem area_exact_iff s :
  is_int (width s) -> is_int (height s) ->
  (area s = width s * height s <-> 0 <= width s * height s)
  /\ (width s * height s < 0 -> 2 ^ 63 < area s).
Proof.
  unfold is_int, int_min, int_max, area, size_mul, to_size_t.
  intros Hw Hh.
  rewrite <- Z.mul_mod by lia.
  assert (Hb : - 2 ^ 62 <= width s * height s <= 2 ^ 62) by nia.
  destruct (Z_lt_le_dec (width s * height s) 0) as [Hneg|Hpos].
  - assert (E : (width s * height s) mod 2 ^ 64
                = width s * height s + 2 ^ 64).
    { symmetry. apply (Z.mod_unique_pos _ _ (-1)); lia. }
    rewrite E. split; [lia|]. lia.
  - rewrite Z.mod_small by lia. split; [tauto|lia].
Qed.

Lemma area_exact_iff_witness :
  (area {| width := -1; height := 3 |} = -1 * 3 <-> 0 <= -1 * 3)
  /\ (-1 * 3 < 0 -> 2 ^ 63 < area {| width := -1; height := 3 |}).
Proof.
  apply (area_exact_iff {| width := -1; height := 3 |});
    unfold is_int, int_min, int_max; cbn [width height]; lia.
Defined.

End PixelFacts.

(** ** The pixel loops: what [paint_complex] leaves on the canvas *)

Module RenderFacts.
Import MachineInt MachineIntFacts Canvas CanvasFacts Pixels PixelFacts IEEE.

(** A row of writes: the columns of [l], each once, with the colours
    [colfun] gives them. *)
Lemma row_writes c0 py (colfun : Z -> option RGBColor) l :
  fits_int c0 -> 0 <= py < height (size c0) -> NoDup l ->
  (forall px, px ∈ l -> 0 <= px < width (size c0)) ->
  (forall px, px ∈ l -> is_Some (colfun px)) ->
  forall c1, size c1 = size c0 -> length (pixels c1) = length (pixels c0) ->
  exists c',
    foldl (fun acc px =>
             acc ≫= fun c'' =>
               colfun px ≫= fun col => write c'' {| x := px; y := py |} col)
          (Some c1) l = Some c'
    /\ size c' = size c0 /\ length (pixels c') = length (pixels c0)
    /\ (forall px col, px ∈ l -> colfun px = Some col ->
                       holds c' {| x := px; y := py |} col)
    /\ (forall q col, in_bounds c0 q = true -> y q <> py \/ x q ∉ l ->
                      holds c1 q col -> holds c' q col).
Proof.
  intros Hfit Hpy. induction l as [|a l IH]; intros Hnd Hrng Hsome c1 Hs Hl.
  - exists c1. cbn [foldl]. split; [reflexivity|]. split; [assumption|].
    split; [assumption|]. split.
    + intros px col Hpx. inversion Hpx.
    + auto.
  - apply NoDup_cons in Hnd. destruct Hnd as [Ha Hnd].
    destruct (Hsome a ltac:(left)) as [cola Hcola].
    assert (Hin : in_bounds c1 {| x := a; y := py |} = true).
    { rewrite (in_bounds_same_size c0 c1 _ Hs). apply in_bounds_spec. cbn [x y].
      split; [apply Hrng; left|exact Hpy]. }
    destruct (write_holds c1 {| x := a; y := py |} cola
                (fits_int_shape c0 c1 Hfit Hs Hl) Hin)
      as (c2 & Hw & Hs2 & Hl2 & Hh2 & Hf2).
    destruct (IH Hnd (fun px H => Hrng px (list_elem_of_further _ _ _ H))
                (fun px H => Hsome px (list_elem_of_further _ _ _ H))
                c2 ltac:(congruence) ltac:(congruence))
      as (c' & Hfold & Hs' & Hl' & Hrow & Hframe).
    exists c'. split.
    { cbn [foldl]. cbn [mbind option_bind]. rewrite Hcola.
      cbn [mbind option_bind]. rewrite Hw. exact Hfold. }
    split; [exact Hs'|]. split; [exact Hl'|]. split.
    + intros px col Hpx Hcol. apply elem_of_cons in Hpx.
      destruct Hpx as [->|Hpx]; [|now apply Hrow].
      assert (col = cola) by congruence. subst col.
      apply Hframe; [|right; exact Ha|exact Hh2].
      now rewrite <- (in_bounds_same_size c0 c1 _ Hs).
    + intros q col Hq Hout Hh. apply Hframe; [exact Hq| |].
      * destruct Hout as [Hy|Hx]; [now left|right].
        intros Hx'. apply Hx. now right.
      * apply Hf2; [now rewrite (in_bounds_same_size c0 c1 _ Hs)| |exact Hh].
        intros ->. cbn [x y] in Hout. destruct Hout as [Hy|Hx]; [lia|].
        apply Hx. left.
Qed.

(** A row stops at the first column whose colour is refused. *)
Lemma foldl_bind_none {A} (g : option Canvas -> A -> option Canvas) l :
  (forall a, g None a = None) -> foldl g None l = None.
Proof. intros Hg. induction l as [|a l IH]; cbn [foldl]; [|rewrite Hg]; auto. Qed.

Lemma row_aborts c1 py (colfun : Z -> option RGBColor) l px :
  px ∈ l -> colfun px = None ->
  foldl (fun acc px =>
           acc ≫= fun c'' =>
             colfun px ≫= fun col => write c'' {| x := px; y := py |} col)
        (Some c1) l = None.
Proof.
  intros Hpx Hnone. generalize (Some c1). induction l as [|a l IH]; intros acc.
  - inversion Hpx.
  - cbn [foldl]. apply elem_of_cons in Hpx. destruct Hpx as [->|Hpx].
    + rewrite Hnone. destruct acc; cbn [mbind option_bind];
        now apply foldl_bind_none.
    + now apply IH.
Qed.

(** The rows of [l], each once, painted by [rowf]. *)
Lemma rows_painted c0 (rowf : Z -> Canvas -> option Canvas)
    (colf : Z -> Z -> option RGBColor) l :
  fits_int c0 -> NoDup l ->
  (forall py, py ∈ l -> 0 <= py < height (size c0)) ->
  (forall py c1, py ∈ l -> size c1 = size c0 ->
     length (pixels c1) = length (pixels c0) ->
     exists c', rowf py c1 = Some c'
       /\ size c' = size c0 /\ length (pixels c') = length (pixels c0)
       /\ (forall px col, 0 <= px < width (size c0) ->
                          colf px py = Some col ->
                          holds c' {| x := px; y := py |} col)
       /\ (forall q cq, in_bounds c0 q = true -> y q <> py ->
                        holds c1 q cq -> holds c' q cq)) ->
  forall c1, size c1 = size c0 -> length (pixels c1) = length (pixels c0) ->
  exists c',
    foldl (fun acc py => acc ≫= rowf py) (Some c1) l = Some c'
    /\ size c' = size c0 /\ length (pixels c') = length (pixels c0)
    /\ (forall px py col, py ∈ l -> 0 <= px < width (size c0) ->
                          colf px py = Some col ->
                          holds c' {| x := px; y := py |} col)
    /\ (forall q cq, in_bounds c0 q = true -> y q ∉ l ->
                     holds c1 q cq -> holds c' q cq).
Proof.
  intros Hfit. induction l as [|a l IH]; intros Hnd Hrng Hrow c1 Hs Hl.
  - exists c1. cbn [foldl]. split; [reflexivity|]. split; [assumption|].
    split; [assumption|]. split.
    + intros px py col Hpy. inversion Hpy.
    + auto.
  - apply NoDup_cons in Hnd. destruct Hnd as [Ha Hnd].
    destruct (Hrow a c1 ltac:(left) Hs Hl) as (c2 & Hr & Hs2 & Hl2 & Hh2 & Hf2).
    destruct (IH Hnd (fun py H => Hrng py (list_elem_of_further _ _ _ H))
                (fun py c H => Hrow py c (list_elem_of_further _ _ _ H))
                c2 Hs2 Hl2)
      as (c' & Hfold & Hs' & Hl' & Hall & Hframe).
    exists c'. split.
    { cbn [foldl]. cbn [mbind option_bind]. rewrite Hr. exact Hfold. }
    split; [exact Hs'|]. split; [exact Hl'|]. split.
    + intros px py col Hpy Hpx Hcol. apply elem_of_cons in Hpy.
      destruct Hpy as [->|Hpy]; [|now apply Hall].
      apply Hframe; [|exact Ha|now apply Hh2].
      apply in_bounds_spec. cbn [x y]. split; [exact Hpx|]. apply Hrng. left.
    + intros q cq Hq Hout Hh. apply Hframe; [exact Hq| |].
      * intros Hy. apply Hout. now right.
      * apply Hf2; [exact Hq| |exact Hh]. intros Hy. apply Hout.
        rewrite Hy. left.
Qed.

(** A loop of rows stops at the first row that stops. *)
Lemma rows_abort c (rowf : Z -> Canvas -> option Canvas) l py :
  py ∈ l ->
  (forall py' c1 c', rowf py' c1 = Some c' -> size c' = size c1) ->
  (forall c1, size c1 = size c -> rowf py c1 = None) ->
  forall acc, (forall c1, acc = Some c1 -> size c1 = size c) ->
  foldl (fun acc py => acc ≫= rowf py) acc l = None.
Proof.
  intros Hpy Hsize Hnone. induction l as [|a l IH]; intros acc Hacc.
  - inversion Hpy.
  - cbn [foldl]. apply elem_of_cons in Hpy. destruct Hpy as [->|Hpy].
    + destruct acc as [c1|]; cbn [mbind option_bind].
      * rewrite Hnone by now apply Hacc. now apply foldl_bind_none.
      * now apply foldl_bind_none.
    + apply IH; [exact Hpy|]. intros c1 Hc1.
      destruct acc as [c0|]; cbn [mbind option_bind] in Hc1; [|discriminate].
      rewrite (Hsize _ _ _ Hc1). now apply Hacc.
Qed.

(** A row of writes that returns keeps the size. *)
Lemma row_size py (colfun : Z -> option RGBColor) l :
  forall c1 c',
  foldl (fun acc px =>
           acc ≫= fun c'' =>
             colfun px ≫= fun col => write c'' {| x := px; y := py |} col)
        (Some c1) l = Some c' ->
  size c' = size c1.
Proof.
  induction l as [|a l IH]; intros c1 c'; cbn [foldl].
  - now intros [= ->].
  - cbn [mbind option_bind]. destruct (colfun a) as [col|]; cbn [mbind option_bind].
    + destruct (write c1 _ col) as [c2|] eqn:Hw.
      * intros Hf. rewrite (IH _ _ Hf). now apply write_shape in Hw.
      * rewrite foldl_bind_none by reflexivity. discriminate.
    + rewrite foldl_bind_none by reflexivity. discriminate.
Qed.

(** Two canvases of one size whose pixels show the same colours have the
    same buffer. *)
Lemma same_pixels c1 c2 :
  fits_int c1 -> fits_int c2 -> size c1 = size c2 ->
  0 <= width (size c1) ->
  (forall p, in_bounds c1 p = true ->
             exists col, holds c1 p col /\ holds c2 p col) ->
  pixels c1 = pixels c2.
Proof.
  intros [(_ & _ & Hl1) _] [(_ & _ & Hl2) _] Hs Hw Hall.
  rewrite <- Hs in Hl2.
  apply list_eq. intros i.
  destruct (Nat.lt_ge_cases i (length (pixels c1))) as [Hi|Hi].
  - set (W := width (size c1)) in *. set (H := height (size c1)) in *.
    assert (Hpos : 0 < W * H * 3) by lia.
    assert (HWpos : 0 < W).
    { destruct (Z.eq_dec W 0) as [H0|H0]; [rewrite H0 in Hpos|]; lia. }
    assert (HHpos : 0 < H) by nia.
    set (k := Z.of_nat i / 3).
    assert (Hk : Z.of_nat i = k * 3 + Z.of_nat i mod 3).
    { unfold k. pose proof (Z.div_mod (Z.of_nat i) 3). lia. }
    pose proof (Z.mod_pos_bound (Z.of_nat i) 3 ltac:(lia)) as Hj.
    assert (Hk0 : 0 <= k) by (unfold k; apply Z.div_pos; lia).
    assert (HkWH : k < W * H) by lia.
    pose proof (Z.div_mod k W ltac:(lia)) as Hdm.
    pose proof (Z.mod_pos_bound k W HWpos) as Hm.
    assert (Hq0 : 0 <= k / W) by (apply Z.div_pos; lia).
    assert (HqH : k / W < H) by (apply Z.div_lt_upper_bound; lia).
    destruct (Hall {| x := k mod W; y := k / W |}) as (col & Hc1 & Hc2).
    { apply in_bounds_spec. cbn [x y]. fold W H. lia. }
    unfold holds in Hc1, Hc2.
    replace (offset c2 _) with (offset c1 {| x := k mod W; y := k / W |}) in Hc2
      by (unfold offset; now rewrite Hs).
    assert (Hoff : offset c1 {| x := k mod W; y := k / W |} = k * 3).
    { unfold offset. cbn [x y]. fold W. lia. }
    rewrite Hoff in Hc1, Hc2.
    destruct Hc1 as (A0 & A1 & A2), Hc2 as (B0 & B1 & B2).
    assert (Hcases : i = Z.to_nat (k * 3) \/ i = (Z.to_nat (k * 3) + 1)%nat
                     \/ i = (Z.to_nat (k * 3) + 2)%nat) by lia.
    destruct Hcases as [E|[E|E]]; rewrite E; congruence.
  - rewrite !lookup_ge_None_2; [reflexivity| |]; lia.
Qed.

Section Render.
Context (L : libm) (f : complex -> complex).

Lemma degrees_row c0 xRange yf py c1 :
  fits_int c0 -> 0 <= py < height (size c0) ->
  size c1 = size c0 -> length (pixels c1) = length (pixels c0) ->
  exists c',
    Degrees.paint_row L f xRange yf py c1 = Some c'
    /\ size c' = size c0 /\ length (pixels c') = length (pixels c0)
    /\ (forall px col, 0 <= px < width (size c0) ->
          Some (Degrees.color L f
                  (Degrees.plane_coord (width (size c0)) xRange px) yf)
          = Some col ->
          holds c' {| x := px; y := py |} col)
    /\ (forall q cq, in_bounds c0 q = true -> y q <> py ->
                     holds c1 q cq -> holds c' q cq).
Proof.
  intros Hfit Hpy Hs Hl. unfold Degrees.paint_row. rewrite Hs.
  destruct (row_writes c0 py
              (fun px => Some (Degrees.color L f
                 (Degrees.plane_coord (width (size c0)) xRange px) yf))
              (seqZ 0 (width (size c0))) Hfit Hpy (NoDup_seqZ _ _)) with (c1 := c1)
    as (c' & Hfold & Hs' & Hl' & Hrow & Hframe); try assumption.
  - intros px Hpx. apply elem_of_seqZ in Hpx. lia.
  - intros px _. eauto.
  - exists c'. split; [exact Hfold|]. split; [exact Hs'|]. split; [exact Hl'|].
    split.
    + intros px col Hpx Hcol. apply Hrow; [|exact Hcol].
      apply elem_of_seqZ. lia.
    + intros q cq Hq Hy. apply Hframe; [exact Hq|now left].
Qed.

Lemma degrees_painted c xRange yRange :
  fits_int c ->
  exists c',
    Degrees.paint_complex L f c xRange yRange = Some c'
    /\ size c' = size c /\ length (pixels c') = length (pixels c)
    /\ forall px py,
         0 <= px < width (size c) -> 0 <= py < height (size c) ->
         holds c' {| x := px; y := py |}
           (Degrees.color L f
              (Degrees.plane_coord (width (size c)) xRange px)
              (Degrees.plane_coord (height (size c)) yRange py)).
Proof.
  intros Hfit. unfold Degrees.paint_complex.
  assert (Hrng : forall py, py ∈ seqZ 0 (height (size c)) ->
                            0 <= py < height (size c)).
  { intros py Hpy. apply elem_of_seqZ in Hpy. lia. }
  destruct (rows_painted c
              (fun py c' => Degrees.paint_row L f xRange
                 (Degrees.plane_coord (height (size c)) yRange py) py c')
              (fun px py => Some (Degrees.color L f
                 (Degrees.plane_coord (width (size c)) xRange px)
                 (Degrees.plane_coord (height (size c)) yRange py)))
              (seqZ 0 (height (size c))) Hfit (NoDup_seqZ _ _) Hrng
              (fun py c1 Hpy Hs Hl =>
                 degrees_row c xRange _ py c1 Hfit (Hrng py Hpy) Hs Hl)
              c eq_refl eq_refl)
    as (c' & Hfold & Hs' & Hl' & Hall & _).
  exists c'. split; [exact Hfold|]. split; [exact Hs'|]. split; [exact Hl'|].
  intros px py Hpx Hpy. apply Hall; [|exact Hpx|reflexivity].
  apply elem_of_seqZ. lia.
Qed.

Lemma normalized_row c0 xRange yf py c1 :
  fits_int c0 -> 0 <= py < height (size c0) ->
  size c1 = size c0 -> length (pixels c1) = length (pixels c0) ->
  (forall px, 0 <= px < width (size c0) ->
     is_Some (Normalized.color L f
                (Normalized.plane_coord (width (size c0)) xRange px) yf)) ->
  exists c',
    Normalized.paint_row L f xRange yf py c1 = Some c'
    /\ size c' = size c0 /\ length (pixels c') = length (pixels c0)
    /\ (forall px col, 0 <= px < width (size c0) ->
          Normalized.color L f
            (Normalized.plane_coord (width (size c0)) xRange px) yf
          = Some col ->
          holds c' {| x := px; y := py |} col)
    /\ (forall q cq, in_bounds c0 q = true -> y q <> py ->
                     holds c1 q cq -> holds c' q cq).
Proof.
  intros Hfit Hpy Hs Hl Hsome. unfold Normalized.paint_row. rewrite Hs.
  destruct (row_writes c0 py
              (fun px => Normalized.color L f
                 (Normalized.plane_coord (width (size c0)) xRange px) yf)
              (seqZ 0 (width (size c0))) Hfit Hpy (NoDup_seqZ _ _)) with (c1 := c1)
    as (c' & Hfold & Hs' & Hl' & Hrow & Hframe); try assumption.
  - intros px Hpx. apply elem_of_seqZ in Hpx. lia.
  - intros px Hpx. apply elem_of_seqZ in Hpx. apply Hsome. lia.
  - exists c'. split; [exact Hfold|]. split; [exact Hs'|]. split; [exact Hl'|].
    split.
    + intros px col Hpx Hcol. apply Hrow; [|exact Hcol].
      apply elem_of_seqZ. lia.
    + intros q cq Hq Hy. apply Hframe; [exact Hq|now left].
Qed.

Lemma normalized_painted c xRange yRange :
  fits_int c ->
  (forall px py,
     0 <= px < width (size c) -> 0 <= py < height (size c) ->
     is_Some (Normalized.color L f
                (Normalized.plane_coord (width (size c)) xRange px)
                (Normalized.plane_coord (height (size c)) yRange py))) ->
  exists c',
    Normalized.paint_complex L f c xRange yRange = Some c'
    /\ size c' = size c /\ length (pixels c') = length (pixels c)
    /\ forall px py col,
         0 <= px < width (size c) -> 0 <= py < height (size c) ->
         Normalized.color L f
           (Normalized.plane_coord (width (size c)) xRange px)
           (Normalized.plane_coord (height (size c)) yRange py) = Some col ->
         holds c' {| x := px; y := py |} col.
Proof.
  intros Hfit Hsome. unfold Normalized.paint_complex.
  assert (Hrng : forall py, py ∈ seqZ 0 (height (size c)) ->
                            0 <= py < height (size c)).
  { intros py Hpy. apply elem_of_seqZ in Hpy. lia. }
  destruct (rows_painted c
              (fun py c' => Normalized.paint_row L f xRange
                 (Normalized.plane_coord (height (size c)) yRange py) py c')
              (fun px py => Normalized.color L f
                 (Normalized.plane_coord (width (size c)) xRange px)
                 (Normalized.plane_coord (height (size c)) yRange py))
              (seqZ 0 (height (size c))) Hfit (NoDup_seqZ _ _) Hrng
              (fun py c1 Hpy Hs Hl =>
                 normalized_row c xRange _ py c1 Hfit (Hrng py Hpy) Hs Hl
                   (fun px Hpx => Hsome px py Hpx (Hrng py Hpy)))
              c eq_refl eq_refl)
    as (c' & Hfold & Hs' & Hl' & Hall & _).
  exists c'. split; [exact Hfold|]. split; [exact Hs'|]. split; [exact Hl'|].
  intros px py col Hpx Hpy. apply Hall; [|exact Hpx].
  apply elem_of_seqZ. lia.
Qed.

(** X5: [paint_complex] of [main.cpp], on a canvas whose byte count fits
    an [int], returns for every function and every [libm]; the canvas
    keeps its size, and every pixel [(px, py)] shows [color] of its own
    plane coordinates. *)
Theorem paint_complex_pixels c xRange yRange :
  fits_int c ->
  exists c',
    Degrees.paint_complex L f c xRange yRange = Some c'
    /\ size c' = size c /\ length (pixels c') = length (pixels c)
    /\ forall px py,
         0 <= px < width (size c) -> 0 <= py < height (size c) ->
         holds c' {| x := px; y := py |}
           (Degrees.color L f
              (Degrees.plane_coord (width (size c)) xRange px)
              (Degrees.plane_coord (height (size c)) yRange py)).
Proof. apply degrees_painted. Qed.

(** X6: [paint_complex] of [main.cpp] overwrites every byte: two
    canvases of one size, whatever their buffers held, are painted to the
    same canvas. *)
Theorem paint_complex_overwrites c1 c2 xRange yRange :
  fits_int c1 -> fits_int c2 -> size c1 = size c2 ->
  0 <= width (size c1) ->
  Degrees.paint_complex L f c1 xRange yRange
  = Degrees.paint_complex L f c2 xRange yRange.
Proof.
  intros Hf1 Hf2 Hs Hw.
  destruct (degrees_painted c1 xRange yRange Hf1) as (r1 & -> & Hs1 & Hl1 & H1).
  destruct (degrees_painted c2 xRange yRange Hf2) as (r2 & -> & Hs2 & Hl2 & H2).
  f_equal.
  assert (Hp : pixels r1 = pixels r2).
  { apply same_pixels.
    - now apply (fits_int_shape c1).
    - now apply (fits_int_shape c2).
    - congruence.
    - now rewrite Hs1.
    - intros [px py] Hin. apply in_bounds_spec in Hin. cbn [x y] in Hin.
      rewrite Hs1 in Hin. eexists. split.
      + apply H1; apply Hin.
      + rewrite Hs. rewrite Hs in Hin. apply H2; apply Hin. }
  destruct r1, r2. cbn [size pixels] in *. f_equal; congruence.
Qed.

(** X7: [complex_plot] up to the encoder: for a positive width and
    height whose byte count fits an [int], the canvas constructed and then
    painted is returned, and no pixel is left as constructed: each shows
    [color] of its plane coordinates. *)
Theorem complex_plot_canvas s xRange yRange :
  0 < width s -> 0 < height s -> width s * height s * 3 <= int_max ->
  exists c',
    Degrees.paint_complex L f (new s) xRange yRange = Some c'
    /\ size c' = s
    /\ Z.of_nat (length (pixels c')) = width s * height s * 3
    /\ forall px py,
         0 <= px < width s -> 0 <= py < height s ->
         holds c' {| x := px; y := py |}
           (Degrees.color L f (Degrees.plane_coord (width s) xRange px)
                              (Degrees.plane_coord (height s) yRange py)).
Proof.
  intros Hw Hh Hsz.
  assert (Hiw : is_int (width s))
    by (unfold is_int, int_min, int_max in *; nia).
  assert (Hih : is_int (height s))
    by (unfold is_int, int_min, int_max in *; nia).
  assert (Hfit : fits_int (new s)).
  { split; [|exact Hsz]. split; [exact Hiw|]. split; [exact Hih|].
    now apply new_length. }
  destruct (degrees_painted (new s) xRange yRange Hfit)
    as (c' & Hp & Hs & Hl & Hall).
  exists c'. split; [exact Hp|]. split; [exact Hs|]. split.
  - rewrite Hl. now apply new_length.
  - exact Hall.
Qed.

(** X8: [paint_complex] of the normalized variant, on a canvas whose
    byte count fits an [int]: if [hsv2rgb] accepts the colour of every
    sample, the call returns and every pixel shows the colour of its
    sample. *)
Theorem normalized_paint_pixels c xRange yRange :
  fits_int c ->
  (forall px py,
     0 <= px < width (size c) -> 0 <= py < height (size c) ->
     is_Some (Normalized.color L f
                (Normalized.plane_coord (width (size c)) xRange px)
                (Normalized.plane_coord (height (size c)) yRange py))) ->
  exists c',
    Normalized.paint_complex L f c xRange yRange = Some c'
    /\ size c' = size c /\ length (pixels c') = length (pixels c)
    /\ forall px py col,
         0 <= px < width (size c) -> 0 <= py < height (size c) ->
         Normalized.color L f
           (Normalized.plane_coord (width (size c)) xRange px)
           (Normalized.plane_coord (height (size c)) yRange py) = Some col ->
         holds c' {| x := px; y := py |} col.
Proof. apply normalized_painted. Qed.

(** X9: [paint_complex] of the normalized variant does not return when
    the assertions of [hsv2rgb] reject the colour of the sample of one
    pixel of the canvas, whatever the canvas and the other samples. *)
Theorem normalized_paint_aborts c xRange yRange px py :
  0 <= px < width (size c) -> 0 <= py < height (size c) ->
  Normalized.color L f
    (Normalized.plane_coord (width (size c)) xRange px)
    (Normalized.plane_coord (height (size c)) yRange py) = None ->
  Normalized.paint_complex L f c xRange yRange = None.
Proof.
  intros Hpx Hpy Hnone. unfold Normalized.paint_complex.
  apply (rows_abort c _ _ py).
  - apply elem_of_seqZ. lia.
  - intros py' c1 c' Hrow. unfold Normalized.paint_row in Hrow.
    now apply row_size in Hrow.
  - intros c1 Hs. unfold Normalized.paint_row. rewrite Hs.
    apply (row_aborts c1 py _ _ px); [|exact Hnone].
    apply elem_of_seqZ. lia.
  - now intros c1 [= <-].
Qed.

(** X10: on a canvas without columns or without rows both variants of
    [paint_complex] return the canvas as it is. *)
Theorem paint_complex_empty c xRange yRange :
  width (size c) <= 0 \/ height (size c) <= 0 ->
  Degrees.paint_complex L f c xRange yRange = Some c
  /\ Normalized.paint_complex L f c xRange yRange = Some c.
Proof.
  intros Hempty. unfold Degrees.paint_complex, Normalized.paint_complex.
  destruct (Z_le_gt_dec (height (size c)) 0) as [Hh|Hh].
  - rewrite seqZ_nil by lia. now split.
  - assert (Hw : width (size c) <= 0) by lia. clear Hempty.
    split.
    + assert (Hrow : forall py c', size c' = size c ->
                Degrees.paint_row L f xRange
                  (Degrees.plane_coord (height (size c)) yRange py) py c'
                = Some c').
      { intros py c' Hs. unfold Degrees.paint_row. rewrite Hs.
        now rewrite seqZ_nil by lia. }
      induction (seqZ 0 (height (size c))) as [|py l IH]; [reflexivity|].
      cbn [foldl mbind option_bind]. now rewrite Hrow.
    + assert (Hrow : forall py c', size c' = size c ->
                Normalized.paint_row L f xRange
                  (Normalized.plane_coord (height (size c)) yRange py) py c'
                = Some c').
      { intros py c' Hs. unfold Normalized.paint_row. rewrite Hs.
        now rewrite seqZ_nil by lia. }
      induction (seqZ 0 (height (size c))) as [|py l IH]; [reflexivity|].
      cbn [foldl mbind option_bind]. now rewrite Hrow.
Qed.

End Render.

Lemma paint_complex_pixels_witness :
  exists c',
    Degrees.paint_complex first_order minus_z
      (new {| width := 2; height := 2 |}) d1 d1 = Some c'
    /\ size c' = size (new {| width := 2; height := 2 |})
    /\ length (pixels c')
       = length (pixels (new {| width := 2; height := 2 |}))
    /\ forall px py,
         0 <= px < width (size (new {| width := 2; height := 2 |})) ->
         0 <= py < height (size (new {| width := 2; height := 2 |})) ->
         holds c' {| x := px; y := py |}
           (Degrees.color first_order minus_z
              (Degrees.plane_coord
                 (width (size (new {| width := 2; height := 2 |}))) d1 px)
              (Degrees.plane_coord
                 (height (size (new {| width := 2; height := 2 |}))) d1 py)).
Proof.
  apply (paint_complex_pixels first_order minus_z
           (new {| width := 2; height := 2 |}) d1 d1).
  exact fits_int_new_2x2.
Defined.

Lemma fits_int_grey_2x2 :
  fits_int {| size := {| width := 2; height := 2 |};
              pixels := replicate 12 128 |}.
Proof.
  unfold fits_int, well_formed, is_int, int_min, int_max.
  cbn [size width height pixels]. repeat split; try lia; reflexivity.
Qed.

Lemma paint_complex_overwrites_witness :
  Degrees.paint_complex first_order minus_z
    (new {| width := 2; height := 2 |}) d1 d1
  = Degrees.paint_complex first_order minus_z
      {| size := {| width := 2; height := 2 |};
         pixels := replicate 12 128 |} d1 d1.
Proof.
  apply (paint_complex_overwrites first_order minus_z).
  - exact fits_int_new_2x2.
  - exact fits_int_grey_2x2.
  - reflexivity.
  - cbn. lia.
Defined.

Lemma complex_plot_canvas_witness :
  exists c',
    Degrees.paint_complex first_order minus_z
      (new {| width := 2; height := 2 |}) d1 d1 = Some c'
    /\ size c' = {| width := 2; height := 2 |}
    /\ Z.of_nat (length (pixels c'))
       = width {| width := 2; height := 2 |}
         * height {| width := 2; height := 2 |} * 3
    /\ forall px py,
         0 <= px < width {| width := 2; height := 2 |} ->
         0 <= py < height {| width := 2; height := 2 |} ->
         holds c' {| x := px; y := py |}
           (Degrees.color first_order minus_z
              (Degrees.plane_coord (width {| width := 2; height := 2 |}) d1 px)
              (Degrees.plane_coord (height {| width := 2; height := 2 |}) d1 py)).
Proof.
  apply (complex_plot_canvas first_order minus_z
           {| width := 2; height := 2 |} d1 d1);
    unfold int_max; cbn [width height]; lia.
Defined.

Lemma normalized_paint_pixels_witness :
  exists c',
    Normalized.paint_complex first_order minus_z
      (new {| width := 2; height := 2 |}) d1 d1 = Some c'
    /\ size c' = size (new {| width := 2; height := 2 |})
    /\ length (pixels c')
       = length (pixels (new {| width := 2; height := 2 |}))
    /\ forall px py col,
         0 <= px < width (size (new {| width := 2; height := 2 |})) ->
         0 <= py < height (size (new {| width := 2; height := 2 |})) ->
         Normalized.color first_order minus_z
           (Normalized.plane_coord
              (width (size (new {| width := 2; height := 2 |}))) d1 px)
           (Normalized.plane_coord
              (height (size (new {| width := 2; height := 2 |}))) d1 py)
         = Some col ->
         holds c' {| x := px; y := py |} col.
Proof.
  apply (normalized_paint_pixels first_order minus_z
           (new {| width := 2; height := 2 |}) d1 d1).
  - exact fits_int_new_2x2.
  - cbn [size new width height]. intros px py Hpx Hpy.
    assert (Hx : px = 0 \/ px = 1) by lia.
    assert (Hy : py = 0 \/ py = 1) by lia.
    destruct Hx as [-> | ->], Hy as [-> | ->]; vm_compute; eauto.
Defined.

Lemma normalized_paint_aborts_witness :
  Normalized.paint_complex first_order inv_conj
    (new {| width := 2; height := 2 |}) d1 d1 = None.
Proof.
  apply (normalized_paint_aborts first_order inv_conj
           (new {| width := 2; height := 2 |}) d1 d1 1 1).
  - cbn. lia.
  - cbn. lia.
  - vm_compute. reflexivity.
Defined.

Lemma paint_complex_empty_witness :
  Degrees.paint_complex first_order minus_z
    (new {| width := 0; height := 5 |}) d1 d1
  = Some (new {| width := 0; height := 5 |})
  /\ Normalized.paint_complex first_order minus_z
       (new {| width := 0; height := 5 |}) d1 d1
     = Some (new {| width := 0; height := 5 |}).
Proof.
  apply (paint_complex_empty first_order minus_z
           (new {| width := 0; height := 5 |}) d1 d1).
  left. cbn. lia.
Defined.

End RenderFacts.

(** ** The integer [hsv2rgb] of the byte variant *)

Module BytesFacts.
Import MachineInt MachineIntFacts IEEE Canvas Switch Bytes.

Lemma int_mul_small a b :
  0 <= a <= 255 -> 0 <= b <= 255 -> int_mul a b = a * b.
Proof.
  intros Ha Hb. unfold int_mul. apply wrap_int_id.
  unfold is_int, int_min, int_max. nia.
Qed.

Lemma to_uchar_id z : 0 <= z <= 255 -> to_uchar z = z.
Proof. intros Hz. unfold to_uchar. apply Z.mod_small. lia. Qed.

Lemma region_value hsv :
  is_byte (hue hsv) -> region hsv = hue hsv / 43 /\ 0 <= region hsv <= 5.
Proof.
  unfold is_byte, region. intros Hh.
  rewrite Z.quot_div_nonneg by lia.
  assert (0 <= hue hsv / 43 <= 5).
  { split; [apply Z.div_pos; lia|].
    apply Z.lt_succ_r, Z.div_lt_upper_bound; lia. }
  rewrite to_uchar_id by lia. lia.
Qed.

Lemma remainder_value hsv :
  is_byte (hue hsv) ->
  remainder hsv = hue hsv mod 43 * 6 /\ 0 <= remainder hsv <= 252.
Proof.
  intros Hh. destruct (region_value hsv Hh) as [Hr Hr5].
  unfold remainder. unfold is_byte in Hh.
  rewrite (int_mul_small (region hsv) 43) by lia.
  pose proof (Z.div_mod (hue hsv) 43 ltac:(lia)) as Hdm.
  pose proof (Z.mod_pos_bound (hue hsv) 43 ltac:(lia)) as Hm.
  assert (E : hue hsv - region hsv * 43 = hue hsv mod 43) by lia.
  rewrite E, int_mul_small by lia. rewrite to_uchar_id by lia. lia.
Qed.

Lemma shiftr8 z : Z.shiftr z 8 = z / 256.
Proof. now rewrite Z.shiftr_div_pow2 by lia. Qed.

Lemma div256_bounds a b :
  0 <= a <= 255 -> 0 <= b <= 255 ->
  0 <= a * b / 256 <= 254 /\ a * b / 256 <= a /\ a * b / 256 <= b
  /\ (0 < a -> a * b / 256 < a).
Proof.
  intros Ha Hb.
  assert (H0 : 0 <= a * b / 256) by (apply Z.div_pos; nia).
  assert (Ha' : a * b / 256 < a \/ a = 0).
  { destruct (Z.eq_dec a 0) as [->|Hne]; [now right|left].
    apply Z.div_lt_upper_bound; nia. }
  assert (Hb' : a * b / 256 <= b).
  { destruct (Z.eq_dec b 0) as [->|Hne].
    - rewrite Z.mul_0_r. reflexivity.
    - apply Z.lt_le_incl, Z.div_lt_upper_bound; nia. }
  destruct Ha' as [Ha'| ->]; [lia|].
  rewrite Z.mul_0_l in *. change (0 / 256) with 0 in *. lia.
Qed.

Lemma p_value hsv :
  byte_color hsv ->
  p hsv = value hsv * (255 - saturation hsv) / 256.
Proof.
  unfold byte_color, is_byte. intros (Hh & Hs & Hv). unfold p.
  rewrite int_mul_small, shiftr8 by lia.
  pose proof (div256_bounds (value hsv) (255 - saturation hsv)
                ltac:(lia) ltac:(lia)).
  apply to_uchar_id. lia.
Qed.

Lemma q_value hsv :
  byte_color hsv ->
  q hsv = value hsv * (255 - saturation hsv * remainder hsv / 256) / 256.
Proof.
  unfold byte_color, is_byte. intros (Hh & Hs & Hv). unfold q.
  destruct (remainder_value hsv Hh) as [_ Hr].
  rewrite !shiftr8. rewrite (int_mul_small (saturation hsv)) by lia.
  pose proof (div256_bounds (saturation hsv) (remainder hsv)
                ltac:(lia) ltac:(lia)).
  rewrite int_mul_small by lia.
  pose proof (div256_bounds (value hsv)
                (255 - saturation hsv * remainder hsv / 256)
                ltac:(lia) ltac:(lia)).
  apply to_uchar_id. lia.
Qed.

Lemma t_value hsv :
  byte_color hsv ->
  t hsv
  = value hsv * (255 - saturation hsv * (255 - remainder hsv) / 256) / 256.
Proof.
  unfold byte_color, is_byte. intros (Hh & Hs & Hv). unfold t.
  destruct (remainder_value hsv Hh) as [_ Hr].
  rewrite !shiftr8. rewrite (int_mul_small (saturation hsv)) by lia.
  pose proof (div256_bounds (saturation hsv) (255 - remainder hsv)
                ltac:(lia) ltac:(lia)).
  rewrite int_mul_small by lia.
  pose proof (div256_bounds (value hsv)
                (255 - saturation hsv * (255 - remainder hsv) / 256)
                ltac:(lia) ltac:(lia)).
  apply to_uchar_id. lia.
Qed.

Lemma pqt_order hsv :
  byte_color hsv ->
  0 <= p hsv /\ p hsv <= q hsv /\ p hsv <= t hsv
  /\ q hsv <= value hsv /\ t hsv <= value hsv
  /\ (0 < value hsv -> q hsv < value hsv /\ t hsv < value hsv).
Proof.
  intros Hb. rewrite (p_value hsv Hb), (q_value hsv Hb), (t_value hsv Hb).
  destruct Hb as (Hh & Hs & Hv). unfold is_byte in *.
  destruct (remainder_value hsv Hh) as [_ Hr].
  pose proof (div256_bounds (saturation hsv) (remainder hsv)
                ltac:(lia) ltac:(lia)) as Hsr.
  pose proof (div256_bounds (saturation hsv) (255 - remainder hsv)
                ltac:(lia) ltac:(lia)) as Hsr'.
  pose proof (div256_bounds (value hsv)
                (255 - saturation hsv * remainder hsv / 256)
                ltac:(lia) ltac:(lia)) as Hq.
  pose proof (div256_bounds (value hsv)
                (255 - saturation hsv * (255 - remainder hsv) / 256)
                ltac:(lia) ltac:(lia)) as Ht.
  split; [apply Z.div_pos; nia|].
  split; [apply Z.div_le_mono; nia|].
  split; [apply Z.div_le_mono; nia|]. lia.
Qed.

(** X11: [hsv2rgb] of the byte variant: for a hue byte, [region] is the
    quotient by 43 and at most 5, [remainder] is six times the rest of that
    division and is not truncated by its conversion to [unsigned char], and
    the [default] label of the [switch] is reached exactly by the hues from
    215 on. *)
Theorem region_remainder hsv :
  is_byte (hue hsv) ->
  region hsv = hue hsv / 43 /\ 0 <= region hsv <= 5
  /\ remainder hsv = hue hsv mod 43 * 6 /\ remainder hsv <= 252
  /\ (switch (region hsv) = Default <-> 215 <= hue hsv).
Proof.
  intros Hh. destruct (region_value hsv Hh) as [Hr Hr5].
  destruct (remainder_value hsv Hh) as [Hm Hm5].
  split; [exact Hr|]. split; [exact Hr5|]. split; [exact Hm|].
  split; [lia|].
  unfold is_byte in Hh.
  pose proof (Z.div_mod (hue hsv) 43 ltac:(lia)) as Hdm.
  pose proof (Z.mod_pos_bound (hue hsv) 43 ltac:(lia)) as Hmb.
  assert (Hcases : region hsv = 0 \/ region hsv = 1 \/ region hsv = 2
                   \/ region hsv = 3 \/ region hsv = 4 \/ region hsv = 5)
    by lia.
  destruct Hcases as [E|[E|[E|[E|[E|E]]]]]; rewrite E; cbn [switch];
    (split; [try discriminate|]; intros; try reflexivity; lia).
Qed.

Lemma region_remainder_witness :
  region {| hue := 215; saturation := 200; value := 100 |} = 215 / 43
  /\ 0 <= region {| hue := 215; saturation := 200; value := 100 |} <= 5
  /\ remainder {| hue := 215; saturation := 200; value := 100 |}
     = 215 mod 43 * 6
  /\ remainder {| hue := 215; saturation := 200; value := 100 |} <= 252
  /\ (switch (region {| hue := 215; saturation := 200; value := 100 |})
      = Default <-> 215 <= 215).
Proof.
  apply (region_remainder {| hue := 215; saturation := 200; value := 100 |}).
  unfold is_byte. cbn. lia.
Defined.

(** X12: for byte fields no local of the byte [hsv2rgb] is truncated by
    its conversion to [unsigned char]: [p], [q] and [t] are the quotients
    by 256 the source writes as shifts, [p] is the least of them, and none
    exceeds [value]. *)
Theorem locals_not_truncated hsv :
  byte_color hsv ->
  p hsv = value hsv * (255 - saturation hsv) / 256
  /\ q hsv = value hsv * (255 - saturation hsv * remainder hsv / 256) / 256
  /\ t hsv
     = value hsv * (255 - saturation hsv * (255 - remainder hsv) / 256) / 256
  /\ 0 <= p hsv /\ p hsv <= q hsv <= value hsv
  /\ p hsv <= t hsv <= value hsv.
Proof.
  intros Hb. pose proof (pqt_order hsv Hb).
  split; [now apply p_value|]. split; [now apply q_value|].
  split; [now apply t_value|]. lia.
Qed.

Lemma locals_not_truncated_witness :
  p {| hue := 100; saturation := 200; value := 255 |} = 255 * (255 - 200) / 256
  /\ q {| hue := 100; saturation := 200; value := 255 |}
     = 255 * (255 - 200
                    * remainder {| hue := 100; saturation := 200; value := 255 |}
                    / 256) / 256
  /\ t {| hue := 100; saturation := 200; value := 255 |}
     = 255 * (255 - 200
                    * (255 - remainder {| hue := 100; saturation := 200;
                                          value := 255 |})
                    / 256) / 256
  /\ 0 <= p {| hue := 100; saturation := 200; value := 255 |}
  /\ p {| hue := 100; saturation := 200; value := 255 |}
     <= q {| hue := 100; saturation := 200; value := 255 |} <= 255
  /\ p {| hue := 100; saturation := 200; value := 255 |}
     <= t {| hue := 100; saturation := 200; value := 255 |} <= 255.
Proof.
  apply (locals_not_truncated {| hue := 100; saturation := 200; value := 255 |}).
  unfold byte_color, is_byte. cbn. lia.
Defined.

(** X13: the colour the byte [hsv2rgb] returns for byte fields with a
    saturation other than 0 has [value] as its greatest channel and [p] as
    its least; with a positive [value] the other two channels stay below
    it, so that no such colour is white. *)
Theorem hsv2rgb_extremes hsv :
  byte_color hsv -> saturation hsv <> 0 ->
  Z.max (red (hsv2rgb hsv)) (Z.max (green (hsv2rgb hsv)) (blue (hsv2rgb hsv)))
  = value hsv
  /\ Z.min (red (hsv2rgb hsv))
           (Z.min (green (hsv2rgb hsv)) (blue (hsv2rgb hsv))) = p hsv
  /\ hsv2rgb hsv <> {| red := 255; green := 255; blue := 255 |}.
Proof.
  intros Hb Hs. pose proof (pqt_order hsv Hb) as Ho.
  assert (Hv : 0 <= value hsv <= 255) by apply Hb.
  unfold hsv2rgb. apply Z.eqb_neq in Hs. rewrite Hs.
  destruct (switch (region hsv)); cbn [red green blue];
    (split; [lia|]; split; [lia|]); intros [= E1 E2 E3]; lia.
Qed.

Lemma hsv2rgb_extremes_witness :
  Z.max (red (hsv2rgb {| hue := 100; saturation := 200; value := 255 |}))
        (Z.max (green (hsv2rgb {| hue := 100; saturation := 200; value := 255 |}))
               (blue (hsv2rgb {| hue := 100; saturation := 200; value := 255 |})))
  = 255
  /\ Z.min (red (hsv2rgb {| hue := 100; saturation := 200; value := 255 |}))
           (Z.min (green (hsv2rgb {| hue := 100; saturation := 200;
                                     value := 255 |}))
                  (blue (hsv2rgb {| hue := 100; saturation := 200;
                                    value := 255 |})))
     = p {| hue := 100; saturation := 200; value := 255 |}
  /\ hsv2rgb {| hue := 100; saturation := 200; value := 255 |}
     <> {| red := 255; green := 255; blue := 255 |}.
Proof.
  apply (hsv2rgb_extremes {| hue := 100; saturation := 200; value := 255 |}).
  - unfold byte_color, is_byte. cbn. lia.
  - discriminate.
Defined.

End BytesFacts.

(** ** [domain_value]: the order of [double] and the clamp *)

Module DomainFacts.
Import IEEE Real754 Real754Facts DomainValue.

Lemma SFcompare_finite s1 m1 e1 s2 m2 e2 :
  SFcompare (S754_finite s1 m1 e1) (S754_finite s2 m2 e2)
  = Some (if s1
          then if s2
               then match e1 ?= e2 with
                    | Eq => CompOpp (Zpos m1 ?= Zpos m2)
                    | Lt => Gt
                    | Gt => Lt
                    end
               else Lt
          else if s2
               then Gt
               else match e1 ?= e2 with
                    | Eq => (Zpos m1 ?= Zpos m2)
                    | Lt => Lt
                    | Gt => Gt
                    end).
Proof. reflexivity. Qed.

(** Exchanging the operands of a comparison reverses its outcome. *)
Lemma SFcompare_antisym x y :
  SFcompare y x = option_map CompOpp (SFcompare x y).
Proof.
  destruct x as [sx|sx| |sx mx ex], y as [sy|sy| |sy my ey];
    try reflexivity;
    try (destruct sx; reflexivity);
    try (destruct sy; reflexivity);
    try (destruct sx, sy; reflexivity).
  rewrite !SFcompare_finite. cbn [option_map]. f_equal.
  rewrite (Z.compare_antisym ex ey), (Z.compare_antisym (Zpos mx) (Zpos my)).
  destruct sx, sy, (ex ?= ey), (Zpos mx ?= Zpos my); reflexivity.
Qed.

Lemma SFcompare_refl x : isnan x = false -> SFcompare x x = Some Eq.
Proof.
  destruct x as [s|s| |s m e]; try discriminate; intros _;
    try (destruct s; reflexivity).
  rewrite SFcompare_finite, !Z.compare_refl. now destruct s.
Qed.

Lemma SFcompare_nan x y :
  SFcompare x y = None <-> isnan x = true \/ isnan y = true.
Proof.
  destruct x as [sx|sx| |sx mx ex], y as [sy|sy| |sy my ey];
    cbn [SFcompare isnan]; split; intros H;
    try discriminate; try reflexivity; try tauto;
    try (destruct H; discriminate).
Qed.

Lemma dle_refl x : isnan x = false -> dle x x = true.
Proof. intros H. unfold dle, SFleb. now rewrite SFcompare_refl. Qed.

Lemma dle_not_nan x y : dle x y = true -> isnan x = false /\ isnan y = false.
Proof.
  unfold dle, SFleb. intros H.
  destruct x, y; try discriminate; now split.
Qed.

(** On numbers the order is total. *)
Lemma dlt_false_dle x y :
  isnan x = false -> isnan y = false -> dlt x y = false -> dle y x = true.
Proof.
  intros Hx Hy. unfold dlt, dle, SFltb, SFleb.
  rewrite (SFcompare_antisym x y).
  destruct (SFcompare x y) as [[| |]|] eqn:Hc; cbn [option_map CompOpp];
    try discriminate; try reflexivity.
  apply SFcompare_nan in Hc. destruct Hc; congruence.
Qed.

Lemma dle_dlt_false x y : dle x y = true -> dlt y x = false.
Proof.
  unfold dlt, dle, SFltb, SFleb. rewrite (SFcompare_antisym x y).
  destruct (SFcompare x y) as [[| |]|]; cbn [option_map CompOpp];
    try discriminate; reflexivity.
Qed.

Lemma clamped_fixed Min Max v :
  in_domain Min Max v = true -> clamped Min Max v = v.
Proof.
  unfold in_domain. intros H. apply andb_true_iff in H. destruct H as [H0 H1].
  unfold clamped, clamp.
  now rewrite (dle_dlt_false _ _ H0), (dle_dlt_false _ _ H1).
Qed.

Lemma clamped_in_domain Min Max v :
  dle Min Max = true -> isnan v = false ->
  in_domain Min Max (clamped Min Max v) = true.
Proof.
  intros Hd Hv. destruct (dle_not_nan _ _ Hd) as [Hmin Hmax].
  unfold in_domain, clamped, clamp. apply andb_true_iff.
  destruct (dlt v Min) eqn:H0.
  - split; [now apply dle_refl|exact Hd].
  - destruct (dlt Max v) eqn:H1.
    + split; [exact Hd|now apply dle_refl].
    + split; now apply dlt_false_dle.
Qed.

Lemma clamped_nan Min Max : clamped Min Max S754_nan = S754_nan.
Proof. unfold clamped, clamp. now destruct Min, Max. Qed.

(** X14: [domain_value::clamped] over a domain [Min <= Max]: the value
    stored by the constructor and by assignment lies in the domain for
    every argument but NaN, which is stored as it is. *)
Theorem clamped_domain Min Max v :
  dle Min Max = true ->
  in_domain Min Max (make Min Max v) = negb (isnan v)
  /\ (isnan v = true -> make Min Max v = v).
Proof.
  intros Hd. unfold make. destruct (isnan v) eqn:Hv.
  - destruct v; try discriminate. rewrite clamped_nan.
    split; [|reflexivity]. unfold in_domain, dle.
    destruct Min; reflexivity.
  - split; [|discriminate]. now apply clamped_in_domain.
Qed.

Lemma clamped_domain_witness :
  in_domain d0 d360 (make d0 d360 (of_int 400)) = negb (isnan (of_int 400))
  /\ (isnan (of_int 400) = true -> make d0 d360 (of_int 400) = of_int 400).
Proof. apply (clamped_domain d0 d360 (of_int 400)). reflexivity. Defined.

(** X15: over a domain [Min <= Max], [clamped] returns a value of the
    domain as it is, a zero with its sign, and clamping twice is clamping
    once. *)
Theorem clamped_idempotent Min Max v :
  dle Min Max = true ->
  (in_domain Min Max v = true -> clamped Min Max v = v)
  /\ clamped Min Max (clamped Min Max v) = clamped Min Max v.
Proof.
  intros Hd. split; [apply clamped_fixed|].
  destruct (isnan v) eqn:Hv.
  - destruct v; try discriminate. now rewrite !clamped_nan.
  - apply clamped_fixed. now apply clamped_in_domain.
Qed.

Lemma clamped_idempotent_witness :
  (in_domain d0 d1 (of_int 7) = true -> clamped d0 d1 (of_int 7) = of_int 7)
  /\ clamped d0 d1 (clamped d0 d1 (of_int 7)) = clamped d0 d1 (of_int 7).
Proof. apply (clamped_idempotent d0 d1 (of_int 7)). reflexivity. Defined.

(** The numbers of [norm]'s domain: a zero, or a positive float of at
    most 1. *)
Lemma unit_cases v :
  valid_binary prec emax v = true -> in_domain d0 d1 v = true ->
  (exists b, v = S754_zero b)
  \/ exists m e, v = S754_finite false m e
                 /\ SpecFloat.bounded prec emax m e = true
                 /\ (F2R (Zpos m) e <= 1)%R.
Proof.
  intros Hv Hd. unfold in_domain in Hd. apply andb_true_iff in Hd.
  destruct Hd as [H0 H1]. destruct v as [s|s| |s m e].
  - left. now exists s.
  - destruct s; discriminate.
  - discriminate.
  - destruct s; [discriminate|]. right. exists m, e.
    cbn [valid_binary] in Hv. split; [reflexivity|]. split; [exact Hv|].
    rewrite d1_eq in H1. apply SFleb_pos in H1; [|exact Hv|reflexivity].
    now rewrite F2R_one in H1.
Qed.

(** X16: [operator*] of [norm<double>] never clamps: the product of two
    stored values of [0, 1] is in [0, 1] after rounding, and the operator
    returns the IEEE product. *)
Theorem norm_mul_unclamped a b :
  valid_binary prec emax a = true -> valid_binary prec emax b = true ->
  in_domain d0 d1 a = true -> in_domain d0 d1 b = true ->
  mul d0 d1 a b = dmul a b /\ in_domain d0 d1 (dmul a b) = true.
Proof.
  intros Hva Hvb Ha Hb.
  assert (Hin : in_domain d0 d1 (dmul a b) = true).
  { destruct (unit_cases a Hva Ha) as [[sa ->]|(ma & ea & -> & Hba & Hla)];
      destruct (unit_cases b Hvb Hb) as [[sb ->]|(mb & eb & -> & Hbb & Hlb)].
    - destruct sa, sb; reflexivity.
    - destruct sa; reflexivity.
    - destruct sb; reflexivity.
    - pose proof (SFmul_correct false ma ea false mb eb Hba Hbb) as Hr.
      cbn [xorb] in Hr.
      pose proof (F2R_pos (Zpos ma) ea ltac:(lia)).
      pose proof (F2R_pos (Zpos mb) eb ltac:(lia)).
      destruct (rounded_nonneg_le _ _ 4503599627370496 (-52) Hr eq_refl)
        as [Hz|(m & e & Hz & Hbz & Hlz)]; [rewrite F2R_one; nra| |];
        unfold dmul; rewrite Hz; [reflexivity|].
      unfold in_domain. apply andb_true_iff. split; [reflexivity|].
      rewrite d1_eq. now apply SFleb_pos. }
  split; [|exact Hin]. unfold mul, make. now apply clamped_fixed.
Qed.

Lemma norm_mul_unclamped_witness :
  mul d0 d1 d0_5 d0_1 = dmul d0_5 d0_1
  /\ in_domain d0 d1 (dmul d0_5 d0_1) = true.
Proof. apply (norm_mul_unclamped d0_5 d0_1); reflexivity. Defined.

(** X17: [operator-] of [norm<double>] stops at the lower end of the
    domain: for stored values [a <= b] of [0, 1] the difference is not
    positive and the operator returns a zero. *)
Theorem norm_sub_floor a b :
  valid_binary prec emax a = true -> valid_binary prec emax b = true ->
  in_domain d0 d1 a = true -> in_domain d0 d1 b = true ->
  dle a b = true ->
  exists s, sub d0 d1 a b = S754_zero s.
Proof.
  intros Hva Hvb Ha Hb Hab. unfold sub, make, clamped.
  destruct (unit_cases a Hva Ha) as [[sa ->]|(ma & ea & -> & Hba & Hla)];
    destruct (unit_cases b Hvb Hb) as [[sb ->]|(mb & eb & -> & Hbb & Hlb)].
  - destruct sa, sb; eexists; reflexivity.
  - now exists false.
  - discriminate.
  - apply SFleb_pos in Hab; [|exact Hba|exact Hbb].
    destruct (SFsub_finite false ma ea false mb eb) as (S & E & HS).
    cbn [SF2R cond_Zopp] in HS. unfold dsub. rewrite E.
    destruct (Z_lt_le_dec S 0) as [Hneg|Hpos].
    + destruct (binary_normalize_neg S (Z.min ea eb) false Hneg)
        as (m3 & e3 & -> & [Hm3 _] & _).
      unfold SF_of_grid. destruct m3 as [|p|p]; [| |lia].
      * now exists true.
      * exists false. now destruct (e3 <=? emax - prec).
    + assert (S = 0).
      { apply Z.le_antisymm; [|exact Hpos].
        apply (F2R_le_inv S 0 (Z.min ea eb)). rewrite F2R_0. lra. }
      subst S. now exists false.
Qed.

Lemma norm_sub_floor_witness :
  exists s, sub d0 d1 d0_1 d0_5 = S754_zero s.
Proof. apply (norm_sub_floor d0_1 d0_5); reflexivity. Defined.

End DomainFacts.

(** ** The channels of the floating-point [hsv2rgb] *)

Module ChannelFacts.
Import MachineInt IEEE Real754 Real754Facts Canvas Switch.
Import DomainValue DomainFacts Channels ColorFacts.

Lemma unit_of_domain v :
  valid_binary prec emax v = true -> in_domain d0 d1 v = true -> unit v.
Proof.
  intros Hv Hd.
  destruct (unit_cases v Hv Hd) as [Hz|(m & e & -> & Hb & Hle)];
    [now left|right; right]. now exists m, e.
Qed.

Lemma unit_mul a b : unit a -> unit b -> unit (dmul a b).
Proof.
  intros [[sa ->]|[->|(ma & ea & -> & Hba & Hla)]]
         [[sb ->]|[->|(mb & eb & -> & Hbb & Hlb)]];
    try (left; eexists; reflexivity).
  right. rewrite <- F2R_one.
  apply (rounded_nonneg_le (F2R (Zpos ma) ea * F2R (Zpos mb) eb));
    [|reflexivity|].
  - exact (SFmul_correct false ma ea false mb eb Hba Hbb).
  - pose proof (F2R_pos (Zpos ma) ea ltac:(lia)).
    pose proof (F2R_pos (Zpos mb) eb ltac:(lia)). rewrite F2R_one. nra.
Qed.

Lemma unit_compl a : unit a -> unit (dsub d1 a).
Proof.
  intros [[sa ->]|[->|(ma & ea & -> & Hba & Hla)]].
  - right. right. exists 4503599627370496%positive, (-52).
    split; [now destruct sa|]. split; [reflexivity|]. rewrite F2R_one. lra.
  - right. right. exists 4503599627370496%positive, (-52).
    split; [reflexivity|]. split; [reflexivity|]. rewrite F2R_one. lra.
  - right. rewrite d1_eq.
    destruct (SFsub_finite false 4503599627370496 (-52) false ma ea)
      as (S & E & HS).
    cbn [SF2R cond_Zopp] in HS. rewrite F2R_one in HS.
    pose proof (F2R_pos (Zpos ma) ea ltac:(lia)).
    unfold dsub. rewrite E. rewrite <- F2R_one.
    apply (rounded_nonneg_le (F2R S (Z.min (-52) ea))); [|reflexivity|].
    + apply binary_normalize_nonneg, (F2R_nonneg_inv S (Z.min (-52) ea)). lra.
    + rewrite F2R_one. lra.
Qed.

(** The integer that [static_cast<int>(trunc(q))] gives for a positive
    float below 6. *)
Lemma int_of_trunc m e :
  Z.shiftl (Zpos m) e <= 5 ->
  int_of_double (trunc (S754_finite false m e)) = Z.shiftl (Zpos m) e.
Proof.
  intros Hk5.
  pose proof (proj2 (Z.shiftl_nonneg (Zpos m) e) ltac:(lia)) as Hk0.
  unfold trunc. destruct (0 <=? e).
  - unfold int_of_double, Ztrunc. cbn [cond_Zopp].
    replace ((int_min <=? Z.shiftl (Zpos m) e) && (Z.shiftl (Zpos m) e <=? int_max))
      with true; [reflexivity|].
    symmetry. apply andb_true_iff. unfold int_min, int_max.
    split; apply Z.leb_le; lia.
  - cbn [cond_Zopp]. rewrite int_of_double_small; lia.
Qed.

(** [f = hsv.hue - i] is a fraction. *)
Lemma fraction_unit q :
  (exists b, q = S754_zero b) \/ nonneg_le (6 - / 1125899906842624) q ->
  unit (dsub q (of_int (int_of_double (trunc q)))).
Proof.
  intros [[b ->]|[->|(m & e & -> & Hb & Hle)]].
  - left. exists b. now destruct b.
  - left. now exists false.
  - pose proof (shiftl_bounds (Zpos m) e) as [Hlo Hhi].
    pose proof (proj2 (Z.shiftl_nonneg (Zpos m) e) ltac:(lia)) as Hk0.
    assert (Hk5 : Z.shiftl (Zpos m) e <= 5).
    { apply Z.lt_succ_r, lt_IZR. change (Z.succ 5) with 6. lra. }
    rewrite (int_of_trunc m e Hk5).
    destruct (Z.shiftl (Zpos m) e) as [|k|k] eqn:Hk; [| |lia].
    + right. right. exists m, e. split; [reflexivity|]. split; [exact Hb|].
      lra.
    + destruct (binary_round_int false (Zpos k) ltac:(lia))
        as (mk & ek & Hr & Hbk & Hvk).
      change (of_int (Zpos k)) with (binary_round prec emax false k 0).
      change (Z.to_pos (Zpos k)) with k in Hr. rewrite Hr.
      destruct (SFsub_finite false m e false mk ek) as (S & E & HS).
      cbn [SF2R cond_Zopp] in HS. rewrite Hvk in HS.
      right. unfold dsub. rewrite E. rewrite <- F2R_one.
      apply (rounded_nonneg_le (F2R S (Z.min e ek))); [|reflexivity|].
      * apply binary_normalize_nonneg, (F2R_nonneg_inv S (Z.min e ek)). lra.
      * rewrite F2R_one. lra.
Qed.

Lemma unit_byte c : unit c -> cast_defined (dmul c d255).
Proof.
  intros [[b ->]|[->|(m & e & -> & Hb & Hle)]].
  - exists 0. now destruct b.
  - now exists 0.
  - apply uchar_of_small. rewrite d255_eq, <- F2R_d255.
    apply (rounded_nonneg_le (F2R (Zpos m) e * F2R 8972014882652160 (-45)));
      [|reflexivity|].
    + exact (SFmul_correct false m e false 8972014882652160 (-45) Hb eq_refl).
    + pose proof (F2R_pos (Zpos m) e ltac:(lia)). rewrite F2R_d255. nra.
Qed.

Lemma in_domain_split Min Max v :
  in_domain Min Max v = true -> dle Min v = true /\ dle v Max = true.
Proof. unfold in_domain. now rewrite andb_true_iff. Qed.

(** The hue that [hsv2rgb] of [main.cpp] works with after its first
    [if], and the fraction it leaves. *)
Lemma degrees_fraction h :
  valid_binary prec emax h = true -> in_domain d0 d360 h = true ->
  unit (dsub (Degrees.sector_hue h) (of_int (Degrees.sector h))).
Proof.
  intros Hv Hd. apply in_domain_split in Hd. destruct Hd as [H0 H360].
  unfold Degrees.sector, Degrees.sector_hue.
  destruct (hue_quotient h Hv H0 H360) as [->|[-> Hq]].
  - left. now exists false.
  - rewrite (degree_small _ Hq). now apply fraction_unit.
Qed.

Lemma degrees_channels_unit hsv :
  valid_binary prec emax (Degrees.hue hsv) = true ->
  in_domain d0 d360 (Degrees.hue hsv) = true ->
  unit (Degrees.saturation hsv) -> unit (Degrees.value hsv) ->
  all3 unit (Degrees.channels hsv).
Proof.
  intros Hvh Hh Hs Hv. unfold Degrees.channels.
  destruct (deq (Degrees.saturation hsv) d0); [now repeat split|].
  pose proof (degrees_fraction _ Hvh Hh) as Hf.
  assert (Hp : unit (dmul (Degrees.value hsv)
                          (dsub d1 (Degrees.saturation hsv))))
    by (apply unit_mul, unit_compl; assumption).
  assert (Hq : unit (dmul (Degrees.value hsv)
                 (dsub d1 (dmul (Degrees.saturation hsv)
                    (dsub (Degrees.sector_hue (Degrees.hue hsv))
                          (of_int (Degrees.sector (Degrees.hue hsv))))))))
    by (apply unit_mul, unit_compl, unit_mul; assumption).
  assert (Ht : unit (dmul (Degrees.value hsv)
                 (dsub d1 (dmul (Degrees.saturation hsv)
                    (dsub d1
                       (dsub (Degrees.sector_hue (Degrees.hue hsv))
                             (of_int (Degrees.sector (Degrees.hue hsv)))))))))
    by (apply unit_mul, unit_compl, unit_mul, unit_compl; assumption).
  cbv zeta.
  destruct (switch (Degrees.sector (Degrees.hue hsv)));
    unfold all3; cbn [fst snd]; auto.
Qed.

(** X18: [hsv2rgb] of [main.cpp] on fields of their domains (what the
    clamps of [degree] and [norm] leave of every number): each channel is
    a zero or a positive float of at most 1, and each
    [static_cast<unsigned char>] is in range: the byte stored is the
    product with 255.0 truncated. *)
Theorem hsv2rgb_casts_defined hsv :
  valid_binary prec emax (Degrees.hue hsv) = true ->
  valid_binary prec emax (Degrees.saturation hsv) = true ->
  valid_binary prec emax (Degrees.value hsv) = true ->
  in_domain d0 d360 (Degrees.hue hsv) = true ->
  in_domain d0 d1 (Degrees.saturation hsv) = true ->
  in_domain d0 d1 (Degrees.value hsv) = true ->
  all3 unit (Degrees.channels hsv)
  /\ all3 (fun c => cast_defined (dmul c d255)) (Degrees.channels hsv)
  /\ Ztrunc (dmul (fst (fst (Degrees.channels hsv))) d255)
     = Some (red (Degrees.hsv2rgb hsv))
  /\ Ztrunc (dmul (snd (fst (Degrees.channels hsv))) d255)
     = Some (green (Degrees.hsv2rgb hsv))
  /\ Ztrunc (dmul (snd (Degrees.channels hsv)) d255)
     = Some (blue (Degrees.hsv2rgb hsv)).
Proof.
  intros Hvh Hvs Hvv Hh Hs Hv.
  pose proof (degrees_channels_unit hsv Hvh Hh
                (unit_of_domain _ Hvs Hs) (unit_of_domain _ Hvv Hv)) as Hu.
  split; [exact Hu|].
  unfold Degrees.hsv2rgb.
  destruct (Degrees.channels hsv) as [[r g] b].
  destruct Hu as (Hr & Hg & Hb). cbn [fst snd] in *.
  destruct (unit_byte r Hr) as (kr & Hkr & Hr255 & Her).
  destruct (unit_byte g Hg) as (kg & Hkg & Hg255 & Heg).
  destruct (unit_byte b Hb) as (kb & Hkb & Hb255 & Heb).
  split.
  { unfold all3. cbn [fst snd]. repeat split.
    - now exists kr.
    - now exists kg.
    - now exists kb. }
  cbn [red green blue]. now rewrite Hkr, Hkg, Hkb, Her, Heg, Heb.
Qed.

Lemma hsv2rgb_casts_defined_witness :
  all3 unit (Degrees.channels (Degrees.mkHSV (of_int 200) d0_5 d0_1))
  /\ all3 (fun c => cast_defined (dmul c d255))
          (Degrees.channels (Degrees.mkHSV (of_int 200) d0_5 d0_1))
  /\ Ztrunc (dmul (fst (fst (Degrees.channels
                               (Degrees.mkHSV (of_int 200) d0_5 d0_1)))) d255)
     = Some (red (Degrees.hsv2rgb (Degrees.mkHSV (of_int 200) d0_5 d0_1)))
  /\ Ztrunc (dmul (snd (fst (Degrees.channels
                               (Degrees.mkHSV (of_int 200) d0_5 d0_1)))) d255)
     = Some (green (Degrees.hsv2rgb (Degrees.mkHSV (of_int 200) d0_5 d0_1)))
  /\ Ztrunc (dmul (snd (Degrees.channels
                          (Degrees.mkHSV (of_int 200) d0_5 d0_1))) d255)
     = Some (blue (Degrees.hsv2rgb (Degrees.mkHSV (of_int 200) d0_5 d0_1))).
Proof.
  apply (hsv2rgb_casts_defined (Degrees.mkHSV (of_int 200) d0_5 d0_1));
    reflexivity.
Defined.

Lemma dle_360_of_unit h :
  valid_binary prec emax h = true -> in_domain d0 d1 h = true ->
  in_domain d0 d360 h = true.
Proof.
  intros Hv Hd.
  destruct (unit_cases h Hv Hd) as [[b ->]|(m & e & -> & Hb & Hle)].
  - reflexivity.
  - unfold in_domain. apply andb_true_iff. split; [reflexivity|].
    rewrite d360_eq. apply SFleb_pos; [exact Hb|reflexivity|].
    rewrite F2R_d360. lra.
Qed.

Lemma sector_hue_agree h :
  valid_binary prec emax h = true -> in_domain d0 d360 h = true ->
  Normalized.sector_hue h = Degrees.sector_hue h.
Proof.
  intros Hv Hd. apply in_domain_split in Hd. destruct Hd as [H0 H360].
  unfold Normalized.sector_hue, Degrees.sector_hue.
  destruct (hue_quotient h Hv H0 H360) as [->|[-> Hq]]; [reflexivity|].
  now rewrite (degree_small _ Hq).
Qed.

Lemma channels_agree hsv :
  valid_binary prec emax (Normalized.hue hsv) = true ->
  in_domain d0 d360 (Normalized.hue hsv) = true ->
  Normalized.channels hsv = Degrees.channels (to_degrees hsv).
Proof.
  intros Hv Hd. unfold Normalized.channels, Degrees.channels, to_degrees.
  cbn [Degrees.hue Degrees.saturation Degrees.value].
  unfold Normalized.sector, Degrees.sector.
  now rewrite (sector_hue_agree _ Hv Hd).
Qed.

Lemma asserts_domains hsv :
  Normalized.asserts hsv = true ->
  in_domain d0 d1 (Normalized.hue hsv) = true
  /\ in_domain d0 d1 (Normalized.saturation hsv) = true
  /\ in_domain d0 d1 (Normalized.value hsv) = true.
Proof.
  unfold Normalized.asserts, in_domain. rewrite !andb_true_iff. tauto.
Qed.

(** X19: on a colour that passes its three assertions the [hsv2rgb] of
    the normalized variant returns what the [hsv2rgb] of [main.cpp]
    returns for the same fields: the clamps of [degree] and [norm] change
    none of them, nor the hue divided by 60. *)
Theorem normalized_as_degrees hsv :
  valid_binary prec emax (Normalized.hue hsv) = true ->
  Normalized.asserts hsv = true ->
  Normalized.hsv2rgb hsv = Some (Degrees.hsv2rgb (to_degrees hsv))
  /\ Degrees.mkHSV (Normalized.hue hsv) (Normalized.saturation hsv)
                   (Normalized.value hsv) = to_degrees hsv.
Proof.
  intros Hv Ha. destruct (asserts_domains hsv Ha) as (Hh & Hs & Hval).
  split.
  - unfold Normalized.hsv2rgb, Degrees.hsv2rgb. rewrite Ha.
    rewrite (channels_agree hsv Hv (dle_360_of_unit _ Hv Hh)).
    now destruct (Degrees.channels (to_degrees hsv)) as [[r g] b].
  - unfold Degrees.mkHSV, to_degrees, Degrees.degree, Degrees.norm.
    fold (clamped d0 d360 (Normalized.hue hsv)).
    fold (clamped d0 d1 (Normalized.saturation hsv)).
    fold (clamped d0 d1 (Normalized.value hsv)).
    now rewrite !clamped_fixed by (assumption || now apply dle_360_of_unit).
Qed.

Lemma normalized_as_degrees_witness :
  Normalized.hsv2rgb {| Normalized.hue := d0_5; Normalized.saturation := d0_5;
                        Normalized.value := d0_1 |}
  = Some (Degrees.hsv2rgb
            (to_degrees {| Normalized.hue := d0_5;
                           Normalized.saturation := d0_5;
                           Normalized.value := d0_1 |}))
  /\ Degrees.mkHSV
       (Normalized.hue {| Normalized.hue := d0_5; Normalized.saturation := d0_5;
                          Normalized.value := d0_1 |})
       (Normalized.saturation {| Normalized.hue := d0_5;
                                 Normalized.saturation := d0_5;
                                 Normalized.value := d0_1 |})
       (Normalized.value {| Normalized.hue := d0_5;
                            Normalized.saturation := d0_5;
                            Normalized.value := d0_1 |})
     = to_degrees {| Normalized.hue := d0_5; Normalized.saturation := d0_5;
                     Normalized.value := d0_1 |}.
Proof.
  apply (normalized_as_degrees
           {| Normalized.hue := d0_5; Normalized.saturation := d0_5;
              Normalized.value := d0_1 |}); reflexivity.
Defined.

(** The quotient by 60 of a hue of [0, 1] is a zero or below 1. *)
Lemma unit_quotient h :
  valid_binary prec emax h = true -> in_domain d0 d1 h = true ->
  deq h d360 = false
  /\ ((exists b, ddiv h d60 = S754_zero b)
      \/ nonneg_le (/ 2) (ddiv h d60)).
Proof.
  intros Hv Hd.
  destruct (unit_cases h Hv Hd) as [[b ->]|(m & e & -> & Hb & Hle)].
  - split; [reflexivity|]. left. now exists (xorb b false).
  - split.
    + rewrite d360_eq. destruct (deq _ _) eqn:He; [|reflexivity].
      apply SFeqb_pos in He; [|exact Hb|reflexivity].
      destruct He as [-> ->]. rewrite F2R_d360 in Hle. lra.
    + right. rewrite <- F2R_half.
      apply (rounded_nonneg_le
               (F2R (Zpos m) e / F2R 8444249301319680 (-47)));
        [|reflexivity|].
      * exact (SFdiv_correct false m e false 8444249301319680 (-47)).
      * pose proof (F2R_pos (Zpos m) e ltac:(lia)).
        rewrite F2R_d60, F2R_half. lra.
Qed.

(** X20: a hue that passes the first assertion of the normalized
    [hsv2rgb] is divided by 60 to less than 1: the sector index is 0, the
    [switch] takes [case 0] alone, and red is the channel that carries
    [value] in every colour the variant returns. *)
Theorem normalized_first_sector hsv :
  valid_binary prec emax (Normalized.hue hsv) = true ->
  Normalized.asserts hsv = true ->
  Normalized.sector (Normalized.hue hsv) = 0
  /\ switch (Normalized.sector (Normalized.hue hsv)) = Case0
  /\ fst (fst (Normalized.channels hsv)) = Normalized.value hsv.
Proof.
  intros Hv Ha. destruct (asserts_domains hsv Ha) as (Hh & _ & _).
  assert (Hs : Normalized.sector (Normalized.hue hsv) = 0).
  { unfold Normalized.sector, Normalized.sector_hue.
    destruct (unit_quotient _ Hv Hh) as [-> Hq].
    destruct Hq as [[b ->]|[->|(m & e & -> & Hb & Hle)]];
      [reflexivity|reflexivity|].
    pose proof (shiftl_bounds (Zpos m) e) as [Hlo Hhi].
    pose proof (proj2 (Z.shiftl_nonneg (Zpos m) e) ltac:(lia)) as Hk0.
    assert (Hk : Z.shiftl (Zpos m) e <= 0).
    { apply Z.lt_succ_r, lt_IZR. change (Z.succ 0) with 1. lra. }
    rewrite int_of_trunc by lia. lia. }
  split; [exact Hs|]. split; [now rewrite Hs|].
  unfold Normalized.channels.
  destruct (deq (Normalized.saturation hsv) d0); [reflexivity|].
  cbv zeta. now rewrite Hs.
Qed.

Lemma normalized_first_sector_witness :
  Normalized.sector
    (Normalized.hue {| Normalized.hue := d1; Normalized.saturation := d0_5;
                       Normalized.value := d0_1 |}) = 0
  /\ switch (Normalized.sector
               (Normalized.hue {| Normalized.hue := d1;
                                  Normalized.saturation := d0_5;
                                  Normalized.value := d0_1 |})) = Case0
  /\ fst (fst (Normalized.channels
                 {| Normalized.hue := d1; Normalized.saturation := d0_5;
                    Normalized.value := d0_1 |}))
     = Normalized.value {| Normalized.hue := d1; Normalized.saturation := d0_5;
                           Normalized.value := d0_1 |}.
Proof.
  apply (normalized_first_sector
           {| Normalized.hue := d1; Normalized.saturation := d0_5;
              Normalized.value := d0_1 |}); reflexivity.
Defined.

End ChannelFacts.

(** ** The hue: the fraction of a turn and what [main.cpp] makes of it *)

Module HueFacts.
Import MachineInt IEEE Real754 Real754Facts Sampler Switch.
Import DomainValue DomainFacts Channels ColorFacts ChannelFacts.

Lemma SFleb_neg m1 e1 m2 e2 :
  SFleb (S754_finite true m1 e1) (S754_finite true m2 e2)
  = SFleb (S754_finite false m2 e2) (S754_finite false m1 e1).
Proof.
  unfold SFleb. rewrite !SFcompare_finite.
  rewrite (Z.compare_antisym e1 e2), (Z.compare_antisym (Zpos m1) (Zpos m2)).
  destruct (e1 ?= e2), (Zpos m1 ?= Zpos m2); reflexivity.
Qed.

Lemma F2R_pi : F2R 7074237752028440 (-51)
               = (7074237752028440 / 2251799813685248)%R.
Proof. unfold F2R, bpow. simpl. lra. Qed.

Lemma F2R_two_pi : F2R 7074237752028440 (-50)
                   = (2 * (7074237752028440 / 2251799813685248))%R.
Proof. unfold F2R, bpow. simpl. lra. Qed.

Lemma F2R_deg_per_turn : F2R 8063664102031864 (-47)
                         = (8063664102031864 / 140737488355328)%R.
Proof. unfold F2R, bpow. simpl. lra. Qed.

Lemma F2R_31_32 : F2R 8725724278030336 (-53) = (31 / 32)%R.
Proof. unfold F2R, bpow. simpl. lra. Qed.

(** The values of [atan2]: a float of [-M_PI, M_PI]. *)
Lemma atan2_cases a :
  valid_binary prec emax a = true ->
  in_domain (dopp M_PI) M_PI a = true ->
  (exists b, a = S754_zero b)
  \/ exists s m e, a = S754_finite s m e
                   /\ SpecFloat.bounded prec emax m e = true
                   /\ (F2R (Zpos m) e <= F2R 7074237752028440 (-51))%R.
Proof.
  intros Hv Hd. apply in_domain_split in Hd. destruct Hd as [Hlo Hhi].
  destruct a as [b|b| |s m e].
  - left. now exists b.
  - destruct b; discriminate.
  - discriminate.
  - right. exists s, m, e. cbn [valid_binary] in Hv.
    split; [reflexivity|]. split; [exact Hv|].
    destruct s.
    + unfold dle, dopp, M_PI in Hlo. cbn [SFopp negb] in Hlo.
      rewrite SFleb_neg in Hlo.
      now apply SFleb_pos in Hlo; [|exact Hv|reflexivity].
    + unfold dle, M_PI in Hhi.
      now apply SFleb_pos in Hhi; [|exact Hv|reflexivity].
Qed.

(** [M_PI + a] for such a float: between +0 and [2 * M_PI]. *)
Lemma pi_plus_range a :
  valid_binary prec emax a = true ->
  in_domain (dopp M_PI) M_PI a = true ->
  nonneg_le (F2R 7074237752028440 (-50)) (dadd M_PI a).
Proof.
  intros Hv Hd.
  destruct (atan2_cases a Hv Hd) as [[b ->]|(s & m & e & -> & Hb & Hle)].
  - right. exists 7074237752028440%positive, (-51).
    split; [now destruct b|]. split; [reflexivity|].
    rewrite F2R_pi, F2R_two_pi. lra.
  - destruct (SFadd_finite false 7074237752028440 (-51) s m e) as (S & E & HS).
    pose proof (F2R_pos (Zpos m) e ltac:(lia)) as Hpos.
    assert (Hsum : (0 <= F2R S (Z.min (-51) e)
                    <= F2R 7074237752028440 (-50))%R).
    { rewrite HS. cbn [SF2R]. rewrite F2R_two_pi. rewrite F2R_pi in *.
      destruct s; cbn [cond_Zopp]; [rewrite F2R_opp|]; rewrite ?F2R_pi; lra. }
    unfold dadd, M_PI. rewrite E.
    apply (rounded_nonneg_le (F2R S (Z.min (-51) e))); [|reflexivity|lra].
    apply binary_normalize_nonneg, (F2R_nonneg_inv S (Z.min (-51) e)). lra.
Qed.

Section WithFunction.
Context (L : libm).

Lemma turn_range x y :
  valid_binary prec emax (atan2 L (dopp y) (dopp x)) = true ->
  in_domain (dopp M_PI) M_PI (atan2 L (dopp y) (dopp x)) = true ->
  nonneg_le 1 (turn L x y).
Proof.
  intros Hv Hd. unfold turn.
  change (dmul d2 M_PI) with (S754_finite false 7074237752028440 (-50)).
  destruct (pi_plus_range _ Hv Hd) as [->|(m & e & -> & Hb & Hle)];
    [now left|].
  rewrite <- F2R_one.
  apply (rounded_nonneg_le
           (F2R (Zpos m) e / F2R 7074237752028440 (-50))); [|reflexivity|].
  - exact (SFdiv_correct false m e false 7074237752028440 (-50)).
  - pose proof (F2R_pos (Zpos m) e ltac:(lia)).
    rewrite F2R_one. rewrite F2R_two_pi in *.
    lra.
Qed.

End WithFunction.

Lemma nonneg_le_domain mb eb q :
  SpecFloat.bounded prec emax mb eb = true ->
  nonneg_le (F2R (Zpos mb) eb) q ->
  in_domain d0 (S754_finite false mb eb) q = true.
Proof.
  intros Hbb [->|(m & e & -> & Hb & Hle)]; [reflexivity|].
  unfold in_domain. apply andb_true_iff. split; [reflexivity|].
  now apply SFleb_pos.
Qed.

Lemma nonneg_le_dle mb eb q :
  SpecFloat.bounded prec emax mb eb = true ->
  nonneg_le (F2R (Zpos mb) eb) q ->
  dle d0 q = true /\ dle q (S754_finite false mb eb) = true.
Proof.
  intros Hbb Hq. apply in_domain_split. now apply nonneg_le_domain.
Qed.

(** X21: when [atan2] returns a number of [-M_PI, M_PI], the fraction of
    a turn [(M_PI + atan2(-y, -x)) / (2 * M_PI)] is +0 or a positive float
    of at most 1: the hue of the normalized variant passes the first
    assertion of [hsv2rgb]. *)
Theorem turn_unit (L : libm) x y :
  valid_binary prec emax (atan2 L (dopp y) (dopp x)) = true ->
  in_domain (dopp M_PI) M_PI (atan2 L (dopp y) (dopp x)) = true ->
  nonneg_le 1 (turn L x y)
  /\ dle d0 (Normalized.angle L x y) && dle (Normalized.angle L x y) d1
     = true.
Proof.
  intros Hv Hd. pose proof (turn_range L x y Hv Hd) as Ht.
  split; [exact Ht|]. unfold Normalized.angle. rewrite d1_eq.
  rewrite <- F2R_one in Ht.
  now apply (nonneg_le_domain 4503599627370496 (-52)).
Qed.

Lemma turn_unit_witness :
  nonneg_le 1 (turn first_order (of_int (-1)) d1)
  /\ dle d0 (Normalized.angle first_order (of_int (-1)) d1)
     && dle (Normalized.angle first_order (of_int (-1)) d1) d1
     = true.
Proof. apply (turn_unit first_order (of_int (-1)) d1); reflexivity. Defined.

Lemma clamp_valid_01 v :
  valid_binary prec emax v = true ->
  valid_binary prec emax (Degrees.norm v) = true.
Proof.
  intros Hv. unfold Degrees.norm, clamp.
  destruct (dlt v d0); [reflexivity|]. now destruct (dlt d1 v).
Qed.

Section Hue.
Context (L : libm).

(** The hue of [main.cpp] is at most [180.0 / M_PI]. *)
Lemma angle_range x y :
  valid_binary prec emax (atan2 L (dopp y) (dopp x)) = true ->
  in_domain (dopp M_PI) M_PI (atan2 L (dopp y) (dopp x)) = true ->
  nonneg_le (F2R 8063664102031864 (-47)) (Degrees.angle L x y).
Proof.
  intros Hv Hd. pose proof (turn_range L x y Hv Hd) as Ht.
  unfold Degrees.angle. cbv zeta.
  change (ddiv d180 M_PI) with (S754_finite false 8063664102031864 (-47)).
  destruct Ht as [->|(m & e & -> & Hb & Hle)]; [now left|].
  apply (rounded_nonneg_le
           (F2R (Zpos m) e * F2R 8063664102031864 (-47))); [|reflexivity|].
  - exact (SFmul_correct false m e false 8063664102031864 (-47) Hb eq_refl).
  - pose proof (F2R_pos (Zpos m) e ltac:(lia)).
    rewrite F2R_deg_per_turn. nra.
Qed.

Lemma small_hue_domain q :
  nonneg_le (F2R 8063664102031864 (-47)) q ->
  valid_binary prec emax q = true /\ in_domain d0 d360 q = true.
Proof.
  intros [->|(m & e & -> & Hb & Hle)]; [now split|].
  split; [exact Hb|]. unfold in_domain.
  apply andb_true_iff. split; [reflexivity|]. rewrite d360_eq.
  apply SFleb_pos; [exact Hb|reflexivity|].
  rewrite F2R_d360. rewrite F2R_deg_per_turn in Hle. lra.
Qed.

Lemma small_hue_sector q :
  nonneg_le (F2R 8063664102031864 (-47)) q -> Degrees.sector q = 0.
Proof.
  intros Ha. unfold Degrees.sector, Degrees.sector_hue.
  destruct Ha as [->|(m & e & -> & Hb & Hle)]; [reflexivity|].
  rewrite F2R_deg_per_turn in Hle.
  assert (He : deq (S754_finite false m e) d360 = false).
  { rewrite d360_eq. destruct (deq _ _) eqn:He; [|reflexivity].
    apply SFeqb_pos in He; [|exact Hb|reflexivity].
    destruct He as [-> ->]. rewrite F2R_d360 in Hle. lra. }
  rewrite He.
  assert (Hq : nonneg_le (F2R 8725724278030336 (-53))
                 (ddiv (S754_finite false m e) d60)).
  { rewrite d60_eq.
    apply (rounded_nonneg_le
             (F2R (Zpos m) e / F2R 8444249301319680 (-47))); [|reflexivity|].
    - exact (SFdiv_correct false m e false 8444249301319680 (-47)).
    - pose proof (F2R_pos (Zpos m) e ltac:(lia)).
      rewrite F2R_d60, F2R_31_32. lra. }
  destruct Hq as [->|(mq & eq & -> & Hbq & Hleq)]; [reflexivity|].
  rewrite F2R_31_32 in Hleq.
  assert (Hfix : Degrees.degree (S754_finite false mq eq)
                 = S754_finite false mq eq).
  { apply (clamped_fixed d0 d360). unfold in_domain.
    apply andb_true_iff. split; [reflexivity|]. rewrite d360_eq.
    apply SFleb_pos; [exact Hbq|reflexivity|]. rewrite F2R_d360. lra. }
  rewrite Hfix.
  pose proof (shiftl_bounds (Zpos mq) eq) as [Hlo Hhi].
  pose proof (proj2 (Z.shiftl_nonneg (Zpos mq) eq) ltac:(lia)) as Hk0.
  assert (Hk : Z.shiftl (Zpos mq) eq <= 0).
  { apply Z.lt_succ_r, lt_IZR. change (Z.succ 0) with 1. lra. }
  rewrite int_of_trunc by lia. lia.
Qed.

(** X22: when [atan2] returns a number of [-M_PI, M_PI], the hue of
    [main.cpp], the fraction of a turn times [180.0 / M_PI], is at most
    [180.0 / M_PI], below 57.3 degrees; [degree] stores it as it is, its
    quotient by 60 is below 1, [hsv2rgb] takes [case 0] of its [switch],
    and red is the channel that carries [value], whatever the saturation
    and the value. *)
Theorem degrees_hue_first_sector x y :
  valid_binary prec emax (atan2 L (dopp y) (dopp x)) = true ->
  in_domain (dopp M_PI) M_PI (atan2 L (dopp y) (dopp x)) = true ->
  Degrees.degree (Degrees.angle L x y) = Degrees.angle L x y
  /\ dle (Degrees.angle L x y) (ddiv d180 M_PI) = true
  /\ Degrees.sector (Degrees.degree (Degrees.angle L x y)) = 0
  /\ switch (Degrees.sector (Degrees.degree (Degrees.angle L x y))) = Case0
  /\ forall s v,
       fst (fst (Degrees.channels (Degrees.mkHSV (Degrees.angle L x y) s v)))
       = Degrees.norm v.
Proof.
  intros Hv Hd. pose proof (angle_range x y Hv Hd) as Ha.
  destruct (small_hue_domain _ Ha) as [Hva Hda].
  assert (Hdeg : Degrees.degree (Degrees.angle L x y) = Degrees.angle L x y)
    by now apply (clamped_fixed d0 d360).
  pose proof (small_hue_sector _ Ha) as Hs.
  split; [exact Hdeg|].
  split; [now apply (nonneg_le_dle 8063664102031864 (-47))|].
  rewrite Hdeg. split; [exact Hs|]. split; [now rewrite Hs|].
  intros s v. unfold Degrees.channels, Degrees.mkHSV.
  cbn [Degrees.hue Degrees.saturation Degrees.value].
  destruct (deq (Degrees.norm s) d0); [reflexivity|].
  cbv zeta. now rewrite Hdeg, Hs.
Qed.

Context (f : complex -> complex).

(** X23: [color] of [main.cpp] at a sample where [atan2] returns a
    number of [-M_PI, M_PI], the magnitude [abs(f(z))] is finite and the
    gridline term is a binary64 number: the three fields are numbers of
    their domains, no [static_cast<unsigned char>] of [hsv2rgb] is out of
    range, and each byte of the colour is its channel times 255.0,
    truncated. *)
Theorem color_casts_defined x y :
  valid_binary prec emax
    (atan2 L (dopp (imaginary_f f (z L x y))) (dopp (real_f f (z L x y))))
  = true ->
  in_domain (dopp M_PI) M_PI
    (atan2 L (dopp (imaginary_f f (z L x y))) (dopp (real_f f (z L x y))))
  = true ->
  valid_binary prec emax (cabs L (f (z L x y))) = true ->
  isfinite (cabs L (f (z L x y))) = true ->
  valid_binary prec emax (gridlines L f x y) = true ->
  all3 (fun c => cast_defined (dmul c d255))
       (Degrees.channels (Degrees.color_hsv L f x y))
  /\ Ztrunc (dmul (fst (fst (Degrees.channels (Degrees.color_hsv L f x y))))
                  d255)
     = Some (Canvas.red (Degrees.color L f x y))
  /\ Ztrunc (dmul (snd (fst (Degrees.channels (Degrees.color_hsv L f x y))))
                  d255)
     = Some (Canvas.green (Degrees.color L f x y))
  /\ Ztrunc (dmul (snd (Degrees.channels (Degrees.color_hsv L f x y))) d255)
     = Some (Canvas.blue (Degrees.color L f x y)).
Proof.
  intros Hva Hda Hvm Hfm Hvg.
  pose proof (angle_range _ _ Hva Hda) as Ha.
  destruct (small_hue_domain _ Ha) as [Hvh Hdh].
  assert (Hu : all3 unit (Degrees.channels (Degrees.color_hsv L f x y))).
  { apply degrees_channels_unit;
      unfold Degrees.color_hsv, Degrees.mkHSV;
      cbn [Degrees.hue Degrees.saturation Degrees.value].
    - unfold Degrees.degree. fold (clamped d0 d360
        (Degrees.angle L (real_f f (z L x y)) (imaginary_f f (z L x y)))).
      now rewrite clamped_fixed.
    - unfold Degrees.degree. fold (clamped d0 d360
        (Degrees.angle L (real_f f (z L x y)) (imaginary_f f (z L x y)))).
      now rewrite clamped_fixed.
    - unfold magnitude_shading.
      destruct (SamplerFacts.sawtooth_range _ Hvm Hfm)
        as (mr & er & -> & Hb & Hlo & Hhi).
      rewrite (SamplerFacts.norm_unit mr er Hb Hhi).
      right. right. now exists mr, er.
    - apply unit_of_domain.
      + apply clamp_valid_01. exact Hvg.
      + apply (clamped_in_domain d0 d1); [reflexivity|].
        pose proof (SamplerFacts.gridlines_finite L f x y) as Hfin.
        unfold isfinite in Hfin.
        destruct (isnan (gridlines L f x y)); [discriminate|reflexivity]. }
  unfold Degrees.color, Degrees.hsv2rgb.
  destruct (Degrees.channels (Degrees.color_hsv L f x y)) as [[r g] b].
  destruct Hu as (Hr & Hg & Hb). cbn [fst snd] in *.
  destruct (unit_byte r Hr) as (kr & Hkr & Hr255 & Her).
  destruct (unit_byte g Hg) as (kg & Hkg & Hg255 & Heg).
  destruct (unit_byte b Hb) as (kb & Hkb & Hb255 & Heb).
  split.
  { unfold all3. cbn [fst snd]. repeat split.
    - now exists kr.
    - now exists kg.
    - now exists kb. }
  cbn [Canvas.red Canvas.green Canvas.blue].
  now rewrite Hkr, Hkg, Hkb, Her, Heg, Heb.
Qed.

End Hue.

Lemma degrees_hue_first_sector_witness :
  Degrees.degree (Degrees.angle first_order (of_int (-1)) d1)
  = Degrees.angle first_order (of_int (-1)) d1
  /\ dle (Degrees.angle first_order (of_int (-1)) d1) (ddiv d180 M_PI) = true
  /\ Degrees.sector (Degrees.degree (Degrees.angle first_order (of_int (-1)) d1))
     = 0
  /\ switch (Degrees.sector
               (Degrees.degree (Degrees.angle first_order (of_int (-1)) d1)))
     = Case0
  /\ forall s v,
       fst (fst (Degrees.channels
                   (Degrees.mkHSV (Degrees.angle first_order (of_int (-1)) d1)
                                  s v)))
       = Degrees.norm v.
Proof.
  apply (degrees_hue_first_sector first_order (of_int (-1)) d1); reflexivity.
Defined.

Lemma color_casts_defined_witness :
  all3 (fun c => cast_defined (dmul c d255))
       (Degrees.channels
          (Degrees.color_hsv first_order minus_z (ddiv (of_int 3) d2) d0))
  /\ Ztrunc (dmul (fst (fst (Degrees.channels
                (Degrees.color_hsv first_order minus_z (ddiv (of_int 3) d2) d0))))
                  d255)
     = Some (Canvas.red
               (Degrees.color first_order minus_z (ddiv (of_int 3) d2) d0))
  /\ Ztrunc (dmul (snd (fst (Degrees.channels
                (Degrees.color_hsv first_order minus_z (ddiv (of_int 3) d2) d0))))
                  d255)
     = Some (Canvas.green
               (Degrees.color first_order minus_z (ddiv (of_int 3) d2) d0))
  /\ Ztrunc (dmul (snd (Degrees.channels
                (Degrees.color_hsv first_order minus_z (ddiv (of_int 3) d2) d0)))
                  d255)
     = Some (Canvas.blue
               (Degrees.color first_order minus_z (ddiv (of_int 3) d2) d0)).
Proof.
  apply (color_casts_defined first_order minus_z (ddiv (of_int 3) d2) d0);
    vm_compute; reflexivity.
Defined.

End HueFacts.

(** ** The byte variant: casts, saturation and the pixel loop *)

Module BytePaintFacts.
Import MachineInt IEEE Real754 Real754Facts Canvas CanvasFacts Sampler.
Import SamplerFacts ColorFacts Pixels PixelFacts RenderFacts.
Import DomainValue DomainFacts Channels ChannelFacts Bytes BytePaint.

Lemma rounded_valid s X z : rounded s X z -> valid_binary prec emax z = true.
Proof. intros (m3 & e3 & -> & Hg & _). now apply SF_of_grid_valid. Qed.

Lemma dmul_255_valid v :
  valid_binary prec emax v = true ->
  valid_binary prec emax (dmul v d255) = true.
Proof.
  intros Hv. destruct v as [s|s| |s m e]; try reflexivity.
  cbn [valid_binary] in Hv. rewrite d255_eq.
  exact (rounded_valid _ _ _
           (SFmul_correct s m e false 8972014882652160 (-45) Hv eq_refl)).
Qed.

Lemma rounded_not_nan s X z : rounded s X z -> isnan z = false.
Proof.
  intros (m3 & e3 & -> & [Hm _] & _). unfold SF_of_grid.
  destruct m3 as [|p|p]; [reflexivity| |lia].
  now destruct (e3 <=? emax - prec).
Qed.

Lemma isnan_dmul_255 v :
  valid_binary prec emax v = true -> isnan (dmul v d255) = isnan v.
Proof.
  intros Hv. destruct v as [s|s| |s m e]; try reflexivity.
  cbn [valid_binary] in Hv. rewrite d255_eq.
  exact (rounded_not_nan _ _ _
           (SFmul_correct s m e false 8972014882652160 (-45) Hv eq_refl)).
Qed.

(** The numbers of [0, 255]: a zero, or a positive float of at most
    255. *)
Lemma byte_cases v :
  valid_binary prec emax v = true -> in_domain d0 d255 v = true ->
  (exists b, v = S754_zero b) \/ nonneg_le 255 v.
Proof.
  intros Hv Hd. apply in_domain_split in Hd.
  destruct Hd as [H0 H1]. destruct v as [s|s| |s m e].
  - left. now exists s.
  - destruct s; discriminate.
  - discriminate.
  - destruct s; [discriminate|]. right. right. exists m, e.
    cbn [valid_binary] in Hv. split; [reflexivity|]. split; [exact Hv|].
    rewrite d255_eq in H1. apply SFleb_pos in H1; [|exact Hv|reflexivity].
    now rewrite F2R_d255 in H1.
Qed.

Lemma clamp_valid v lo hi :
  valid_binary prec emax v = true -> valid_binary prec emax lo = true ->
  valid_binary prec emax hi = true ->
  valid_binary prec emax (clamp v lo hi) = true.
Proof.
  intros Hv Hlo Hhi. unfold clamp.
  destruct (dlt v lo); [exact Hlo|]. now destruct (dlt hi v).
Qed.

(** X24: the byte variant casts [clamp(v * 255.0, 0.0, 255.0)] to
    [uint8_t]: the cast is in range for every number [v], the infinities
    included, and for NaN alone it is not: [clamp] returns NaN, which no
    byte represents. *)
Theorem byte_cast_defined v :
  valid_binary prec emax v = true ->
  (cast_defined (byte_arg v) <-> isnan v = false)
  /\ (isnan v = true -> byte_arg v = S754_nan).
Proof.
  intros Hv. unfold byte_arg.
  pose proof (isnan_dmul_255 v Hv) as Hn.
  pose proof (dmul_255_valid v Hv) as Hvp.
  destruct (isnan v) eqn:Hnan.
  - destruct (dmul v d255); try discriminate. split; [|reflexivity].
    split; [|discriminate]. intros (k & Hk & _). discriminate.
  - split; [|discriminate]. split; [reflexivity|]. intros _.
    pose proof (clamped_in_domain d0 d255 _ eq_refl Hn) as Hd.
    pose proof (clamp_valid _ d0 d255 Hvp eq_refl eq_refl) as Hvc.
    unfold clamped in Hd.
    destruct (byte_cases _ Hvc Hd) as [[b Hz]|Hle].
    + rewrite Hz. exists 0. now destruct b.
    + now apply uchar_of_small.
Qed.

Lemma byte_cast_defined_witness :
  (cast_defined (byte_arg (S754_infinity false))
   <-> isnan (S754_infinity false) = false)
  /\ (isnan (S754_infinity false) = true
      -> byte_arg (S754_infinity false) = S754_nan).
Proof. apply (byte_cast_defined (S754_infinity false)). reflexivity. Defined.

Lemma F2R_127_5 : F2R 8972014882652160 (-46) = (255 / 2)%R.
Proof. unfold F2R, bpow. simpl. lra. Qed.

Section WithFunction.
Context (L : libm) (f : complex -> complex).

(** X25: in the byte variant, when the magnitude [abs(f(z))] is a
    finite number, the saturation byte is the truncation of a product of
    [127.5, 255]: it lies in 127..255, and [hsv2rgb] does not take its
    achromatic branch. *)
Theorem byte_saturation_range x y :
  valid_binary prec emax (cabs L (f (z L x y))) = true ->
  isfinite (cabs L (f (z L x y))) = true ->
  127 <= saturation (BytePaint.color_hsv L f x y) <= 255
  /\ (saturation (BytePaint.color_hsv L f x y) =? 0) = false.
Proof.
  intros Hv Hf.
  assert (Hs : 127 <= saturation (BytePaint.color_hsv L f x y) <= 255).
  { unfold BytePaint.color_hsv. cbn [saturation].
    unfold to_byte, byte_arg, magnitude_shading.
    destruct (sawtooth_range _ Hv Hf) as (mr & er & -> & Hb & Hlo & Hhi).
    rewrite d255_eq.
    pose proof (SFmul_correct false mr er false 8972014882652160 (-45)
                  Hb eq_refl) as Hr.
    cbn [xorb] in Hr. rewrite F2R_d255 in Hr.
    destruct (rounded_upper false _ _ 8972014882652160 (-45) Hr eq_refl)
      as (Hvz & Hshape & Hup); [rewrite F2R_d255; lra|].
    destruct (rounded_lower false _ _ 8972014882652160 (-46) Hr eq_refl)
      as [Hinf|(m & e & Hz & Hl)]; [rewrite F2R_127_5; lra| |].
    { rewrite Hinf in Hshape.
      destruct Hshape as [Hs|(m & e & Hs)]; discriminate Hs. }
    unfold dmul. rewrite Hz in *. cbn [SFmag valid_binary] in Hup, Hvz.
    rewrite F2R_d255 in Hup. rewrite F2R_127_5 in Hl.
    rewrite <- d255_eq.
    assert (Hfix : clamp (S754_finite false m e) d0 d255
                   = S754_finite false m e).
    { apply (clamped_fixed d0 d255). unfold in_domain.
      apply andb_true_iff. split; [reflexivity|]. rewrite d255_eq.
      apply SFleb_pos; [exact Hvz|reflexivity|]. now rewrite F2R_d255. }
    rewrite Hfix.
    destruct (uchar_of_small (S754_finite false m e)) as (k & Hk & Hk255 & ->).
    { right. now exists m, e. }
    cbn [Ztrunc cond_Zopp] in Hk. injection Hk as <-.
    pose proof (shiftl_bounds (Zpos m) e) as [Hklo Hkhi].
    split; [|lia]. apply Z.lt_succ_r, lt_IZR.
    change (Z.succ (Z.shiftl (Zpos m) e)) with (Z.shiftl (Zpos m) e + 1).
    rewrite plus_IZR. lra. }
  split; [exact Hs|]. apply Z.eqb_neq. lia.
Qed.

(** X26: [paint_complex] of the byte variant, on a canvas whose byte
    count fits an [int], returns for every function and every [libm] and
    every pixel shows [color] of its plane coordinates. *)
Theorem byte_paint_pixels c xRange yRange :
  fits_int c ->
  exists c',
    BytePaint.paint_complex L f c xRange yRange = Some c'
    /\ size c' = size c /\ length (pixels c') = length (pixels c)
    /\ forall px py,
         0 <= px < width (size c) -> 0 <= py < height (size c) ->
         holds c' {| x := px; y := py |}
           (BytePaint.color L f
              (BytePaint.plane_coord (width (size c)) xRange px)
              (BytePaint.plane_coord (height (size c)) yRange py)).
Proof.
  intros Hfit. unfold BytePaint.paint_complex.
  assert (Hrng : forall n py, py ∈ seqZ 0 n -> 0 <= py < n).
  { intros n py Hpy. apply elem_of_seqZ in Hpy. lia. }
  assert (Hrow : forall py c1,
             py ∈ seqZ 0 (height (size c)) -> size c1 = size c ->
             length (pixels c1) = length (pixels c) ->
             exists c',
               BytePaint.paint_row L f xRange
                 (BytePaint.plane_coord (height (size c)) yRange py) py c1
               = Some c'
               /\ size c' = size c /\ length (pixels c') = length (pixels c)
               /\ (forall px col, 0 <= px < width (size c) ->
                     Some (BytePaint.color L f
                             (BytePaint.plane_coord (width (size c)) xRange px)
                             (BytePaint.plane_coord (height (size c)) yRange py))
                     = Some col ->
                     holds c' {| x := px; y := py |} col)
               /\ (forall q cq, in_bounds c q = true -> y q <> py ->
                                holds c1 q cq -> holds c' q cq)).
  { intros py c1 Hpy Hs Hl. unfold BytePaint.paint_row. rewrite Hs.
    destruct (row_writes c py
                (fun px => Some (BytePaint.color L f
                   (BytePaint.plane_coord (width (size c)) xRange px)
                   (BytePaint.plane_coord (height (size c)) yRange py)))
                (seqZ 0 (width (size c))) Hfit (Hrng _ _ Hpy) (NoDup_seqZ _ _)
                (Hrng _) (fun px _ => ltac:(eauto)) c1 Hs Hl)
      as (c' & Hfold & Hs' & Hl' & Hr & Hframe).
    exists c'. split; [exact Hfold|]. split; [exact Hs'|]. split; [exact Hl'|].
    split.
    - intros px col Hpx Hcol. apply Hr; [|exact Hcol].
      apply elem_of_seqZ. lia.
    - intros q cq Hq Hy. apply Hframe; [exact Hq|now left]. }
  destruct (rows_painted c
              (fun py c' => BytePaint.paint_row L f xRange
                 (BytePaint.plane_coord (height (size c)) yRange py) py c')
              (fun px py => Some (BytePaint.color L f
                 (BytePaint.plane_coord (width (size c)) xRange px)
                 (BytePaint.plane_coord (height (size c)) yRange py)))
              (seqZ 0 (height (size c))) Hfit (NoDup_seqZ _ _) (Hrng _)
              Hrow c eq_refl eq_refl)
    as (c' & Hfold & Hs' & Hl' & Hall & _).
  exists c'. split; [exact Hfold|]. split; [exact Hs'|]. split; [exact Hl'|].
  intros px py Hpx Hpy. apply Hall; [|exact Hpx|reflexivity].
  apply elem_of_seqZ. lia.
Qed.

End WithFunction.

Lemma byte_saturation_range_witness :
  127 <= saturation (BytePaint.color_hsv first_order minus_z
                       (ddiv (of_int 3) d2) d0) <= 255
  /\ (saturation (BytePaint.color_hsv first_order minus_z
                    (ddiv (of_int 3) d2) d0) =? 0) = false.
Proof.
  apply (byte_saturation_range first_order minus_z (ddiv (of_int 3) d2) d0);
    vm_compute; reflexivity.
Defined.

Lemma byte_paint_pixels_witness :
  exists c',
    BytePaint.paint_complex first_order minus_z
      (new {| width := 2; height := 2 |}) d1 d1 = Some c'
    /\ size c' = size (new {| width := 2; height := 2 |})
    /\ length (pixels c')
       = length (pixels (new {| width := 2; height := 2 |}))
    /\ forall px py,
         0 <= px < width (size (new {| width := 2; height := 2 |})) ->
         0 <= py < height (size (new {| width := 2; height := 2 |})) ->
         holds c' {| x := px; y := py |}
           (BytePaint.color first_order minus_z
              (BytePaint.plane_coord
                 (width (size (new {| width := 2; height := 2 |}))) d1 px)
              (BytePaint.plane_coord
                 (height (size (new {| width := 2; height := 2 |}))) d1 py)).
Proof.
  apply (byte_paint_pixels first_order minus_z
           (new {| width := 2; height := 2 |}) d1 d1).
  exact fits_int_new_2x2.
Defined.

End BytePaintFacts.
